(** * Block-I/O throttling with fake devices: a shallow embedding

    The development follows [block/blk-throttle.c] and the configuration
    entry points of [block/blk-cgroup.c].  Throttle groups, service queues,
    throttle data and bios live in arenas keyed by stable identifiers; a
    pointer is an identifier and a NULL pointer is [None].

    Conventions of the embedding:
    - [unsigned long] and [u64] are 64-bit, [unsigned int] is 32-bit (an
      LP64 kernel); every arithmetic result is reduced to the width of its
      C type where the source computes it;
    - [bool] is C's [_Bool]: an argument of another integer type is
      converted to 0 or 1 at the call ([to_bool]);
    - [jiffies] is read once per entry point;
    - a kernel oops ([BUG_ON], NULL dereference, division by zero, use of
      an indeterminate pointer) is a [Fault], and so is a walk up a
      hierarchy that does not end ([OUT_OF_FUEL], a cyclic [parent_sq]
      chain);
    - per-cpu statistics and blktrace logging are left out. *)

From Stdlib Require Import ZArith Strings.String.
From stdpp Require Import base option list gmap.

Local Open Scope Z_scope.

(** ** Machine integers *)

Definition u64 (z : Z) : Z := z mod 2 ^ 64.
Definition u32 (z : Z) : Z := z mod 2 ^ 32.

(** [(long)x] for a 64-bit pattern [x]. *)
Definition s64 (z : Z) : Z :=
  let w := u64 z in if w <? 2 ^ 63 then w else w - 2 ^ 64.

Definition UINT_MAX : Z := 2 ^ 32 - 1.

(** The value [-1] once stored in a [u64], respectively [unsigned int]. *)
Definition U64_MINUS1 : Z := 2 ^ 64 - 1.
Definition U32_MINUS1 : Z := 2 ^ 32 - 1.

(** ** Faults *)

Inductive fault : Type :=
| BUG_ON
| NULL_DEREF
| DIV_ZERO
| UNINIT_PTR
| OUT_OF_FUEL.

Inductive result (A : Type) : Type :=
| Ok (a : A)
| Fault (f : fault).

Arguments Ok {A} a.
Arguments Fault {A} f.

Global Instance result_ret : MRet result := fun A a => Ok a.

Global Instance result_bind : MBind result := fun A B k r =>
  match r with
  | Ok a => k a
  | Fault f => Fault f
  end.

(** ** Directions and the per-direction arrays *)

(** Modelled from the spec: the direction indices READ = 0, WRITE = 1 and
    RANDW = 2 (their definitions are in a header outside the sources). *)
Inductive dir : Type := READ | WRITE | RANDW.

Global Instance dir_eq_dec : EqDecision dir.
Proof. solve_decision. Defined.

(** A [bool rw] parameter used as an array index. *)
Definition rw_dir (rw : bool) : dir := if rw then WRITE else READ.

(** Conversion of an integer argument to a [bool] parameter. *)
Definition to_bool (d : dir) : bool :=
  match d with READ => false | _ => true end.

Record arr3 (A : Type) : Type := Arr3 { at0 : A; at1 : A; at2 : A }.
Arguments Arr3 {A} _ _ _.
Arguments at0 {A} _.
Arguments at1 {A} _.
Arguments at2 {A} _.

Definition get3 {A} (a : arr3 A) (d : dir) : A :=
  match d with READ => at0 a | WRITE => at1 a | RANDW => at2 a end.

Definition set3 {A} (a : arr3 A) (d : dir) (v : A) : arr3 A :=
  match d with
  | READ => Arr3 v (at1 a) (at2 a)
  | WRITE => Arr3 (at0 a) v (at2 a)
  | RANDW => Arr3 (at0 a) (at1 a) v
  end.

Record arr2 (A : Type) : Type := Arr2 { ix0 : A; ix1 : A }.
Arguments Arr2 {A} _ _.
Arguments ix0 {A} _.
Arguments ix1 {A} _.

Definition get2 {A} (a : arr2 A) (rw : bool) : A :=
  if rw then ix1 a else ix0 a.

Definition set2 {A} (a : arr2 A) (rw : bool) (v : A) : arr2 A :=
  if rw then Arr2 (ix0 a) v else Arr2 v (ix1 a).

(** ** Jiffies comparisons and rounding (linux/jiffies.h, linux/kernel.h) *)

Definition time_after (a b : Z) : bool := s64 (b - a) <? 0.
Definition time_before (a b : Z) : bool := time_after b a.
Definition time_after_eq (a b : Z) : bool := 0 <=? s64 (a - b).
Definition time_before_eq (a b : Z) : bool := time_after_eq b a.
Definition time_in_range (a b c : Z) : bool :=
  time_after_eq a b && time_before_eq a c.

(** [roundup(x, y)] on [unsigned long]. *)
Definition roundup (x y : Z) : Z := u64 (u64 (x + (y - 1)) / y * y).

(** ** Bios *)

(** Modelled from the spec: the per-bio throttled-marker bit; its position
    is that of linux/blk_types.h, which is outside the sources. *)
Definition REQ_THROTTLED : Z := Z.shiftl 1 15.
Definition REQ_WRITE : Z := 1.

Record bio : Type := Bio {
  bi_rw : Z;            (* flag word *)
  bi_size : Z;          (* bi_iter.bi_size, unsigned int *)
  bi_blkcg : nat;       (* bio_blkcg(bio) *)
  bi_queue : nat        (* bdev_get_queue(bio->bi_bdev) *)
}.

Definition bio_data_dir (b : bio) : bool :=
  negb (Z.land (bi_rw b) REQ_WRITE =? 0).

Definition bio_throttled (b : bio) : bool :=
  negb (Z.land (bi_rw b) REQ_THROTTLED =? 0).

Definition bio_set_rw (b : bio) (v : Z) : bio :=
  Bio v (bi_size b) (bi_blkcg b) (bi_queue b).

(** ** Throttle groups, service queues, qnodes *)

(** A service queue is embedded in a throttle group or in the throttle data
    of a request queue. *)
Inductive sq_ref : Type :=
| SqTg (tg : nat)
| SqTd (q : nat).

Global Instance sq_ref_eq_dec : EqDecision sq_ref.
Proof. solve_decision. Defined.

(** A qnode is one of the four qnodes embedded in a throttle group. *)
Record qn_ref : Type := QnRef {
  qr_tg : nat;
  qr_on_parent : bool;
  qr_rw : bool
}.

Global Instance qn_ref_eq_dec : EqDecision qn_ref.
Proof. solve_decision. Defined.

Record throtl_qnode : Type := Qnode {
  qn_node : bool;        (* linked on a queued[] list: !list_empty(&qn->node) *)
  qn_bios : list nat     (* bio FIFO, head first *)
}.

Record throtl_service_queue : Type := Sq {
  parent_sq : option sq_ref;
  queued : arr2 (list qn_ref);
  nr_queued : arr2 Z;
  pending_tree : list nat;          (* the tree's nodes in key order *)
  first_pending : option nat;
  nr_pending : Z;
  first_pending_disptime : Z;
  pending_timer : option Z          (* expiry when armed *)
}.

(** Modelled from the spec: the two flags of a group, PENDING (linked into
    the pending tree of its parent) and WAS_EMPTY (bios were added to an
    empty group), as two bits of [flags]. *)
Definition THROTL_TG_PENDING : Z := 1.
Definition THROTL_TG_WAS_EMPTY : Z := 2.

(** The structures are declared in a header outside the sources.  The
    widths of the fields follow their use in blk-throttle.c: [bps] and
    [bytes_disp] are [u64] ([tg_set_conf_u64], the [u64] trim amount),
    [iops] and [io_disp] are [unsigned int] ([tg_set_conf_uint], the
    [(u64)] cast and the [UINT_MAX] clamp of the IOPS check), slice bounds
    and [disptime] are [unsigned long] jiffies, and the per-direction arrays
    have the three entries READ, WRITE and RANDW that the loops
    [for (rw = READ; rw <= RANDW; rw++)] run over. *)
Record throtl_grp : Type := Tg {
  service_queue : throtl_service_queue;
  qnode_on_self : arr2 throtl_qnode;
  qnode_on_parent : arr2 throtl_qnode;
  td : option nat;
  flags : Z;
  has_rules : arr3 bool;
  bps : arr3 Z;
  iops : arr3 Z;
  bytes_disp : arr3 Z;
  io_disp : arr3 Z;
  slice_start : arr3 Z;
  slice_end : arr3 Z;
  disptime : Z;
  fake : bool;
  fake_d : option (nat * Z);
  blkg_refcnt : option Z   (* refcnt of tg_to_blkg(tg); None without a blkg *)
}.

Definition set_service_queue (v : throtl_service_queue) (t : throtl_grp) :=
  Tg v (qnode_on_self t) (qnode_on_parent t) (td t) (flags t) (has_rules t)
     (bps t) (iops t) (bytes_disp t) (io_disp t) (slice_start t) (slice_end t)
     (disptime t) (fake t) (fake_d t) (blkg_refcnt t).
Definition set_qnode_on_self (v : arr2 throtl_qnode) (t : throtl_grp) :=
  Tg (service_queue t) v (qnode_on_parent t) (td t) (flags t) (has_rules t)
     (bps t) (iops t) (bytes_disp t) (io_disp t) (slice_start t) (slice_end t)
     (disptime t) (fake t) (fake_d t) (blkg_refcnt t).
Definition set_qnode_on_parent (v : arr2 throtl_qnode) (t : throtl_grp) :=
  Tg (service_queue t) (qnode_on_self t) v (td t) (flags t) (has_rules t)
     (bps t) (iops t) (bytes_disp t) (io_disp t) (slice_start t) (slice_end t)
     (disptime t) (fake t) (fake_d t) (blkg_refcnt t).
Definition set_td (v : option nat) (t : throtl_grp) :=
  Tg (service_queue t) (qnode_on_self t) (qnode_on_parent t) v (flags t)
     (has_rules t) (bps t) (iops t) (bytes_disp t) (io_disp t) (slice_start t)
     (slice_end t) (disptime t) (fake t) (fake_d t) (blkg_refcnt t).
Definition set_flags (v : Z) (t : throtl_grp) :=
  Tg (service_queue t) (qnode_on_self t) (qnode_on_parent t) (td t) v
     (has_rules t) (bps t) (iops t) (bytes_disp t) (io_disp t) (slice_start t)
     (slice_end t) (disptime t) (fake t) (fake_d t) (blkg_refcnt t).
Definition set_has_rules (v : arr3 bool) (t : throtl_grp) :=
  Tg (service_queue t) (qnode_on_self t) (qnode_on_parent t) (td t) (flags t)
     v (bps t) (iops t) (bytes_disp t) (io_disp t) (slice_start t)
     (slice_end t) (disptime t) (fake t) (fake_d t) (blkg_refcnt t).
Definition set_bps (v : arr3 Z) (t : throtl_grp) :=
  Tg (service_queue t) (qnode_on_self t) (qnode_on_parent t) (td t) (flags t)
     (has_rules t) v (iops t) (bytes_disp t) (io_disp t) (slice_start t)
     (slice_end t) (disptime t) (fake t) (fake_d t) (blkg_refcnt t).
Definition set_iops (v : arr3 Z) (t : throtl_grp) :=
  Tg (service_queue t) (qnode_on_self t) (qnode_on_parent t) (td t) (flags t)
     (has_rules t) (bps t) v (bytes_disp t) (io_disp t) (slice_start t)
     (slice_end t) (disptime t) (fake t) (fake_d t) (blkg_refcnt t).
Definition set_bytes_disp (v : arr3 Z) (t : throtl_grp) :=
  Tg (service_queue t) (qnode_on_self t) (qnode_on_parent t) (td t) (flags t)
     (has_rules t) (bps t) (iops t) v (io_disp t) (slice_start t)
     (slice_end t) (disptime t) (fake t) (fake_d t) (blkg_refcnt t).
Definition set_io_disp (v : arr3 Z) (t : throtl_grp) :=
  Tg (service_queue t) (qnode_on_self t) (qnode_on_parent t) (td t) (flags t)
     (has_rules t) (bps t) (iops t) (bytes_disp t) v (slice_start t)
     (slice_end t) (disptime t) (fake t) (fake_d t) (blkg_refcnt t).
Definition set_slice_start (v : arr3 Z) (t : throtl_grp) :=
  Tg (service_queue t) (qnode_on_self t) (qnode_on_parent t) (td t) (flags t)
     (has_rules t) (bps t) (iops t) (bytes_disp t) (io_disp t) v
     (slice_end t) (disptime t) (fake t) (fake_d t) (blkg_refcnt t).
Definition set_slice_end (v : arr3 Z) (t : throtl_grp) :=
  Tg (service_queue t) (qnode_on_self t) (qnode_on_parent t) (td t) (flags t)
     (has_rules t) (bps t) (iops t) (bytes_disp t) (io_disp t) (slice_start t)
     v (disptime t) (fake t) (fake_d t) (blkg_refcnt t).
Definition set_disptime (v : Z) (t : throtl_grp) :=
  Tg (service_queue t) (qnode_on_self t) (qnode_on_parent t) (td t) (flags t)
     (has_rules t) (bps t) (iops t) (bytes_disp t) (io_disp t) (slice_start t)
     (slice_end t) v (fake t) (fake_d t) (blkg_refcnt t).
Definition set_fake (v : bool) (t : throtl_grp) :=
  Tg (service_queue t) (qnode_on_self t) (qnode_on_parent t) (td t) (flags t)
     (has_rules t) (bps t) (iops t) (bytes_disp t) (io_disp t) (slice_start t)
     (slice_end t) (disptime t) v (fake_d t) (blkg_refcnt t).
Definition set_blkg_refcnt (v : option Z) (t : throtl_grp) :=
  Tg (service_queue t) (qnode_on_self t) (qnode_on_parent t) (td t) (flags t)
     (has_rules t) (bps t) (iops t) (bytes_disp t) (io_disp t) (slice_start t)
     (slice_end t) (disptime t) (fake t) (fake_d t) v.

(** ** The token bucket of one throttle group *)

Definition bps_unlimited (tg : throtl_grp) (d : dir) : bool :=
  get3 (bps tg) d =? U64_MINUS1.
Definition iops_unlimited (tg : throtl_grp) (d : dir) : bool :=
  get3 (iops tg) d =? U32_MINUS1.

Section TokenBucket.

(** Timer frequency of the kernel configuration. *)
Variable HZ : Z.

(** Throttling is performed over 100ms slices. *)
Definition throtl_slice : Z := HZ / 10.

Definition throtl_start_new_slice (jiffies : Z) (tg : throtl_grp) (rw : bool)
  : throtl_grp :=
  let d := rw_dir rw in
  let tg := set_bytes_disp (set3 (bytes_disp tg) d 0) tg in
  let tg := set_io_disp (set3 (io_disp tg) d 0) tg in
  let tg := set_slice_start (set3 (slice_start tg) d jiffies) tg in
  set_slice_end (set3 (slice_end tg) d (u64 (jiffies + throtl_slice))) tg.

Definition throtl_set_slice_end (tg : throtl_grp) (rw : bool) (jiffy_end : Z)
  : throtl_grp :=
  set_slice_end (set3 (slice_end tg) (rw_dir rw) (roundup jiffy_end throtl_slice)) tg.

Definition throtl_extend_slice (tg : throtl_grp) (rw : bool) (jiffy_end : Z)
  : throtl_grp :=
  set_slice_end (set3 (slice_end tg) (rw_dir rw) (roundup jiffy_end throtl_slice)) tg.

(** Determine if previously allocated or extended slice is complete or not. *)
Definition throtl_slice_used (jiffies : Z) (tg : throtl_grp) (rw : bool) : bool :=
  if time_in_range jiffies (get3 (slice_start tg) (rw_dir rw))
                           (get3 (slice_end tg) (rw_dir rw))
  then false else true.

(** Trim the used slices and adjust slice start accordingly.  The parameter
    is an [unsigned int]; the helpers it calls take a [bool]. *)
Definition throtl_trim_slice (jiffies : Z) (tg : throtl_grp) (rw : dir)
  : result throtl_grp :=
  if time_before (get3 (slice_end tg) rw) (get3 (slice_start tg) rw)
  then Fault BUG_ON
  else if throtl_slice_used jiffies tg (to_bool rw) then Ok tg
  else
    let tg := throtl_set_slice_end tg (to_bool rw) (u64 (jiffies + throtl_slice)) in
    let time_elapsed := u64 (jiffies - get3 (slice_start tg) rw) in
    let nr_slices := time_elapsed / throtl_slice in
    if nr_slices =? 0 then Ok tg
    else
      let bytes_trim := u64 (get3 (bps tg) rw * throtl_slice * nr_slices) / HZ in
      let io_trim := u64 (get3 (iops tg) rw * throtl_slice * nr_slices) / HZ in
      if (bytes_trim =? 0) && (io_trim =? 0) then Ok tg
      else
        let tg :=
          set_bytes_disp
            (set3 (bytes_disp tg) rw
               (if bytes_trim <=? get3 (bytes_disp tg) rw
                then u64 (get3 (bytes_disp tg) rw - bytes_trim) else 0)) tg in
        let tg :=
          set_io_disp
            (set3 (io_disp tg) rw
               (if io_trim <=? get3 (io_disp tg) rw
                then u32 (get3 (io_disp tg) rw - io_trim) else 0)) tg in
        Ok (set_slice_start
              (set3 (slice_start tg) rw
                 (u64 (get3 (slice_start tg) rw + nr_slices * throtl_slice))) tg).

(** The check of one IOPS limit (index [d]) as [tg_with_in_iops_limit]
    writes it out twice, for [rw] and for [RANDW]: [None] when the bio is
    within the limit, else the approximate time to dispatch. *)
Definition iops_limit_wait (jiffies : Z) (tg : throtl_grp) (d : dir)
  : result (option Z) :=
  let jiffy_elapsed := u64 (jiffies - get3 (slice_start tg) d) in
  let jiffy_elapsed_rnd :=
    roundup (if jiffy_elapsed =? 0 then throtl_slice else jiffy_elapsed)
            throtl_slice in
  let tmp := u64 (get3 (iops tg) d * jiffy_elapsed_rnd) / HZ in
  let io_allowed := if UINT_MAX <? tmp then UINT_MAX else tmp in
  if u32 (get3 (io_disp tg) d + 1) <=? io_allowed then Ok None
  else if get3 (iops tg) d =? 0 then Fault DIV_ZERO
  else
    let jiffy_wait :=
      u32 (u32 (u32 (get3 (io_disp tg) d + 1) * HZ) / get3 (iops tg) d + 1) in
    Ok (Some (if jiffy_elapsed <? jiffy_wait
              then u64 (jiffy_wait - jiffy_elapsed) else 1)).

(** [wait] is the value of [*wait] on entry; the result carries its value
    on return. *)
Definition tg_with_in_iops_limit (jiffies : Z) (tg : throtl_grp) (b : bio)
    (wait : Z) : result (bool * Z) :=
  let rw := rw_dir (bio_data_dir b) in
  wait ← (if negb (iops_unlimited tg rw) then
            o ← iops_limit_wait jiffies tg rw;
            Ok (match o with None => 0 | Some jiffy_wait => jiffy_wait end)
          else Ok wait);
  wait ← (if negb (iops_unlimited tg RANDW) then
            o ← iops_limit_wait jiffies tg RANDW;
            Ok (match o with
                | None => if iops_unlimited tg rw then 0 else wait
                | Some jiffy_wait =>
                    if negb (iops_unlimited tg rw)
                    then Z.max wait jiffy_wait else jiffy_wait
                end)
          else Ok wait);
  Ok (wait =? 0, wait).

(** The check of one BPS limit (index [d]), as for IOPS. *)
Definition bps_limit_wait (jiffies : Z) (tg : throtl_grp) (d : dir) (size : Z)
  : result (option Z) :=
  let jiffy_elapsed := u64 (jiffies - get3 (slice_start tg) d) in
  let jiffy_elapsed_rnd :=
    roundup (if jiffy_elapsed =? 0 then throtl_slice else jiffy_elapsed)
            throtl_slice in
  let bytes_allowed := u64 (get3 (bps tg) d * jiffy_elapsed_rnd) / HZ in
  if u64 (get3 (bytes_disp tg) d + size) <=? bytes_allowed then Ok None
  else
    let extra_bytes := u64 (get3 (bytes_disp tg) d + size - bytes_allowed) in
    if get3 (bps tg) d =? 0 then Fault DIV_ZERO
    else
      let jiffy_wait := u64 (extra_bytes * HZ) / get3 (bps tg) d in
      let jiffy_wait := if jiffy_wait =? 0 then 1 else jiffy_wait in
      Ok (Some (u64 (jiffy_wait + (jiffy_elapsed_rnd - jiffy_elapsed)))).

Definition tg_with_in_bps_limit (jiffies : Z) (tg : throtl_grp) (b : bio)
    (wait : Z) : result (bool * Z) :=
  let rw := rw_dir (bio_data_dir b) in
  wait ← (if negb (bps_unlimited tg rw) then
            o ← bps_limit_wait jiffies tg rw (bi_size b);
            Ok (match o with None => 0 | Some jiffy_wait => jiffy_wait end)
          else Ok wait);
  wait ← (if negb (bps_unlimited tg RANDW) then
            o ← bps_limit_wait jiffies tg RANDW (bi_size b);
            Ok (match o with
                | None => if bps_unlimited tg rw then 0 else wait
                | Some jiffy_wait =>
                    if negb (bps_unlimited tg rw)
                    then Z.max wait jiffy_wait else jiffy_wait
                end)
          else Ok wait);
  Ok (wait =? 0, wait).

(** Renew or extend the slice of one direction at the start of
    [tg_may_dispatch]: the array is indexed by [d], the helpers receive [d]
    as a [bool]. *)
Definition renew_slice (jiffies : Z) (tg : throtl_grp) (d : dir) : throtl_grp :=
  if throtl_slice_used jiffies tg (to_bool d)
  then throtl_start_new_slice jiffies tg (to_bool d)
  else if time_before (get3 (slice_end tg) d) (u64 (jiffies + throtl_slice))
       then throtl_extend_slice tg (to_bool d) (u64 (jiffies + throtl_slice))
       else tg.

(** Extend the slice of one direction when the bio is rejected. *)
Definition cover_wait (jiffies : Z) (tg : throtl_grp) (d : dir) (max_wait : Z)
  : throtl_grp :=
  if time_before (get3 (slice_end tg) d) (u64 (jiffies + max_wait))
  then throtl_extend_slice tg (to_bool d) (u64 (jiffies + max_wait))
  else tg.

(** Returns whether one can dispatch a bio or not, the approximate number of
    jiffies to wait (the value stored through [wait] when it is given), and
    the group with its slices updated. *)
Definition tg_may_dispatch (jiffies : Z) (tg : throtl_grp) (b : bio)
  : result (bool * Z * throtl_grp) :=
  let rw := rw_dir (bio_data_dir b) in
  if bps_unlimited tg rw && iops_unlimited tg rw
     && bps_unlimited tg RANDW && iops_unlimited tg RANDW
  then Ok (true, 0, tg)
  else
    let tg := renew_slice jiffies tg rw in
    let tg := renew_slice jiffies tg RANDW in
    '(bps_ok, bps_wait) ← tg_with_in_bps_limit jiffies tg b 0;
    '(iops_ok, iops_wait) ←
      (if bps_ok then tg_with_in_iops_limit jiffies tg b 0 else Ok (false, 0));
    if bps_ok && iops_ok then Ok (true, 0, tg)
    else
      let max_wait := Z.max bps_wait iops_wait in
      let tg := cover_wait jiffies tg rw max_wait in
      let tg := cover_wait jiffies tg RANDW max_wait in
      Ok (false, max_wait, tg).

End TokenBucket.

(** Charge the bio to the group and mark it throttled. *)
Definition throtl_charge_bio (tg : throtl_grp) (b : bio) : throtl_grp * bio :=
  let rw := rw_dir (bio_data_dir b) in
  let tg := set_bytes_disp
              (set3 (bytes_disp tg) rw (u64 (get3 (bytes_disp tg) rw + bi_size b))) tg in
  let tg := set_bytes_disp
              (set3 (bytes_disp tg) RANDW
                 (u64 (get3 (bytes_disp tg) RANDW + bi_size b))) tg in
  let tg := set_io_disp (set3 (io_disp tg) rw (u32 (get3 (io_disp tg) rw + 1))) tg in
  let tg := set_io_disp
              (set3 (io_disp tg) RANDW (u32 (get3 (io_disp tg) RANDW + 1))) tg in
  (tg, if Z.land (bi_rw b) REQ_THROTTLED =? 0
       then bio_set_rw b (Z.lor (bi_rw b) REQ_THROTTLED) else b).

(** ** The arena *)

Record fake_device_member : Type := FdMember {
  fm_queue : nat;
  fm_tg : nat
}.

(** A fake device; the [next] chain of a blkcg is a list of these, and a
    pointer into the chain is the suffix that starts at its node. *)
Record fake_device : Type := FakeDevice {
  fd_id : Z;
  fd_tg : nat;                           (* header throttle group *)
  fd_head : list fake_device_member      (* member chain *)
}.

Record throtl_data : Type := Td {
  td_service_queue : throtl_service_queue;
  td_nr_queued : arr2 Z;
  td_root_tg : option nat;       (* blkg_to_tg(td->queue->root_blkg) *)
  td_queue_bypass : bool;        (* blk_queue_bypass(td->queue) *)
  td_queue_dying : bool          (* blk_queue_dying(td->queue) *)
}.

Definition set_td_service_queue (v : throtl_service_queue) (d : throtl_data) :=
  Td v (td_nr_queued d) (td_root_tg d) (td_queue_bypass d) (td_queue_dying d).
Definition set_td_nr_queued (v : arr2 Z) (d : throtl_data) :=
  Td (td_service_queue d) v (td_root_tg d) (td_queue_bypass d) (td_queue_dying d).

Record state : Type := State {
  jiffies : Z;
  tgs : gmap nat throtl_grp;
  tds : gmap nat throtl_data;               (* q->td, keyed by request queue *)
  bios : gmap nat bio;
  fd_heads : gmap nat (list fake_device);   (* blkcg->fd_head *)
  blkg_tree : gmap (nat * nat) nat          (* (blkcg, q) to its throttle group *)
}.

Definition set_tgs (v : gmap nat throtl_grp) (s : state) :=
  State (jiffies s) v (tds s) (bios s) (fd_heads s) (blkg_tree s).
Definition set_tds (v : gmap nat throtl_data) (s : state) :=
  State (jiffies s) (tgs s) v (bios s) (fd_heads s) (blkg_tree s).
Definition set_bios (v : gmap nat bio) (s : state) :=
  State (jiffies s) (tgs s) (tds s) v (fd_heads s) (blkg_tree s).
Definition set_fd_heads (v : gmap nat (list fake_device)) (s : state) :=
  State (jiffies s) (tgs s) (tds s) (bios s) v (blkg_tree s).

(** Dereferences. *)
Definition deref {A} (o : option A) : result A :=
  match o with Some a => Ok a | None => Fault NULL_DEREF end.

Definition get_tg (st : state) (id : nat) : result throtl_grp :=
  deref (tgs st !! id).
Definition put_tg (st : state) (id : nat) (t : throtl_grp) : state :=
  set_tgs (<[id := t]> (tgs st)) st.

Definition get_td (st : state) (q : nat) : result throtl_data :=
  deref (tds st !! q).
Definition put_td (st : state) (q : nat) (d : throtl_data) : state :=
  set_tds (<[q := d]> (tds st)) st.

Definition get_bio (st : state) (id : nat) : result bio :=
  deref (bios st !! id).
Definition put_bio (st : state) (id : nat) (b : bio) : state :=
  set_bios (<[id := b]> (bios st)) st.

Definition get_sq (st : state) (r : sq_ref) : result throtl_service_queue :=
  match r with
  | SqTg id => t ← get_tg st id; Ok (service_queue t)
  | SqTd q => d ← get_td st q; Ok (td_service_queue d)
  end.

Definition put_sq (st : state) (r : sq_ref) (sq : throtl_service_queue)
  : result state :=
  match r with
  | SqTg id => t ← get_tg st id; Ok (put_tg st id (set_service_queue sq t))
  | SqTd q => d ← get_td st q; Ok (put_td st q (set_td_service_queue sq d))
  end.

Definition set_queued (v : arr2 (list qn_ref)) (s : throtl_service_queue) :=
  Sq (parent_sq s) v (nr_queued s) (pending_tree s) (first_pending s)
     (nr_pending s) (first_pending_disptime s) (pending_timer s).
Definition set_nr_queued (v : arr2 Z) (s : throtl_service_queue) :=
  Sq (parent_sq s) (queued s) v (pending_tree s) (first_pending s)
     (nr_pending s) (first_pending_disptime s) (pending_timer s).
Definition set_pending_tree (v : list nat) (s : throtl_service_queue) :=
  Sq (parent_sq s) (queued s) (nr_queued s) v (first_pending s)
     (nr_pending s) (first_pending_disptime s) (pending_timer s).
Definition set_first_pending (v : option nat) (s : throtl_service_queue) :=
  Sq (parent_sq s) (queued s) (nr_queued s) (pending_tree s) v
     (nr_pending s) (first_pending_disptime s) (pending_timer s).
Definition set_nr_pending (v : Z) (s : throtl_service_queue) :=
  Sq (parent_sq s) (queued s) (nr_queued s) (pending_tree s) (first_pending s)
     v (first_pending_disptime s) (pending_timer s).
Definition set_first_pending_disptime (v : Z) (s : throtl_service_queue) :=
  Sq (parent_sq s) (queued s) (nr_queued s) (pending_tree s) (first_pending s)
     (nr_pending s) v (pending_timer s).
Definition set_pending_timer (v : option Z) (s : throtl_service_queue) :=
  Sq (parent_sq s) (queued s) (nr_queued s) (pending_tree s) (first_pending s)
     (nr_pending s) (first_pending_disptime s) v.
Definition set_parent_sq (v : option sq_ref) (s : throtl_service_queue) :=
  Sq v (queued s) (nr_queued s) (pending_tree s) (first_pending s)
     (nr_pending s) (first_pending_disptime s) (pending_timer s).

Definition get_qn (t : throtl_grp) (r : qn_ref) : throtl_qnode :=
  if qr_on_parent r then get2 (qnode_on_parent t) (qr_rw r)
  else get2 (qnode_on_self t) (qr_rw r).

Definition put_qn (t : throtl_grp) (r : qn_ref) (qn : throtl_qnode) : throtl_grp :=
  if qr_on_parent r
  then set_qnode_on_parent (set2 (qnode_on_parent t) (qr_rw r) qn) t
  else set_qnode_on_self (set2 (qnode_on_self t) (qr_rw r) qn) t.

(** [sq_to_tg]: the throttle group a service queue belongs to, NULL for the
    top-level one embedded in throtl_data. *)
Definition sq_to_tg (st : state) (sq : option sq_ref) : option nat :=
  match sq with
  | Some (SqTg id) =>
      match tgs st !! id with
      | Some t =>
          match parent_sq (service_queue t) with
          | Some _ => Some id
          | None => None
          end
      | None => None
      end
  | _ => None
  end.

(** [blkg_get] and [blkg_put] on [tg_to_blkg(tg)]; a group without a blkg
    has no reference count. *)
Definition blkg_get (t : throtl_grp) : result throtl_grp :=
  n ← deref (blkg_refcnt t); Ok (set_blkg_refcnt (Some (n + 1)) t).
Definition blkg_put (t : throtl_grp) : result throtl_grp :=
  n ← deref (blkg_refcnt t); Ok (set_blkg_refcnt (Some (n - 1)) t).

(** ** Qnodes and the queued[] lists *)

(** A [queued] argument is [&sq->queued[rw]]: a service queue and an index. *)
Definition get_queued (st : state) (sq : sq_ref) (rw : bool) : result (list qn_ref) :=
  s ← get_sq st sq; Ok (get2 (queued s) rw).

Definition put_queued (st : state) (sq : sq_ref) (rw : bool) (l : list qn_ref)
  : result state :=
  s ← get_sq st sq; put_sq st sq (set_queued (set2 (queued s) rw l) s).

(** Add the bio to the qnode and put the qnode on [queued] if it is not
    already on a list; [with_blkg] tells [throtl_qnode_add_bio], which bumps
    the reference count of the group, from
    [throtl_qnode_add_bio_withoutblkg], which does not. *)
Definition qnode_add_bio (with_blkg : bool) (st : state) (bio_id : nat)
    (qn : qn_ref) (sq : sq_ref) (rw : bool) : result state :=
  t ← get_tg st (qr_tg qn);
  let n := get_qn t qn in
  let t := put_qn t qn (Qnode (qn_node n) (qn_bios n ++ [bio_id])) in
  if qn_node n then Ok (put_tg st (qr_tg qn) t)
  else
    let t := put_qn t qn (Qnode true (qn_bios n ++ [bio_id])) in
    let st := put_tg st (qr_tg qn) t in
    l ← get_queued st sq rw;
    st ← put_queued st sq rw (l ++ [qn]);
    if with_blkg then
      t ← get_tg st (qr_tg qn);
      t ← blkg_get t;
      Ok (put_tg st (qr_tg qn) t)
    else Ok st.

Definition throtl_qnode_add_bio := qnode_add_bio true.
Definition throtl_qnode_add_bio_withoutblkg := qnode_add_bio false.

(** Peek the first bio on a qnode list. *)
Definition throtl_peek_queued (st : state) (sq : sq_ref) (rw : bool)
  : result (option nat) :=
  l ← get_queued st sq rw;
  match l with
  | [] => Ok None
  | qn :: _ => t ← get_tg st (qr_tg qn); Ok (head (qn_bios (get_qn t qn)))
  end.

(** Pop the first bio from a qnode list.  [tg_to_put] tells whether the out
    argument is given; the second component of the result is the value
    stored through it, if any. *)
Definition throtl_pop_queued (st : state) (sq : sq_ref) (rw : bool)
    (tg_to_put : bool) : result (option nat * option nat * state) :=
  l ← get_queued st sq rw;
  match l with
  | [] => Ok (None, None, st)
  | qn :: rest =>
      t ← get_tg st (qr_tg qn);
      let n := get_qn t qn in
      let b := head (qn_bios n) in
      let bl := tail (qn_bios n) in
      match bl with
      | [] =>
          let t := put_qn t qn (Qnode false bl) in
          st ← put_queued (put_tg st (qr_tg qn) t) sq rw rest;
          if tg_to_put then Ok (b, Some (qr_tg qn), st)
          else
            t ← get_tg st (qr_tg qn);
            if fake t then Ok (b, None, st)
            else t ← blkg_put t; Ok (b, None, put_tg st (qr_tg qn) t)
      | _ :: _ =>
          let t := put_qn t qn (Qnode (qn_node n) bl) in
          st ← put_queued (put_tg st (qr_tg qn) t) sq rw (rest ++ [qn]);
          Ok (b, None, st)
      end
  end.

(** ** The pending tree

    The red-black tree of a service queue is represented by the sequence of
    its nodes in key order: a node is linked before the first node whose
    [disptime] is after its key, as the descent of [tg_service_queue_add]
    places it in a tree that is ordered by [disptime]. *)

Definition throtl_rb_first (st : state) (parent : sq_ref)
  : result (option nat * state) :=
  sq ← get_sq st parent;
  if nr_pending sq =? 0 then Ok (None, st)
  else
    let sq := match first_pending sq with
              | None => set_first_pending (head (pending_tree sq)) sq
              | Some _ => sq
              end in
    st ← put_sq st parent sq;
    Ok (first_pending sq, st).

Definition throtl_rb_erase (n : nat) (sq : throtl_service_queue)
  : throtl_service_queue :=
  let sq := if decide (first_pending sq = Some n)
            then set_first_pending None sq else sq in
  let sq := set_pending_tree (filter (λ x, x ≠ n) (pending_tree sq)) sq in
  set_nr_pending (u32 (nr_pending sq - 1)) sq.

Definition update_min_dispatch_time (st : state) (parent : sq_ref) : result state :=
  '(tg, st) ← throtl_rb_first st parent;
  match tg with
  | None => Ok st
  | Some id =>
      t ← get_tg st id;
      sq ← get_sq st parent;
      put_sq st parent (set_first_pending_disptime (disptime t) sq)
  end.

(** The second component is the [left] flag of the descent: the new node
    became the leftmost one. *)
Fixpoint rb_link_node (st : state) (key : Z) (n : nat) (tree : list nat)
  : result (list nat * bool) :=
  match tree with
  | [] => Ok ([n], true)
  | x :: rest =>
      t ← get_tg st x;
      if time_before key (disptime t) then Ok (n :: tree, true)
      else '(r, _) ← rb_link_node st key n rest; Ok (x :: r, false)
  end.

Definition tg_service_queue_add (st : state) (id : nat) : result state :=
  t ← get_tg st id;
  parent ← deref (parent_sq (service_queue t));
  sq ← get_sq st parent;
  '(tree, leftmost) ← rb_link_node st (disptime t) id (pending_tree sq);
  let sq := if leftmost : bool then set_first_pending (Some id) sq else sq in
  put_sq st parent (set_pending_tree tree sq).

Definition __throtl_enqueue_tg (st : state) (id : nat) : result state :=
  st ← tg_service_queue_add st id;
  t ← get_tg st id;
  let st := put_tg st id (set_flags (Z.lor (flags t) THROTL_TG_PENDING) t) in
  t ← get_tg st id;
  parent ← deref (parent_sq (service_queue t));
  sq ← get_sq st parent;
  put_sq st parent (set_nr_pending (u32 (nr_pending sq + 1)) sq).

Definition throtl_enqueue_tg (st : state) (id : nat) : result state :=
  t ← get_tg st id;
  if Z.land (flags t) THROTL_TG_PENDING =? 0
  then __throtl_enqueue_tg st id else Ok st.

Definition __throtl_dequeue_tg (st : state) (id : nat) : result state :=
  t ← get_tg st id;
  parent ← deref (parent_sq (service_queue t));
  sq ← get_sq st parent;
  st ← put_sq st parent (throtl_rb_erase id sq);
  t ← get_tg st id;
  Ok (put_tg st id
        (set_flags (Z.land (flags t) (Z.lnot THROTL_TG_PENDING)) t)).

Definition throtl_dequeue_tg (st : state) (id : nat) : result state :=
  t ← get_tg st id;
  if Z.land (flags t) THROTL_TG_PENDING =? 0
  then Ok st else __throtl_dequeue_tg st id.

(** ** Timers *)

Definition throtl_schedule_pending_timer (st : state) (sq : sq_ref) (expires : Z)
  : result state :=
  s ← get_sq st sq; put_sq st sq (set_pending_timer (Some expires) s).

(** Schedule the next dispatch cycle.  Returns [true] if either the timer is
    armed or there is no pending child left, [false] if the current dispatch
    window is still open and the caller should continue dispatching. *)
Definition throtl_schedule_next_dispatch (st : state) (sq : option sq_ref)
    (force : bool) : result (bool * state) :=
  r ← deref sq;
  s ← get_sq st r;
  if nr_pending s =? 0 then Ok (true, st)
  else
    st ← update_min_dispatch_time st r;
    s ← get_sq st r;
    if force || time_after (first_pending_disptime s) (jiffies st)
    then st ← throtl_schedule_pending_timer st r (first_pending_disptime s);
         Ok (true, st)
    else Ok (false, st).

(** ** Fake devices *)

(** A [struct fake_device *] local: indeterminate until assigned, then a
    position in the chain of its blkcg (NULL is the empty suffix). *)
Inductive fd_ptr : Type :=
| FdUninit
| FdAt (chain : list fake_device).

Definition fd_deref (p : fd_ptr) : result fake_device :=
  match p with
  | FdUninit => Fault UNINIT_PTR
  | FdAt [] => Fault NULL_DEREF
  | FdAt (fd :: _) => Ok fd
  end.

Definition queue_to_fd_member (fd : fake_device) (q : nat)
  : option fake_device_member :=
  find (λ m, bool_decide (fm_queue m = q)) (fd_head fd).

Definition queue_in_fake_d (fd : fake_device) (q : nat) : bool :=
  existsb (λ m, bool_decide (fm_queue m = q)) (fd_head fd).

Definition fake_d_has_limit (st : state) (fd : fake_device) (rw : dir) (q : nat)
  : result bool :=
  if queue_in_fake_d fd q
  then t ← get_tg st (fd_tg fd); Ok (get3 (has_rules t) rw)
  else Ok false.

(** [throtl_charge_bio] on a group and a bio of the arena. *)
Definition charge_bio (st : state) (id : nat) (bio_id : nat) : result state :=
  t ← get_tg st id;
  b ← get_bio st bio_id;
  let '(t, b) := throtl_charge_bio t b in
  Ok (put_bio (put_tg st id t) bio_id b).

Fixpoint charge_members (st : state) (ms : list fake_device_member)
    (bio_id : nat) : result state :=
  match ms with
  | [] => Ok st
  | m :: ms => st ← charge_bio st (fm_tg m) bio_id; charge_members st ms bio_id
  end.

Definition throtl_charge_bio_recursively (st : state) (fd : fake_device)
    (bio_id : nat) : result state :=
  st ← charge_bio st (fd_tg fd) bio_id;
  charge_members st (fd_head fd) bio_id.

(** The number of queued bios of the members is added up in [total], which
    is declared once, before the loop over the two directions. *)
Fixpoint sum_member_queued (st : state) (ms : list fake_device_member)
    (rw : bool) (total : Z) : result Z :=
  match ms with
  | [] => Ok total
  | m :: ms =>
      t ← get_tg st (fm_tg m);
      sum_member_queued st ms rw
        (u32 (total + get2 (nr_queued (service_queue t)) rw))
  end.

Definition update_fd_queuenr_dir (st : state) (fd : fake_device) (rw : bool)
    (total : Z) : result (Z * state) :=
  total ← sum_member_queued st (fd_head fd) rw total;
  h ← get_tg st (fd_tg fd);
  let sq := service_queue h in
  if total <=? get2 (nr_queued sq) rw
  then Ok (total,
           put_tg st (fd_tg fd)
             (set_service_queue (set_nr_queued (set2 (nr_queued sq) rw total) sq) h))
  else Ok (total, st).

Definition update_fd_queuenr (st : state) (fd : fake_device) : result state :=
  '(total, st) ← update_fd_queuenr_dir st fd false 0;
  '(_, st) ← update_fd_queuenr_dir st fd true total;
  Ok st.

(** ** Queueing a bio on a group *)

Definition mark_was_empty (st : state) (id : nat) (rw : bool) : result state :=
  t ← get_tg st id;
  if get2 (nr_queued (service_queue t)) rw =? 0
  then Ok (put_tg st id (set_flags (Z.lor (flags t) THROTL_TG_WAS_EMPTY) t))
  else Ok st.

Definition inc_nr_queued (st : state) (id : nat) (rw : bool) : result state :=
  t ← get_tg st id;
  let sq := service_queue t in
  Ok (put_tg st id
        (set_service_queue
           (set_nr_queued (set2 (nr_queued sq) rw (u32 (get2 (nr_queued sq) rw + 1))) sq)
           t)).

(** Add the bio to the service queue of the group using [qn]; if [qn] is
    not specified, [tg->qnode_on_self[]] is used. *)
Definition throtl_add_bio_tg (st : state) (bio_id : nat) (qn : option qn_ref)
    (id : nat) : result state :=
  b ← get_bio st bio_id;
  let rw := bio_data_dir b in
  let qn := default (QnRef id false rw) qn in
  st ← mark_was_empty st id rw;
  st ← throtl_qnode_add_bio st bio_id qn (SqTg id) rw;
  st ← inc_nr_queued st id rw;
  throtl_enqueue_tg st id.

Definition throtl_add_bio_fd_tg (st : state) (bio_id : nat) (fake_d : fd_ptr)
    (q : nat) : result state :=
  b ← get_bio st bio_id;
  let rw := bio_data_dir b in
  fd ← fd_deref fake_d;
  st ← mark_was_empty st (fd_tg fd) rw;
  match queue_to_fd_member fd q with
  | None => Fault BUG_ON
  | Some fd_member =>
      let id := fm_tg fd_member in
      st ← throtl_qnode_add_bio_withoutblkg st bio_id (QnRef id false rw)
             (SqTg id) rw;
      st ← inc_nr_queued st id rw;
      st ← inc_nr_queued st (fd_tg fd) rw;
      throtl_enqueue_tg st id
  end.

(** ** Looking up the group of a bio *)

Definition blkcg_root : nat := 0%nat.

(** A pointer result that may be an [ERR_PTR]. *)
Inductive ptr_or_err : Type :=
| PtrOk (id : nat)
| PtrErr (errno : Z).

Definition EINVAL : Z := 22.
Definition EBUSY : Z := 16.
Definition ENOMEM : Z := 12.

(** [blkg_lookup]: NULL when the queue is bypassing. *)
Definition blkg_lookup (st : state) (blkcg q : nat) : result (option nat) :=
  d ← get_td st q;
  if td_queue_bypass d then Ok None else Ok (blkg_tree st !! (blkcg, q)).

Definition throtl_lookup_tg (st : state) (q blkcg : nat) : result (option nat) :=
  d ← get_td st q;
  if decide (blkcg = blkcg_root) then Ok (td_root_tg d)
  else blkg_lookup st blkcg q.

Section Engine.

Variable HZ : Z.

(** [blkg_lookup_create] goes through the cgroup core (css references,
    allocation, policy initialisation); its outcome is taken as given. *)
Variable blkg_lookup_create : state -> nat -> nat -> ptr_or_err * state.

Definition throtl_lookup_create_tg (st : state) (q blkcg : nat)
  : result (option nat * state) :=
  d ← get_td st q;
  if decide (blkcg = blkcg_root) then Ok (td_root_tg d, st)
  else
    match blkg_lookup_create st blkcg q with
    | (PtrOk id, st) => Ok (Some id, st)
    | (PtrErr _, st) =>
        d ← get_td st q;
        if td_queue_dying d then Ok (None, st) else Ok (td_root_tg d, st)
    end.

(** [tg_may_dispatch] and [throtl_trim_slice] on a group of the arena. *)
Definition may_dispatch (st : state) (id bio_id : nat) : result (bool * Z * state) :=
  t ← get_tg st id;
  b ← get_bio st bio_id;
  '(ok, wait, t) ← tg_may_dispatch HZ (jiffies st) t b;
  Ok (ok, wait, put_tg st id t).

Definition trim_slice (st : state) (id : nat) (rw : dir) : result state :=
  t ← get_tg st id;
  t ← throtl_trim_slice HZ (jiffies st) t rw;
  Ok (put_tg st id t).

Fixpoint trim_members (st : state) (ms : list fake_device_member) (rw : dir)
  : result state :=
  match ms with
  | [] => Ok st
  | m :: ms => st ← trim_slice st (fm_tg m) rw; trim_members st ms rw
  end.

Definition throtl_trim_slice_recursively (st : state) (fd : fake_device)
    (rw : dir) : result state :=
  st ← trim_slice st (fd_tg fd) rw;
  trim_members st (fd_head fd) rw.

(** The trims that follow a charge: one per direction under which the
    group has rules. *)
Definition trim_after_charge (st : state) (id : nat) (rw : bool) : result state :=
  t ← get_tg st id;
  st ← (if get3 (has_rules t) (rw_dir rw) then trim_slice st id (rw_dir rw) else Ok st);
  t ← get_tg st id;
  if get3 (has_rules t) RANDW then trim_slice st id RANDW else Ok st.

(** [wait] is the caller's variable; it is overwritten when the list has a
    bio. *)
Definition peek_wait (st : state) (id : nat) (rw : bool) (wait : Z)
  : result (Z * state) :=
  o ← throtl_peek_queued st (SqTg id) rw;
  match o with
  | None => Ok (wait, st)
  | Some bio_id => '(_, w, st) ← may_dispatch st id bio_id; Ok (w, st)
  end.

Definition set_disptime_requeue (st : state) (id : nat) (disptime : Z)
  : result state :=
  st ← throtl_dequeue_tg st id;
  t ← get_tg st id;
  st ← throtl_enqueue_tg (put_tg st id (set_disptime disptime t)) id;
  t ← get_tg st id;
  Ok (put_tg st id
        (set_flags (Z.land (flags t) (Z.lnot THROTL_TG_WAS_EMPTY)) t)).

Definition tg_update_disptime (st : state) (id : nat) : result state :=
  '(read_wait, st) ← peek_wait st id false U64_MINUS1;
  '(write_wait, st) ← peek_wait st id true U64_MINUS1;
  let min_wait := Z.min read_wait write_wait in
  set_disptime_requeue st id (u64 (jiffies st + min_wait)).

(** The waits are declared once, before the loop over the members. *)
Fixpoint members_min_wait (st : state) (ms : list fake_device_member)
    (read_wait write_wait min_wait : Z) : result (Z * state) :=
  match ms with
  | [] => Ok (min_wait, st)
  | m :: ms =>
      '(read_wait, st) ← peek_wait st (fm_tg m) false read_wait;
      '(write_wait, st) ← peek_wait st (fm_tg m) true write_wait;
      let min_wait := Z.min read_wait min_wait in
      let min_wait := Z.min write_wait min_wait in
      members_min_wait st ms read_wait write_wait min_wait
  end.

Fixpoint members_set_disptime (st : state) (ms : list fake_device_member)
    (disptime : Z) : result state :=
  match ms with
  | [] => Ok st
  | m :: ms =>
      st ← set_disptime_requeue st (fm_tg m) disptime;
      members_set_disptime st ms disptime
  end.

Definition tg_update_disptime_recursively (st : state) (fd : fake_device)
  : result state :=
  '(min_wait, st) ← members_min_wait st (fd_head fd)
                      U64_MINUS1 U64_MINUS1 U64_MINUS1;
  let disptime := u64 (jiffies st + min_wait) in
  h ← get_tg st (fd_tg fd);
  let st := put_tg st (fd_tg fd) (set_disptime disptime h) in
  h ← get_tg st (fd_tg fd);
  let st := put_tg st (fd_tg fd)
              (set_flags (Z.land (flags h) (Z.lnot THROTL_TG_WAS_EMPTY)) h) in
  members_set_disptime st (fd_head fd) disptime.

(** ** The bio entry point *)

Definition inc_td_nr_queued (st : state) (q : nat) (rw : bool) : result state :=
  d ← get_td st q;
  Ok (put_td st q
        (set_td_nr_queued
           (set2 (td_nr_queued d) rw (u32 (get2 (td_nr_queued d) rw + 1))) d)).

(** The loop of the lockless fast path: does no fake device of the chain
    that contains the queue have rules for [rw] or [RANDW]? *)
Fixpoint fds_without_limit (st : state) (chain : list fake_device) (rw : bool)
    (q : nat) (without_limit : bool) : result bool :=
  match chain with
  | [] => Ok without_limit
  | fd :: chain =>
      if queue_in_fake_d fd q then
        l1 ← fake_d_has_limit st fd (rw_dir rw) q;
        l2 ← (if l1 : bool then Ok true else fake_d_has_limit st fd RANDW q);
        fds_without_limit st chain rw q (if l1 || l2 then false else without_limit)
      else fds_without_limit st chain rw q without_limit
  end.

(** How the walk up the hierarchy is left. *)
Inductive climb_exit : Type :=
| ClimbQueue (tg : nat)                 (* break: out of limit, queue to tg *)
| ClimbFdCheck (qn : option qn_ref)     (* goto fake_device_check *)
| ClimbOut.                             (* goto out_unlock *)

Fixpoint climb (fuel : nat) (st : state) (bio_id : nat) (rw : bool)
    (blkcg : nat) (tg : nat) : result (climb_exit * state) :=
  match fuel with
  | O => Fault OUT_OF_FUEL
  | S fuel =>
      t ← get_tg st tg;
      (* throtl is FIFO - if bios are already queued, should queue *)
      if negb (get2 (nr_queued (service_queue t)) rw =? 0)
      then Ok (ClimbQueue tg, st)
      else
        '(ok, _, st) ← may_dispatch st tg bio_id;
        (* if above limits, break to queue *)
        if negb ok then Ok (ClimbQueue tg, st)
        else
          (* within limits, let's charge and dispatch directly *)
          st ← charge_bio st tg bio_id;
          st ← trim_after_charge st tg rw;
          t ← get_tg st tg;
          match sq_to_tg st (parent_sq (service_queue t)) with
          | Some parent => climb fuel st bio_id rw blkcg parent
          | None =>
              match fd_heads st !! blkcg with
              | Some (_ :: _) => Ok (ClimbFdCheck (Some (QnRef tg true rw)), st)
              | _ => Ok (ClimbOut, st)
              end
          end
  end.

(** After the bio was queued by the walk: charge it to every fake device of
    the chain that contains the queue and has rules for [rw]. *)
Fixpoint charge_fds (st : state) (chain : list fake_device) (bio_id : nat)
    (rw : bool) (q : nat) : result state :=
  match chain with
  | [] => Ok st
  | fd :: chain =>
      lim ← (if queue_in_fake_d fd q
             then fake_d_has_limit st fd (rw_dir rw) q else Ok false);
      st ← (if lim : bool then throtl_charge_bio_recursively st fd bio_id else Ok st);
      charge_fds st chain bio_id rw q
  end.

(** One round of the loop over the fake devices for a bio that passed the
    walk; [true] when the loop is left by [break]. *)
Definition fd_round (st : state) (fd : fake_device) (bio_id : nat) (rw : bool)
    (q : nat) : result (bool * state) :=
  st ← update_fd_queuenr st fd;
  lim ← fake_d_has_limit st fd (rw_dir rw) q;
  if lim : bool then
    h ← get_tg st (fd_tg fd);
    if negb (get2 (nr_queued (service_queue h)) rw =? 0) then Ok (true, st)
    else
      '(ok, _, st) ← may_dispatch st (fd_tg fd) bio_id;
      if negb ok then Ok (true, st)
      else
        st ← throtl_charge_bio_recursively st fd bio_id;
        h ← get_tg st (fd_tg fd);
        st ← (if get3 (has_rules h) (rw_dir rw)
              then throtl_trim_slice_recursively st fd (rw_dir rw) else Ok st);
        st ← (if get3 (has_rules h) RANDW
              then throtl_trim_slice_recursively st fd RANDW else Ok st);
        Ok (false, st)
  else Ok (false, st).

(** The loop from the node [fd]; the result is the fake device at which it
    was left by [break], or [None] when the chain ended. *)
Fixpoint fd_rounds (st : state) (fd : fake_device) (rest : list fake_device)
    (bio_id : nat) (rw : bool) (q : nat) : result (option fake_device * state) :=
  '(brk, st) ← fd_round st fd bio_id rw q;
  if brk : bool then Ok (Some fd, st)
  else
    match rest with
    | [] => Ok (None, st)
    | fd' :: rest => fd_rounds st fd' rest bio_id rw q
    end.

(** The label [out]. *)
Definition blk_throtl_bio_out (st : state) (bio_id : nat) (throttled : bool)
  : result (bool * state) :=
  if throttled then Ok (true, st)
  else
    b ← get_bio st bio_id;
    Ok (false,
        put_bio st bio_id (bio_set_rw b (Z.land (bi_rw b) (Z.lnot REQ_THROTTLED)))).

(** The label [fake_device_check]. *)
Definition fake_device_check (st : state) (q bio_id : nat) (rw : bool)
    (blkcg : nat) (qn : option qn_ref) (throttled : bool)
  : result (bool * state) :=
  let chain := default [] (fd_heads st !! blkcg) in
  if throttled then
    st ← charge_fds st chain bio_id rw q;
    blk_throtl_bio_out st bio_id throttled
  else
    fd ← fd_deref (FdAt chain);
    '(at_break, st) ← fd_rounds st fd (tail chain) bio_id rw q;
    match at_break with
    | None => blk_throtl_bio_out st bio_id throttled
    | Some fake_d =>
        st ← inc_td_nr_queued st q rw;
        fd_member ← deref (queue_to_fd_member fake_d q);
        st ← throtl_add_bio_tg st bio_id qn (fm_tg fd_member);
        st ← tg_update_disptime_recursively st fake_d;
        t ← get_tg st (fm_tg fd_member);
        '(_, st) ← throtl_schedule_next_dispatch st (parent_sq (service_queue t)) true;
        blk_throtl_bio_out st bio_id true
    end.

(** The statements under the comment [out-of-limit, queue to @tg]. *)
Definition queue_out_of_limit (st : state) (q bio_id : nat) (rw : bool)
    (tg : nat) (fake_d : fd_ptr) : result state :=
  t ← get_tg st tg;
  tdq ← deref (td t);
  st ← inc_td_nr_queued st tdq rw;
  st ← throtl_add_bio_fd_tg st bio_id fake_d q;
  t ← get_tg st tg;
  if negb (Z.land (flags t) THROTL_TG_WAS_EMPTY =? 0) then
    st ← tg_update_disptime st tg;
    t ← get_tg st tg;
    '(_, st) ← throtl_schedule_next_dispatch st (parent_sq (service_queue t)) true;
    Ok st
  else Ok st.

(** [blk_throtl_bio(q, bio)]: [true] when the bio was throttled. *)
Definition blk_throtl_bio (st : state) (q bio_id : nat) : result (bool * state) :=
  b ← get_bio st bio_id;
  let rw := bio_data_dir b in
  (* see throtl_charge_bio() *)
  if bio_throttled b then blk_throtl_bio_out st bio_id false
  else
    let blkcg := bi_blkcg b in
    tg ← throtl_lookup_tg st q blkcg;
    (* [None]: goto out_unlock_rcu; else the value of the local [fake_d] *)
    fast ←
      match tg with
      | Some id =>
          t ← get_tg st id;
          if negb (get3 (has_rules t) (rw_dir rw)) && negb (get3 (has_rules t) RANDW)
          then
            without_limit ←
              fds_without_limit st (default [] (fd_heads st !! blkcg)) rw q true;
            if without_limit : bool then Ok None else Ok (Some (FdAt []))
          else Ok (Some FdUninit)
      | None => Ok (Some FdUninit)
      end;
    match fast with
    | None => blk_throtl_bio_out st bio_id false
    | Some fake_d =>
        '(tg, st) ← throtl_lookup_create_tg st q blkcg;
        match tg with
        | None => fake_device_check st q bio_id rw blkcg None false
        | Some id =>
            '(exit, st) ← climb (S (size (tgs st))) st bio_id rw blkcg id;
            match exit with
            | ClimbQueue tg =>
                st ← queue_out_of_limit st q bio_id rw tg fake_d;
                fake_device_check st q bio_id rw blkcg None true
            | ClimbFdCheck qn => fake_device_check st q bio_id rw blkcg qn false
            | ClimbOut => blk_throtl_bio_out st bio_id false
            end
        end
    end.

End Engine.

(** ** has_rules *)

Definition tg_limited (t : throtl_grp) (rw : dir) : bool :=
  negb (bps_unlimited t rw) || negb (iops_unlimited t rw).

(** Set has_rules[] if the group or any of its parents have limits
    configured.  This does not walk up to the top of the hierarchy: the
    has_rules[] of the parent is taken to be correct. *)
Definition tg_update_has_rules (st : state) (id : nat) : result state :=
  t ← get_tg st id;
  let rule rw :=
    match sq_to_tg st (parent_sq (service_queue t)) with
    | Some p => p_tg ← get_tg st p; Ok (get3 (has_rules p_tg) rw || tg_limited t rw)
    | None => Ok (tg_limited t rw)
    end in
  r0 ← rule READ; r1 ← rule WRITE; r2 ← rule RANDW;
  Ok (put_tg st id (set_has_rules (Arr3 r0 r1 r2) t)).

(** The body of the loop over the members in
    [tg_fd_update_has_rules_recursively]: copy the limits of the header and
    set has_rules[] from them. *)
Definition fd_member_update_has_rules (st : state) (header : nat)
    (m : fake_device_member) : result state :=
  fd_tg ← get_tg st header;
  t ← get_tg st (fm_tg m);
  let t := set_bps (bps fd_tg) t in
  let t := set_iops (iops fd_tg) t in
  Ok (put_tg st (fm_tg m)
        (set_has_rules
           (Arr3 (tg_limited t READ) (tg_limited t WRITE) (tg_limited t RANDW)) t)).

Fixpoint fd_members_update_has_rules (st : state) (header : nat)
    (ms : list fake_device_member) : result state :=
  match ms with
  | [] => Ok st
  | m :: ms =>
      st ← fd_member_update_has_rules st header m;
      fd_members_update_has_rules st header ms
  end.

Definition tg_fd_update_has_rules_recursively (st : state) (fd : fake_device)
  : result state :=
  t ← get_tg st (fd_tg fd);
  let st := put_tg st (fd_tg fd)
              (set_has_rules
                 (Arr3 (tg_limited t READ) (tg_limited t WRITE) (tg_limited t RANDW))
                 t) in
  fd_members_update_has_rules st (fd_tg fd) (fd_head fd).

(** The walk [blkg_for_each_descendant_pre(blkg, pos_css, ctx.blkg)
    tg_update_has_rules(blkg_to_tg(blkg))] over the groups in the order the
    iterator yields them. *)
Fixpoint update_has_rules_walk (st : state) (order : list nat) : result state :=
  match order with
  | [] => Ok st
  | id :: order => st ← tg_update_has_rules st id; update_has_rules_walk st order
  end.

(** ** Configuration files *)

(** What [of_cft(of)->private] addresses in the group. *)
Inductive conf_field : Type :=
| FieldBps (rw : dir)
| FieldIops (rw : dir).

Inductive cfile : Type :=
| throttle_read_bps_device
| throttle_write_bps_device
| throttle_rw_bps_device
| throttle_read_iops_device
| throttle_write_iops_device
| throttle_rw_iops_device
| throttle_hybrid_read_bps_device
| throttle_hybrid_write_bps_device.

Definition cft_private (f : cfile) : conf_field :=
  match f with
  | throttle_read_bps_device => FieldBps READ
  | throttle_write_bps_device => FieldBps WRITE
  | throttle_rw_bps_device => FieldBps RANDW
  | throttle_read_iops_device => FieldIops READ
  | throttle_write_iops_device => FieldIops WRITE
  | throttle_rw_iops_device => FieldIops RANDW
  | throttle_hybrid_read_bps_device => FieldBps READ
  | throttle_hybrid_write_bps_device => FieldBps WRITE
  end.

(** The store [*(u64 * )((void * )tg + private) = v], respectively through an
    [unsigned int] pointer.  The table of files pairs the bps fields with the
    u64 writers and the iops fields with the unsigned int writers; of the
    other pairings only the part that lands in the addressed element is
    kept. *)
Definition write_conf_field (t : throtl_grp) (off : conf_field) (is_u64 : bool)
    (v : Z) : throtl_grp :=
  match off with
  | FieldBps rw =>
      set_bps (set3 (bps t) rw
                 (if is_u64 then u64 v
                  else get3 (bps t) rw - u32 (get3 (bps t) rw) + u32 v)) t
  | FieldIops rw => set_iops (set3 (iops t) rw (u32 v)) t
  end.

(** [MKDEV(major, minor)] of linux/kdev_t.h, [(major << 20) | minor], on the
    two [unsigned int] variables that [sscanf] has filled: the shift and
    the result are taken in 32 bits, so a major number of 4096 or more
    loses its high bits. *)
Definition MKDEV (major minor : Z) : Z :=
  Z.lor (u32 (Z.shiftl (u32 major) 20)) (u32 minor).

Definition ERESTARTNOINTR : Z := 513.

Record blkg_conf_ctx : Type := ConfCtx {
  ctx_disk : nat;        (* the request queue of the disk *)
  ctx_tg : nat;          (* blkg_to_tg(ctx.blkg) *)
  ctx_v : Z
}.

Record blkg_fd_conf_ctx : Type := FdConfCtx {
  fd_ctx_disk : nat;
  fd_ctx_fake_d : Z;     (* the fake device, by its id in the chain *)
  fd_ctx_v : Z
}.

(** A group as [kzalloc] returns it.  A zeroed [list_head] is not an empty
    list: [list_empty] is false on it until it is initialised. *)
Definition tg_zeroed : throtl_grp :=
  let qn := Qnode true [] in
  Tg (Sq None (Arr2 [] []) (Arr2 0 0) [] None 0 0 None)
     (Arr2 qn qn) (Arr2 qn qn) None 0 (Arr3 false false false)
     (Arr3 0 0 0) (Arr3 0 0 0) (Arr3 0 0 0) (Arr3 0 0 0) (Arr3 0 0 0) (Arr3 0 0 0)
     0 false None None.

Definition set_fake_d (v : option (nat * Z)) (t : throtl_grp) :=
  Tg (service_queue t) (qnode_on_self t) (qnode_on_parent t) (td t) (flags t)
     (has_rules t) (bps t) (iops t) (bytes_disp t) (io_disp t) (slice_start t)
     (slice_end t) (disptime t) (fake t) v (blkg_refcnt t).

Definition tg_init (t : throtl_grp) : throtl_grp :=
  let t := set_fake true t in
  let t := set_bps (Arr3 U64_MINUS1 U64_MINUS1 U64_MINUS1) t in
  let t := set_iops (Arr3 U32_MINUS1 U32_MINUS1 U32_MINUS1) t in
  let t := set_has_rules (Arr3 false false false) t in
  let t := set_bytes_disp (Arr3 0 0 0) t in
  set_io_disp (Arr3 0 0 0) t.

(** Allocation of a group: a fresh identifier. *)
Definition alloc_tg (st : state) (t : throtl_grp) : nat * state :=
  let id := fresh (dom (tgs st)) in (id, put_tg st id t).

Definition fd_lookup (chain : list fake_device) (f_id : Z) : option fake_device :=
  find (λ fd, bool_decide (fd_id fd = f_id)) chain.

(** [fd_lookup_create]; allocation is taken to succeed. *)
Definition fd_lookup_create (st : state) (blkcg : nat) (f_id : Z) : state :=
  let chain := default [] (fd_heads st !! blkcg) in
  match fd_lookup chain f_id with
  | Some _ => st
  | None =>
      let '(id, st) := alloc_tg st (tg_init tg_zeroed) in
      set_fd_heads (<[blkcg := FakeDevice f_id id [] :: chain]> (fd_heads st)) st
  end.

(** Replace the first fake device of the chain with identifier [f_id]. *)
Fixpoint fd_replace (chain : list fake_device) (f_id : Z) (fd' : fake_device)
  : list fake_device :=
  match chain with
  | [] => []
  | fd :: chain =>
      if bool_decide (fd_id fd = f_id) then fd' :: chain
      else fd :: fd_replace chain f_id fd'
  end.

(** [fd_member_lookup_create]; allocation is taken to succeed. *)
Definition fd_member_lookup_create (st : state) (blkcg : nat) (f_id : Z)
    (q : nat) : result state :=
  let chain := default [] (fd_heads st !! blkcg) in
  fd ← deref (fd_lookup chain f_id);
  if queue_in_fake_d fd q then Ok st
  else
    let '(id, st) :=
      alloc_tg st (tg_init (set_fake_d (Some (blkcg, f_id)) tg_zeroed)) in
    let fd' := FakeDevice (fd_id fd) (fd_tg fd) (FdMember q id :: fd_head fd) in
    Ok (set_fd_heads (<[blkcg := fd_replace chain f_id fd']> (fd_heads st)) st).

Definition throtl_qnode_init : throtl_qnode := Qnode false [].

Definition throtl_service_queue_init (sq : throtl_service_queue)
    (parent : option sq_ref) : throtl_service_queue :=
  let sq := set_queued (Arr2 [] []) sq in
  let sq := set_pending_tree [] sq in
  let sq := set_parent_sq parent sq in
  set_pending_timer None sq.

Definition qnodes_init (t : throtl_grp) : throtl_grp :=
  let t := set_qnode_on_self (Arr2 throtl_qnode_init throtl_qnode_init) t in
  set_qnode_on_parent (Arr2 throtl_qnode_init throtl_qnode_init) t.

Fixpoint fd_throtl_init_members (st : state) (ms : list fake_device_member)
  : result state :=
  match ms with
  | [] => Ok st
  | m :: ms =>
      t ← get_tg st (fm_tg m);
      let t := set_service_queue
                 (throtl_service_queue_init (service_queue t)
                    (Some (SqTd (fm_queue m)))) t in
      fd_throtl_init_members (put_tg st (fm_tg m) (qnodes_init t)) ms
  end.

Fixpoint fd_throtl_init_chain (st : state) (chain : list fake_device)
  : result state :=
  match chain with
  | [] => Ok st
  | fd :: chain =>
      t ← get_tg st (fd_tg fd);
      st ← fd_throtl_init_members (put_tg st (fd_tg fd) (qnodes_init t)) (fd_head fd);
      fd_throtl_init_chain st chain
  end.

Definition fd_throtl_init (st : state) (blkcg : nat) : result state :=
  fd_throtl_init_chain st (default [] (fd_heads st !! blkcg)).

Section Config.

Variable HZ : Z.
Variable blkg_lookup_create : state -> nat -> nat -> ptr_or_err * state.

(** Outside the sources: [sscanf] (the converted values, in order; its
    return value is their number), [get_gendisk] (the request queue of the
    disk and the partition number), whether the throttling policy is
    enabled on a queue, and the groups that
    [blkg_for_each_descendant_pre] yields from a group. *)
Variable sscanf : string -> string -> list Z.
Variable get_gendisk : Z -> option (nat * Z).
Variable blkcg_policy_enabled : state -> nat -> bool.
Variable blkg_descendants_pre : state -> nat -> list nat.

(** Parse and prepare for a per-blkg config update: the return value and,
    when it is 0, the filled context. *)
Definition blkg_conf_prep (st : state) (blkcg : nat) (input : string)
  : Z * option blkg_conf_ctx * state :=
  match sscanf input "%u:%u %llu" with
  | [major; minor; v] =>
      match get_gendisk (MKDEV major minor) with
      | None => (- EINVAL, None, st)
      | Some (disk, part) =>
          if negb (part =? 0) then (- EINVAL, None, st)
          else
            let '(blkg, st) :=
              if blkcg_policy_enabled st disk
              then blkg_lookup_create st blkcg disk
              else (PtrErr (- EINVAL), st) in
            match blkg with
            | PtrErr ret =>
                (if ret =? - EBUSY then - ERESTARTNOINTR else ret, None, st)
            | PtrOk id => (0, Some (ConfCtx disk id v), st)
            end
      end
  | _ => (- EINVAL, None, st)
  end.

(** Parse and prepare for a hybrid-device config update. *)
Definition blkg_fd_conf_prep (st : state) (blkcg : nat) (input : string)
  : result (Z * option blkg_fd_conf_ctx * state) :=
  match sscanf input "%u:%u %u %llu" with
  | [major; minor; f_id; v] =>
      match get_gendisk (MKDEV major minor) with
      | None => Ok (- EINVAL, None, st)
      | Some (disk, part) =>
          let st := fd_lookup_create st blkcg f_id in
          st ← fd_member_lookup_create st blkcg f_id disk;
          Ok (0, Some (FdConfCtx disk f_id v), st)
      end
  | _ => Ok (- EINVAL, None, st)
  end.

Definition start_new_slice (st : state) (id : nat) (rw : bool) : result state :=
  t ← get_tg st id;
  Ok (put_tg st id (throtl_start_new_slice HZ (jiffies st) t rw)).

Definition tg_set_conf (st : state) (blkcg : nat) (off : conf_field)
    (buf : string) (nbytes : Z) (is_u64 : bool) : result (Z * state) :=
  match blkg_conf_prep st blkcg buf with
  | (ret, None, st) => Ok (ret, st)
  | (_, Some ctx, st) =>
      let tg := ctx_tg ctx in
      let v := if ctx_v ctx =? 0 then U64_MINUS1 else ctx_v ctx in
      t ← get_tg st tg;
      let st := put_tg st tg (write_conf_field t off is_u64 v) in
      st ← update_has_rules_walk st (blkg_descendants_pre st tg);
      st ← start_new_slice st tg (to_bool READ);
      st ← start_new_slice st tg (to_bool WRITE);
      st ← start_new_slice st tg (to_bool RANDW);
      t ← get_tg st tg;
      st ← (if negb (Z.land (flags t) THROTL_TG_PENDING =? 0) then
              st ← tg_update_disptime HZ st tg;
              t ← get_tg st tg;
              '(_, st) ← throtl_schedule_next_dispatch st
                            (parent_sq (service_queue t)) true;
              Ok st
            else Ok st);
      Ok (nbytes, st)
  end.

Fixpoint start_new_slice_members (st : state) (ms : list fake_device_member)
    (rw : bool) : result state :=
  match ms with
  | [] => Ok st
  | m :: ms => st ← start_new_slice st (fm_tg m) rw; start_new_slice_members st ms rw
  end.

Definition throtl_start_new_slice_recursively (st : state) (fd : fake_device)
    (rw : bool) : result state :=
  st ← start_new_slice st (fd_tg fd) rw;
  start_new_slice_members st (fd_head fd) rw.

Definition tg_fd_set_conf (st : state) (blkcg : nat) (off : conf_field)
    (buf : string) (nbytes : Z) (is_u64 : bool) : result (Z * state) :=
  r ← blkg_fd_conf_prep st blkcg buf;
  match r with
  | (ret, None, st) => Ok (ret, st)
  | (_, Some fd_ctx, st) =>
      let v := if fd_ctx_v fd_ctx =? 0 then U64_MINUS1 else fd_ctx_v fd_ctx in
      fake_d ← deref (fd_lookup (default [] (fd_heads st !! blkcg))
                                (fd_ctx_fake_d fd_ctx));
      t ← get_tg st (fd_tg fake_d);
      let st := put_tg st (fd_tg fake_d) (write_conf_field t off is_u64 v) in
      st ← tg_fd_update_has_rules_recursively st fake_d;
      st ← fd_throtl_init st blkcg;
      st ← throtl_start_new_slice_recursively st fake_d (to_bool READ);
      st ← throtl_start_new_slice_recursively st fake_d (to_bool WRITE);
      st ← throtl_start_new_slice_recursively st fake_d (to_bool RANDW);
      t ← get_tg st (fd_tg fake_d);
      st ← (if negb (Z.land (flags t) THROTL_TG_PENDING =? 0)
            then tg_update_disptime_recursively HZ st fake_d else Ok st);
      Ok (nbytes, st)
  end.

(** The [write] method of each file of [throtl_files]. *)
Definition cft_write (st : state) (blkcg : nat) (f : cfile) (buf : string)
    (nbytes : Z) : result (Z * state) :=
  match f with
  | throttle_read_bps_device | throttle_write_bps_device
  | throttle_rw_bps_device =>
      tg_set_conf st blkcg (cft_private f) buf nbytes true
  | throttle_read_iops_device | throttle_write_iops_device
  | throttle_rw_iops_device =>
      tg_set_conf st blkcg (cft_private f) buf nbytes false
  | throttle_hybrid_read_bps_device | throttle_hybrid_write_bps_device =>
      tg_fd_set_conf st blkcg (cft_private f) buf nbytes true
  end.

End Config.

(** [throtl_pd_init] on the zeroed policy data of a new blkg, whose
    reference count [blkg_alloc] set to 1.  [parent] is the service queue
    the source selects: that of the parent group on the default hierarchy,
    that of the throttle data otherwise. *)
Definition throtl_pd_init (parent : sq_ref) (q : nat) : throtl_grp :=
  let t := set_blkg_refcnt (Some 1) tg_zeroed in
  let t := set_service_queue
             (throtl_service_queue_init (service_queue t) (Some parent)) t in
  let t := qnodes_init t in
  let t := set_td (Some q) t in
  let t := set_bps (Arr3 U64_MINUS1 U64_MINUS1 U64_MINUS1) t in
  let t := set_iops (Arr3 U32_MINUS1 U32_MINUS1 U32_MINUS1) t in
  set_fake false t.

(** * Statements of the specification, example states and invariants *)

(** ** throtl_trim_slice *)

(** The statement of the specification for one group and direction: with a
    current slice and [n > 0] completed slice widths the counters lose
    [limit * S * n / HZ], saturating at 0, and [slice_start] advances by
    [n * S]; otherwise counters and [slice_start] stay. *)
Definition trim_slice_as_specified (HZ now : Z) (tg : throtl_grp) (d : dir) : Prop :=
  let S := throtl_slice HZ in
  let n := (now - get3 (slice_start tg) d) / S in
  exists tg', throtl_trim_slice HZ now tg d = Ok tg' /\
    if time_in_range now (get3 (slice_start tg) d) (get3 (slice_end tg) d)
       && (0 <? n)
    then get3 (bytes_disp tg') d
           = Z.max 0 (get3 (bytes_disp tg) d - get3 (bps tg) d * S * n / HZ)
         /\ get3 (io_disp tg') d
           = Z.max 0 (get3 (io_disp tg) d - get3 (iops tg) d * S * n / HZ)
         /\ get3 (slice_start tg') d = get3 (slice_start tg) d + n * S
    else bytes_disp tg' = bytes_disp tg /\ io_disp tg' = io_disp tg
         /\ slice_start tg' = slice_start tg.

(** A group with small limits, one slice width into its READ slice. *)
Definition tg_small_limits : throtl_grp :=
  let t := throtl_pd_init (SqTd 1) 1 in
  let t := set_bps (Arr3 5 U64_MINUS1 U64_MINUS1) t in
  let t := set_iops (Arr3 5 U32_MINUS1 U32_MINUS1) t in
  let t := set_bytes_disp (Arr3 3 0 0) t in
  let t := set_io_disp (Arr3 2 0 0) t in
  set_slice_end (Arr3 200 0 0) t.

(** A group with bps = 1000 and iops = 100 for READ, two and a half slice
    widths into its READ slice. *)
Definition tg_mid_slice : throtl_grp :=
  let t := throtl_pd_init (SqTd 1) 1 in
  let t := set_bps (Arr3 1000 U64_MINUS1 U64_MINUS1) t in
  let t := set_iops (Arr3 100 U32_MINUS1 U32_MINUS1) t in
  let t := set_bytes_disp (Arr3 500 0 0) t in
  let t := set_io_disp (Arr3 7 0 0) t in
  set_slice_end (Arr3 300 0 0) t.

(** The statement of the specification: with bps and iops both -1, a current
    slice and at least one full slice width elapsed, the trim resets both
    counters to 0. *)
Definition unlimited_trim_resets (HZ now : Z) (tg : throtl_grp) (d : dir) : Prop :=
  get3 (bps tg) d = U64_MINUS1 ->
  get3 (iops tg) d = U32_MINUS1 ->
  time_in_range now (get3 (slice_start tg) d) (get3 (slice_end tg) d) = true ->
  throtl_slice HZ <= now - get3 (slice_start tg) d ->
  exists tg', throtl_trim_slice HZ now tg d = Ok tg'
    /\ get3 (bytes_disp tg') d = 0 /\ get3 (io_disp tg') d = 0.

(** An unlimited group that has counted 500,000,000 READ requests, one
    slice width into its READ slice. *)
Definition tg_unlimited_busy : throtl_grp :=
  let t := throtl_pd_init (SqTd 1) 1 in
  let t := set_io_disp (Arr3 500000000 0 0) t in
  set_slice_end (Arr3 200 0 0) t.

(** An unlimited group with a moderate backlog, one and a half slice widths
    into its WRITE slice. *)
Definition tg_unlimited_idle : throtl_grp :=
  let t := throtl_pd_init (SqTd 1) 1 in
  let t := set_bytes_disp (Arr3 0 1048576 0) t in
  let t := set_io_disp (Arr3 0 256 0) t in
  let t := set_slice_start (Arr3 0 1000 0) t in
  set_slice_end (Arr3 0 1200 0) t.

(** A group limited to 1,000,000 bytes per second for RANDW, one and a half
    slice widths into its RANDW slice; its WRITE slice was never started. *)
Definition tg_randw_current : throtl_grp :=
  let t := throtl_pd_init (SqTd 1) 1 in
  let t := set_bps (Arr3 U64_MINUS1 U64_MINUS1 1000000) t in
  let t := set_has_rules (Arr3 false false true) t in
  let t := set_bytes_disp (Arr3 0 0 250000) t in
  let t := set_slice_start (Arr3 0 0 1000) t in
  set_slice_end (Arr3 0 0 1200) t.

(** ** tg_may_dispatch *)

(** A group with bps[READ] = 1 MiB/s and iops[READ] = 1 at the start of a
    READ slice in which it has used up both budgets, and a 4 KiB read. *)
Definition tg_both_exhausted : throtl_grp :=
  let t := throtl_pd_init (SqTd 1) 1 in
  let t := set_bps (Arr3 1048576 U64_MINUS1 U64_MINUS1) t in
  let t := set_iops (Arr3 1 U32_MINUS1 U32_MINUS1) t in
  let t := set_has_rules (Arr3 true false false) t in
  let t := set_bytes_disp (Arr3 104857 0 0) t in
  let t := set_io_disp (Arr3 1 0 0) t in
  let t := set_slice_start (Arr3 5000 0 0) t in
  set_slice_end (Arr3 5100 0 0) t.

(** A 4 KiB read of blkcg 1 on queue 1, not yet throttled. *)
Definition bio_read_4k : bio := Bio 0 4096 1 1.

(** ** Fake devices and throttle data *)

(** A fake-device group as [kzalloc], [tg_init] and [fd_throtl_init] leave
    it. *)
Definition fd_header_tg : throtl_grp := qnodes_init (tg_init tg_zeroed).

(** A member group of fake device [f_id] of [blkcg] for the queue [q], as
    [fd_member_lookup_create] and [fd_throtl_init] leave it. *)
Definition fd_member_tg (blkcg : nat) (f_id : Z) (q : nat) : throtl_grp :=
  let t := tg_init (set_fake_d (Some (blkcg, f_id)) tg_zeroed) in
  qnodes_init
    (set_service_queue
       (throtl_service_queue_init (service_queue t) (Some (SqTd q))) t).

(** The group with [nr_queued] of its service queue set. *)
Definition with_nr_queued (r w : Z) (t : throtl_grp) : throtl_grp :=
  set_service_queue (set_nr_queued (Arr2 r w) (service_queue t)) t.

(** The throttle data of a queue as [blk_throtl_init] leaves it, with the
    group of the root blkg. *)
Definition td_init (root : nat) : throtl_data :=
  Td (throtl_service_queue_init (service_queue tg_zeroed) None)
     (Arr2 0 0) (Some root) false false.

(** Fake device 7 of blkcg 1 with the member queue 1; the member has one
    READ bio queued and no WRITE bio, the header records 1 and 3. *)
Definition fd7 : fake_device := FakeDevice 7 10 [FdMember 1 11].

(** An arena with the groups of [fd7] only. *)
Definition st_fd_queued : state :=
  State 5000
    {[ 10%nat := with_nr_queued 1 3 fd_header_tg;
       11%nat := with_nr_queued 1 0 (fd_member_tg 1 7 1) ]}
    {[ 1%nat := td_init 0 ]} ∅ {[ 1%nat := [fd7] ]} ∅.

(** Fake device 7 of blkcg 1 as the code builds it: the header counts
    nothing, the member for queue 1 has one READ bio queued. *)
Definition st_fd_member_queued : state :=
  State 5000
    {[ 10%nat := fd_header_tg;
       11%nat := with_nr_queued 1 0 (fd_member_tg 1 7 1) ]}
    {[ 1%nat := td_init 0 ]} ∅ {[ 1%nat := [fd7] ]} ∅.

(** The sum of [nr_queued[rw]] over the member groups of a fake device. *)
Definition members_nr_queued (st : state) (ms : list fake_device_member)
    (rw : bool) : Z :=
  foldr (λ m acc,
           match tgs st !! fm_tg m with
           | Some t => get2 (nr_queued (service_queue t)) rw + acc
           | None => acc
           end) 0 ms.

(** The statement of the specification for one direction: the header's
    count becomes the sum over the members when that sum is not above the
    stored count, and stays as it is otherwise. *)
Definition queuenr_as_specified (st st' : state) (fd : fake_device) (rw : bool)
  : Prop :=
  exists h h', tgs st !! fd_tg fd = Some h /\ tgs st' !! fd_tg fd = Some h'
    /\ get2 (nr_queued (service_queue h')) rw
       = (if members_nr_queued st (fd_head fd) rw
               <=? get2 (nr_queued (service_queue h)) rw
          then members_nr_queued st (fd_head fd) rw
          else get2 (nr_queued (service_queue h)) rw).

(** The member groups exist and their counts are not negative. *)
Definition members_counted (st : state) (ms : list fake_device_member) : Prop :=
  forall m, m ∈ ms ->
    exists t, tgs st !! fm_tg m = Some t
      /\ forall rw, 0 <= get2 (nr_queued (service_queue t)) rw.

(** The header group with its two counts replaced. *)
Definition with_counts (c : arr2 Z) (h : throtl_grp) : throtl_grp :=
  set_service_queue (set_nr_queued c (service_queue h)) h.

(** ** Well-formed fake devices *)

(** The group is the header group of a fake device of some blkcg. *)
Definition is_header (st : state) (id : nat) : Prop :=
  exists blkcg chain fd,
    fd_heads st !! blkcg = Some chain /\ fd ∈ chain /\ fd_tg fd = id.

(** The group counts no queued bio. *)
Definition idle (t : throtl_grp) : Prop :=
  nr_queued (service_queue t) = Arr2 0 0.

(** The fake devices of an arena as the configuration files build them:
    the header group of every fake device counts no queued bio, no member
    group is a header group, and all these groups are allocated. *)
Record fd_wf (st : state) : Prop := FdWf {
  wf_idle : forall id h, is_header st id -> tgs st !! id = Some h -> idle h;
  wf_apart : forall blkcg chain fd m,
      fd_heads st !! blkcg = Some chain -> fd ∈ chain -> m ∈ fd_head fd ->
      ~ is_header st (fm_tg m);
  wf_alloc : forall blkcg chain fd,
      fd_heads st !! blkcg = Some chain -> fd ∈ chain ->
      is_Some (tgs st !! fd_tg fd)
      /\ forall m, m ∈ fd_head fd -> is_Some (tgs st !! fm_tg m)
}.

(** A step that leaves the fake devices as they are, frees no group and
    raises the count of no idle header group. *)
Definition keeps (st st' : state) : Prop :=
  fd_heads st' = fd_heads st
  /\ (forall id, is_Some (tgs st !! id) -> is_Some (tgs st' !! id))
  /\ forall id h h', is_header st id -> tgs st !! id = Some h ->
       tgs st' !! id = Some h' -> idle h -> idle h'.

(** What is assumed of [blkg_lookup_create]: it leaves the fake devices
    alone and does not change the queue counts of the groups that exist. *)
Definition lookup_create_frame
    (blkg_lookup_create : state -> nat -> nat -> ptr_or_err * state) : Prop :=
  forall st blkcg q,
    let st' := snd (blkg_lookup_create st blkcg q) in
    fd_heads st' = fd_heads st
    /\ forall id t, tgs st !! id = Some t ->
         exists t', tgs st' !! id = Some t'
           /\ nr_queued (service_queue t') = nr_queued (service_queue t).

(** Queue 1 with the root group 0 and the unlimited group 5 of blkcg 1.
    The blkcg has the fake device 7 (header group 10, member group 11 for
    queue 1), limited to 1024 bytes per second for READ; bio 0 is a 4 KiB
    read of blkcg 1. *)
Definition st_fd_over_limit : state :=
  let h := set_bps (Arr3 1024 U64_MINUS1 U64_MINUS1) fd_header_tg in
  let h := set_has_rules (Arr3 true false false) h in
  State 5000
    {[ 0%nat := throtl_pd_init (SqTd 1) 1; 5%nat := throtl_pd_init (SqTd 1) 1;
       10%nat := h; 11%nat := fd_member_tg 1 7 1 ]}
    {[ 1%nat := td_init 0 ]} {[ 0%nat := bio_read_4k ]} {[ 1%nat := [fd7] ]}
    {[ (1%nat, 1%nat) := 5%nat ]}.

(** ** throtl_schedule_next_dispatch *)

(** The statement of the specification: with pending children the timer is
    armed at [first_pending_disptime], and [done] is returned iff [force] is
    set or that time is in the future. *)
Definition schedule_next_dispatch_as_specified (st : state) (r : sq_ref)
    (force : bool) : Prop :=
  forall s, get_sq st r = Ok s -> nr_pending s <> 0 ->
  exists done st' s',
    throtl_schedule_next_dispatch st (Some r) force = Ok (done, st')
    /\ get_sq st' r = Ok s'
    /\ pending_timer s' = Some (first_pending_disptime s')
    /\ (done = true <->
        force = true
        \/ time_after (first_pending_disptime s') (jiffies st) = true).

(** The root service queue of queue 1 with one pending group whose dispatch
    time has passed; the timer is not armed. *)
Definition st_window_open : state :=
  let t := set_flags THROTL_TG_PENDING
             (set_disptime 4000 (throtl_pd_init (SqTd 1) 1)) in
  let sq := td_service_queue (td_init 5) in
  let sq := set_nr_pending 1 (set_first_pending (Some 5%nat)
              (set_pending_tree [5%nat] sq)) in
  State 5000 {[ 5%nat := t ]}
    {[ 1%nat := set_td_service_queue sq (td_init 5) ]} ∅ ∅ ∅.

(** The leftmost pending group as [throtl_rb_first] finds it. *)
Definition rb_first_of (s : throtl_service_queue) : option nat :=
  match first_pending s with
  | Some id => Some id
  | None => head (pending_tree s)
  end.

(** ** throtl_pop_queued *)

(** The statement of the specification for a non-empty list whose head
    qnode holds a bio: the bio is returned; a qnode that became empty is
    unlinked and the reference of its group is released, by the function or
    through [tg_to_put]; otherwise the qnode moves to the tail. *)
Definition pop_queued_as_specified (st : state) (sq : sq_ref) (rw : bool)
    (tg_to_put : bool) : Prop :=
  forall qn rest t b bl,
    get_queued st sq rw = Ok (qn :: rest) ->
    tgs st !! qr_tg qn = Some t ->
    qn_bios (get_qn t qn) = b :: bl ->
    exists out st' t',
      throtl_pop_queued st sq rw tg_to_put = Ok (Some b, out, st')
      /\ tgs st' !! qr_tg qn = Some t'
      /\ match bl with
         | [] =>
             get_queued st' sq rw = Ok rest
             /\ (out = Some (qr_tg qn)
                 \/ exists n, blkg_refcnt t = Some n /\ blkg_refcnt t' = Some (n - 1))
         | _ :: _ => get_queued st' sq rw = Ok (rest ++ [qn])
         end.

(** The root service queue of queue 1 holds the on-parent READ qnode of the
    member group 11 of fake device 7, with a single bio. *)
Definition st_fake_ready : state :=
  let t := fd_member_tg 1 7 1 in
  let t := set_qnode_on_parent (Arr2 (Qnode true [0%nat]) throtl_qnode_init) t in
  let sq := td_service_queue (td_init 5) in
  let sq := set_queued (Arr2 [QnRef 11 true false] []) sq in
  State 5000 {[ 10%nat := fd_header_tg; 11%nat := t ]}
    {[ 1%nat := set_td_service_queue sq (td_init 5) ]}
    {[ 0%nat := bio_read_4k ]} {[ 1%nat := [fd7] ]} ∅.

(** The root service queue of queue 1 holds the on-parent READ qnode of the
    group 5 of a blkg, with a single bio; the blkg is referenced once by
    its creator and once by the linked qnode. *)
Definition st_child_ready : state :=
  let t := set_blkg_refcnt (Some 2) (throtl_pd_init (SqTd 1) 1) in
  let t := set_qnode_on_parent (Arr2 (Qnode true [0%nat]) throtl_qnode_init) t in
  let sq := td_service_queue (td_init 5) in
  let sq := set_queued (Arr2 [QnRef 5 true false] []) sq in
  State 5000 {[ 5%nat := t ]}
    {[ 1%nat := set_td_service_queue sq (td_init 5) ]}
    {[ 0%nat := bio_read_4k ]} ∅ {[ (1%nat, 1%nat) := 5%nat ]}.

(** ** blk_throtl_bio *)

(** The bio after [bio->bi_rw &= ~REQ_THROTTLED]. *)
Definition bio_clear_throttled (b : bio) : bio :=
  bio_set_rw b (Z.land (bi_rw b) (Z.lnot REQ_THROTTLED)).

(** An outcome of [blkg_lookup_create] for the examples: the blkg exists, or
    its allocation fails. *)
Definition blkg_lookup_existing (st : state) (blkcg q : nat) : ptr_or_err * state :=
  match blkg_tree st !! (blkcg, q) with
  | Some id => (PtrOk id, st)
  | None => (PtrErr (- ENOMEM), st)
  end.

(** Queue 1 with the root group 0 and the group 5 of blkcg 1, which is
    limited to 1024 bytes per second for READ; bio 0 is a 4 KiB read of
    blkcg 1.  The blkcg has no fake device. *)
Definition st_over_limit (b : bio) : state :=
  let t := set_bps (Arr3 1024 U64_MINUS1 U64_MINUS1) (throtl_pd_init (SqTd 1) 1) in
  let t := set_has_rules (Arr3 true false false) t in
  State 5000 {[ 0%nat := throtl_pd_init (SqTd 1) 1; 5%nat := t ]}
    {[ 1%nat := td_init 0 ]} {[ 0%nat := b ]} ∅ {[ (1%nat, 1%nat) := 5%nat ]}.

(** ** Configuration writes *)

(** The files whose [write] method is [tg_fd_set_conf_u64]. *)
Definition cft_hybrid (f : cfile) : bool :=
  match f with
  | throttle_hybrid_read_bps_device | throttle_hybrid_write_bps_device => true
  | _ => false
  end.

(** The format each file passes to [sscanf] and the number of conversions
    it expects. *)
Definition cft_format (f : cfile) : string :=
  if cft_hybrid f then "%u:%u %u %llu"%string else "%u:%u %llu"%string.

Definition cft_conversions (f : cfile) : nat :=
  if cft_hybrid f then 4%nat else 3%nat.

(** Kernel services for the examples: the line "8:1 7 1048576" of a hybrid
    file and the line "8:1 1048576" of a per-device file convert in full,
    and device 8:1 is partition 1 of the disk with request queue 1. *)
Definition sscanf_example (input fmt : string) : list Z :=
  if String.eqb fmt "%u:%u %u %llu" then
    if String.eqb input "8:1 7 1048576" then [8; 1; 7; 1048576] else []
  else
    if String.eqb input "8:1 1048576" then [8; 1; 1048576] else [].

(** Device 8:1 is partition 1 of the disk with request queue 1. *)
Definition get_gendisk_example (dev : Z) : option (nat * Z) :=
  if dev =? MKDEV 8 1 then Some (1%nat, 1) else None.

(** Queue 1 with its root group and no other group. *)
Definition st_one_queue : state :=
  State 5000 {[ 0%nat := throtl_pd_init (SqTd 1) 1 ]} {[ 1%nat := td_init 0 ]} ∅ ∅ ∅.

(** The statement of the specification for one write: a line that fails to
    parse, or that names a partition, is answered with -EINVAL. *)
Definition conf_write_as_specified (HZ : Z)
    (blkg_lookup_create : state -> nat -> nat -> ptr_or_err * state)
    (sscanf : string -> string -> list Z) (get_gendisk : Z -> option (nat * Z))
    (blkcg_policy_enabled : state -> nat -> bool)
    (blkg_descendants_pre : state -> nat -> list nat)
    (st : state) (blkcg : nat) (f : cfile) (buf : string) (nbytes : Z) : Prop :=
  let write :=
    cft_write HZ blkg_lookup_create sscanf get_gendisk blkcg_policy_enabled
      blkg_descendants_pre st blkcg f buf nbytes in
  (length (sscanf buf (cft_format f)) <> cft_conversions f ->
   exists st', write = Ok (- EINVAL, st'))
  /\ (forall disk part,
        get_gendisk (MKDEV (nth 0 (sscanf buf (cft_format f)) 0)
                           (nth 1 (sscanf buf (cft_format f)) 0))
          = Some (disk, part) ->
        part <> 0 ->
        exists st', write = Ok (- EINVAL, st')).

(** ** has_rules *)

(** The parent group: [sq_to_tg(tg->service_queue.parent_sq)]. *)
Definition parent_tg (st : state) (t : throtl_grp) : option nat :=
  sq_to_tg st (parent_sq (service_queue t)).

(** The group [id] or some ancestor on its path to the device root has a
    finite bps or iops limit for [rw]. *)
Inductive limit_on_path (st : state) (rw : dir) : nat -> Prop :=
| limit_here id t :
    tgs st !! id = Some t -> tg_limited t rw = true -> limit_on_path st rw id
| limit_above id t p :
    tgs st !! id = Some t -> parent_tg st t = Some p ->
    limit_on_path st rw p -> limit_on_path st rw id.

(** has_rules[] of the group [id] says exactly that. *)
Definition has_rules_ok (st : state) (id : nat) : Prop :=
  forall t rw, tgs st !! id = Some t ->
    (get3 (has_rules t) rw = true <-> limit_on_path st rw id).

(** [x] is [id] or an ancestor of [id]. *)
Inductive below (st : state) (x : nat) : nat -> Prop :=
| below_refl : below st x x
| below_step id t p :
    tgs st !! id = Some t -> parent_tg st t = Some p -> below st x p ->
    below st x id.

(** Two arenas whose groups differ at most in has_rules[], limits and
    counters: the same groups exist and each has the same service queue. *)
Definition same_hierarchy (st st' : state) : Prop :=
  forall id,
    match tgs st !! id, tgs st' !! id with
    | Some t, Some t' => service_queue t' = service_queue t
    | None, None => True
    | _, _ => False
    end.

(** Queue 1 with the group 0 at the top and the group 5 below it; the READ
    limit of group 0 was just written and no has_rules[] is set yet. *)
Definition st_limit_written : state :=
  let t0 := set_bps (Arr3 1024 U64_MINUS1 U64_MINUS1) (throtl_pd_init (SqTd 1) 1) in
  State 5000 {[ 0%nat := t0; 5%nat := throtl_pd_init (SqTg 0) 1 ]}
    {[ 1%nat := td_init 0 ]} ∅ ∅ {[ (1%nat, 1%nat) := 5%nat ]}.

(** The state after the limit of fake device 7 was written to its header,
    before the recomputation. *)
Definition st_fd_limit_written : state :=
  let h := set_bps (Arr3 2097152 U64_MINUS1 U64_MINUS1) fd_header_tg in
  State 5000 {[ 10%nat := h; 11%nat := fd_member_tg 1 7 1 ]}
    {[ 1%nat := td_init 0 ]} ∅ {[ 1%nat := [fd7] ]} ∅.

(** The groups of a fake device: the header and the members. *)
Definition fd_tgs (fd : fake_device) : list nat :=
  fd_tg fd :: map fm_tg (fd_head fd).

(** [st] differs from [st0] at most in has_rules[]. *)
Definition walked (st0 st : state) : Prop :=
  forall id,
    match tgs st0 !! id, tgs st !! id with
    | Some t0, Some t => set_has_rules (has_rules t0) t = t0
    | None, None => True
    | _, _ => False
    end.

(** The invariant of the has_rules[] walk from [x] over the arena [st0]:
    the groups outside the subtree of [x] and the groups already visited
    carry the has_rules[] that the limits of [st0] prescribe. *)
Definition walk_inv (st0 : state) (x : nat) (st : state) (visited : list nat)
  : Prop :=
  walked st0 st
  /\ forall id t, tgs st !! id = Some t -> id ∈ visited \/ ~ below st0 x id ->
       forall rw, get3 (has_rules t) rw = true <-> limit_on_path st0 rw id.

(** The invariant of the loop over the members of [fd], started in [st]:
    the hierarchy is that of [st], the groups outside the fake device are
    untouched, and the visited groups have has_rules[] set from their own
    limits. *)
Definition fd_inv (st : state) (fd : fake_device) (st' : state)
    (visited : list nat) : Prop :=
  same_hierarchy st st'
  /\ (forall id, id ∉ fd_tgs fd -> tgs st' !! id = tgs st !! id)
  /\ (forall id t, id ∈ visited -> tgs st' !! id = Some t ->
        forall rw, get3 (has_rules t) rw = tg_limited t rw).

(** ** The RANDW window *)

(** What the token-bucket helpers, which take their direction as a [bool],
    can never reach: the limits, the flags, the queues and the RANDW entries
    of the slice bounds and of the counters. *)
Definition randw_untouched (tg tg' : throtl_grp) : Prop :=
  service_queue tg' = service_queue tg
  /\ qnode_on_self tg' = qnode_on_self tg
  /\ qnode_on_parent tg' = qnode_on_parent tg
  /\ td tg' = td tg /\ flags tg' = flags tg /\ has_rules tg' = has_rules tg
  /\ bps tg' = bps tg /\ iops tg' = iops tg /\ disptime tg' = disptime tg
  /\ fake tg' = fake tg /\ fake_d tg' = fake_d tg
  /\ blkg_refcnt tg' = blkg_refcnt tg
  /\ get3 (slice_start tg') RANDW = get3 (slice_start tg) RANDW
  /\ get3 (slice_end tg') RANDW = get3 (slice_end tg) RANDW
  /\ get3 (bytes_disp tg') RANDW = get3 (bytes_disp tg) RANDW
  /\ get3 (io_disp tg') RANDW = get3 (io_disp tg) RANDW.

(** A group limited to 1,000,000 bytes per second for READ and for RANDW,
    whose READ and WRITE slices have run out. *)
Definition tg_randw_limited : throtl_grp :=
  let t := throtl_pd_init (SqTd 1) 1 in
  let t := set_bps (Arr3 1000000 U64_MINUS1 1000000) t in
  let t := set_has_rules (Arr3 true false true) t in
  let t := set_slice_start (Arr3 1000 1000 0) t in
  set_slice_end (Arr3 1100 1100 0) t.

(** A group limited for RANDW only, as [throtl_pd_init] and a write to
    rw_bps_device leave its RANDW window (never started), in the middle of
    a WRITE slice. *)
Definition tg_randw_fresh : throtl_grp :=
  let t := throtl_pd_init (SqTd 1) 1 in
  let t := set_bps (Arr3 U64_MINUS1 U64_MINUS1 1000000) t in
  let t := set_has_rules (Arr3 false false true) t in
  let t := set_slice_start (Arr3 0 5000 0) t in
  set_slice_end (Arr3 0 5100 0) t.

(** * Properties *)

(** ** Arrays and machine integers *)

Lemma get3_set3_eq {A} (a : arr3 A) (d : dir) (v : A) : get3 (set3 a d v) d = v.
Proof. by destruct d. Qed.

Lemma get3_set3_ne {A} (a : arr3 A) (d d' : dir) (v : A) :
  d ≠ d' -> get3 (set3 a d v) d' = get3 a d'.
Proof. by destruct d, d'. Qed.

Lemma get2_set2_eq {A} (a : arr2 A) (rw : bool) (v : A) : get2 (set2 a rw v) rw = v.
Proof. by destruct rw. Qed.

Lemma get2_set2_ne {A} (a : arr2 A) (rw rw' : bool) (v : A) :
  rw ≠ rw' -> get2 (set2 a rw v) rw' = get2 a rw'.
Proof. by destruct rw, rw'. Qed.

Lemma to_bool_rw_dir (rw : bool) : to_bool (rw_dir rw) = rw.
Proof. by destruct rw. Qed.

Lemma u64_small (z : Z) : 0 <= z < 2 ^ 64 -> u64 z = z.
Proof. intros H. unfold u64. by apply Z.mod_small. Qed.

Lemma u32_small (z : Z) : 0 <= z < 2 ^ 32 -> u32 z = z.
Proof. intros H. unfold u32. by apply Z.mod_small. Qed.

Lemma u64_range (z : Z) : 0 <= u64 z < 2 ^ 64.
Proof. unfold u64. apply Z.mod_pos_bound. lia. Qed.

Lemma u32_range (z : Z) : 0 <= u32 z < 2 ^ 32.
Proof. unfold u32. apply Z.mod_pos_bound. lia. Qed.

(** ** throtl_trim_slice *)

(** C6, as stated, fails: with bps = iops = 5 and one completed slice width
    both trim amounts round to zero and the function returns before it
    advances [slice_start]. *)
Lemma trim_slice_zero_trim_keeps_slice_start :
  ~ trim_slice_as_specified 1000 100 tg_small_limits READ.
Proof.
  intros (tg' & Hrun & Hpost).
  vm_compute in Hrun. injection Hrun as <-.
  vm_compute in Hpost. destruct Hpost as (_ & _ & Hstart). discriminate.
Qed.

(** The run of [throtl_trim_slice] once its three early returns are
    passed. *)
Lemma throtl_trim_slice_trims (HZ now : Z) (tg : throtl_grp) (d : dir) :
  let S := throtl_slice HZ in
  let n := u64 (now - get3 (slice_start tg) d) / S in
  let bytes_trim := u64 (get3 (bps tg) d * S * n) / HZ in
  let io_trim := u64 (get3 (iops tg) d * S * n) / HZ in
  time_before (get3 (slice_end tg) d) (get3 (slice_start tg) d) = false ->
  throtl_slice_used now tg (to_bool d) = false ->
  n <> 0 ->
  (bytes_trim =? 0) && (io_trim =? 0) = false ->
  exists tg', throtl_trim_slice HZ now tg d = Ok tg'
    /\ get3 (bytes_disp tg') d
        = (if bytes_trim <=? get3 (bytes_disp tg) d
           then u64 (get3 (bytes_disp tg) d - bytes_trim) else 0)
    /\ get3 (io_disp tg') d
        = (if io_trim <=? get3 (io_disp tg) d
           then u32 (get3 (io_disp tg) d - io_trim) else 0)
    /\ get3 (slice_start tg') d = u64 (get3 (slice_start tg) d + n * S)
    /\ (forall d', d' <> d ->
          get3 (bytes_disp tg') d' = get3 (bytes_disp tg) d'
          /\ get3 (io_disp tg') d' = get3 (io_disp tg) d'
          /\ get3 (slice_start tg') d' = get3 (slice_start tg) d').
Proof.
  intros S n bytes_trim io_trim Hbug Hused Hn Hz.
  unfold throtl_trim_slice. rewrite Hbug, Hused. simpl.
  fold S. fold n. apply Z.eqb_neq in Hn. rewrite Hn.
  fold bytes_trim io_trim. rewrite Hz.
  eexists. split; [reflexivity|]. simpl.
  rewrite !get3_set3_eq. repeat split; by rewrite get3_set3_ne.
Qed.

Section TrimSlice.

Variables (HZ now : Z) (tg : throtl_grp) (rw : bool).

Let d := rw_dir rw.
Let S := throtl_slice HZ.
Let n := u64 (now - get3 (slice_start tg) d) / S.
Let bytes_trim := u64 (get3 (bps tg) d * S * n) / HZ.
Let io_trim := u64 (get3 (iops tg) d * S * n) / HZ.

Hypothesis HZ_pos : 0 < HZ.
Hypothesis bytes_disp_u64 : 0 <= get3 (bytes_disp tg) d < 2 ^ 64.
Hypothesis io_disp_u32 : 0 <= get3 (io_disp tg) d < 2 ^ 32.
Hypothesis no_bug :
  time_before (get3 (slice_end tg) d) (get3 (slice_start tg) d) = false.

Lemma bytes_trim_nonneg : 0 <= bytes_trim.
Proof.
  unfold bytes_trim. apply Z.div_pos; [|lia].
  apply u64_range.
Qed.

Lemma io_trim_nonneg : 0 <= io_trim.
Proof.
  unfold io_trim. apply Z.div_pos; [|lia].
  apply u64_range.
Qed.

(** C6, amended: the trim for READ and WRITE, with the arithmetic of the
    code (the products are taken modulo 2^64) and its guard on trim amounts
    that are both zero. *)
Theorem throtl_trim_slice_spec :
  exists tg', throtl_trim_slice HZ now tg d = Ok tg' /\
    if throtl_slice_used now tg rw || (n =? 0)
       || ((bytes_trim =? 0) && (io_trim =? 0))
    then bytes_disp tg' = bytes_disp tg /\ io_disp tg' = io_disp tg
         /\ slice_start tg' = slice_start tg
    else get3 (bytes_disp tg') d = Z.max 0 (get3 (bytes_disp tg) d - bytes_trim)
         /\ get3 (io_disp tg') d = Z.max 0 (get3 (io_disp tg) d - io_trim)
         /\ get3 (slice_start tg') d = u64 (get3 (slice_start tg) d + n * S)
         /\ (forall d', d' <> d ->
               get3 (bytes_disp tg') d' = get3 (bytes_disp tg) d'
               /\ get3 (io_disp tg') d' = get3 (io_disp tg) d'
               /\ get3 (slice_start tg') d' = get3 (slice_start tg) d').
Proof.
  pose proof bytes_trim_nonneg as Hb. pose proof io_trim_nonneg as Hi.
  assert (Hd : to_bool d = rw) by apply to_bool_rw_dir.
  destruct (throtl_slice_used now tg rw) eqn:Hused; simpl.
  { unfold throtl_trim_slice. fold d. rewrite no_bug, Hd, Hused.
    eexists. split; [reflexivity|]. done. }
  destruct (n =? 0) eqn:Hn; simpl.
  { unfold throtl_trim_slice. fold d. rewrite no_bug, Hd, Hused. simpl.
    fold S. fold d. fold n. rewrite Hn.
    eexists. split; [reflexivity|]. done. }
  destruct ((bytes_trim =? 0) && (io_trim =? 0)) eqn:Hz; simpl.
  { unfold throtl_trim_slice. fold d. rewrite no_bug, Hd, Hused. simpl.
    fold S. fold d. fold n. rewrite Hn. fold bytes_trim io_trim. rewrite Hz.
    eexists. split; [reflexivity|]. done. }
  apply Z.eqb_neq in Hn. rewrite <- Hd in Hused.
  destruct (throtl_trim_slice_trims HZ now tg d no_bug Hused Hn Hz)
    as (tg' & Hrun & Hbd & Hio & Hstart & Hrest).
  exists tg'. split; [exact Hrun|].
  fold S n bytes_trim io_trim in Hbd, Hio, Hstart.
  rewrite Hbd, Hio, Hstart. repeat split; try (by apply Hrest).
  - destruct (bytes_trim <=? get3 (bytes_disp tg) d) eqn:Hle.
    + apply Z.leb_le in Hle. rewrite u64_small by lia. lia.
    + apply Z.leb_gt in Hle. lia.
  - destruct (io_trim <=? get3 (io_disp tg) d) eqn:Hle.
    + apply Z.leb_le in Hle. rewrite u32_small by lia. lia.
    + apply Z.leb_gt in Hle. lia.
Qed.

End TrimSlice.

Lemma throtl_trim_slice_spec_witness :
  exists tg', throtl_trim_slice 1000 250 tg_mid_slice READ = Ok tg'
    /\ get3 (bytes_disp tg') READ = 300
    /\ get3 (io_disp tg') READ = 0
    /\ get3 (slice_start tg') READ = 200.
Proof.
  destruct (throtl_trim_slice_spec 1000 250 tg_mid_slice false)
    as (tg' & Hrun & Hpost).
  - lia.
  - cbn. lia.
  - cbn. lia.
  - reflexivity.
  - exists tg'. split; [exact Hrun|].
    vm_compute in Hpost |- *. destruct Hpost as (H1 & H2 & H3 & _).
    auto.
Defined.

(** ** throtl_trim_slice with an unlimited direction *)

(** C10, as stated, fails: with HZ = 1000 the IOPS trim amount of one slice
    width is (2^32 - 1) * 100 / 1000 = 429,496,729, which a 32-bit counter
    can exceed; the remainder stays in [io_disp]. *)
Lemma unlimited_trim_leaves_io_disp :
  ~ unlimited_trim_resets 1000 100 tg_unlimited_busy READ.
Proof.
  intros Hclaim.
  destruct Hclaim as (tg' & Hrun & _ & Hio); try reflexivity.
  vm_compute in Hrun. injection Hrun as <-. vm_compute in Hio. discriminate.
Qed.

Lemma u64_minus1_mul (k : Z) :
  0 < k < 2 ^ 64 -> u64 (U64_MINUS1 * k) = 2 ^ 64 - k.
Proof.
  intros Hk. unfold u64, U64_MINUS1. symmetry.
  apply (Z.mod_unique_pos _ _ (k - 1)); lia.
Qed.

Lemma nr_slices_bounds (HZ elapsed : Z) :
  10 <= HZ -> 0 <= elapsed ->
  0 <= elapsed / throtl_slice HZ
  /\ throtl_slice HZ * (elapsed / throtl_slice HZ) <= elapsed
  /\ 0 < throtl_slice HZ.
Proof.
  intros HHZ He. unfold throtl_slice.
  assert (0 < HZ / 10) by (apply Z.div_str_pos; lia).
  repeat split; [apply Z.div_pos; lia | apply Z.mul_div_le; lia | done].
Qed.

(** C10, amended: for READ and WRITE, an unlimited direction is trimmed by
    (2^64 - S*n) / HZ bytes and ((2^32 - 1) * S * n mod 2^64) / HZ requests;
    the counters that are below these amounts are reset to 0. *)
Theorem throtl_trim_slice_unlimited (HZ now : Z) (tg : throtl_grp) (rw : bool) :
  let d := rw_dir rw in
  let S := throtl_slice HZ in
  let n := u64 (now - get3 (slice_start tg) d) / S in
  10 <= HZ ->
  get3 (bps tg) d = U64_MINUS1 ->
  get3 (iops tg) d = U32_MINUS1 ->
  time_before (get3 (slice_end tg) d) (get3 (slice_start tg) d) = false ->
  throtl_slice_used now tg rw = false ->
  n <> 0 ->
  0 <= get3 (bytes_disp tg) d < (2 ^ 64 - S * n) / HZ ->
  0 <= get3 (io_disp tg) d < u64 (U32_MINUS1 * S * n) / HZ ->
  exists tg', throtl_trim_slice HZ now tg d = Ok tg'
    /\ get3 (bytes_disp tg') d = 0 /\ get3 (io_disp tg') d = 0
    /\ get3 (slice_start tg') d = u64 (get3 (slice_start tg) d + n * S).
Proof.
  intros d S n HHZ Hbps Hiops Hbug Hused Hn Hbd Hio.
  destruct (nr_slices_bounds HZ (u64 (now - get3 (slice_start tg) d)) HHZ)
    as (Hn0 & Hmul & HS); [apply u64_range|].
  fold S in Hn0, Hmul, HS. fold n in Hn0, Hmul.
  pose proof (u64_range (now - get3 (slice_start tg) d)) as Hel.
  assert (Hbt : u64 (get3 (bps tg) d * S * n) / HZ = (2 ^ 64 - S * n) / HZ).
  { rewrite Hbps, <- Z.mul_assoc, u64_minus1_mul; [done|nia]. }
  rewrite <- (to_bool_rw_dir rw) in Hused. fold d in Hused.
  destruct (throtl_trim_slice_trims HZ now tg d Hbug Hused Hn)
    as (tg' & Hrun & Hbd' & Hio' & Hstart & _).
  { fold S n. rewrite Hbt. apply andb_false_iff. left.
    apply Z.eqb_neq. lia. }
  exists tg'. split; [exact Hrun|].
  fold S n in Hbd', Hio', Hstart. rewrite Hbt in Hbd'. rewrite Hiops in Hio'.
  assert (H1 : ((2 ^ 64 - S * n) / HZ <=? get3 (bytes_disp tg) d) = false)
    by (apply Z.leb_gt; lia).
  assert (H2 : (u64 (U32_MINUS1 * S * n) / HZ <=? get3 (io_disp tg) d) = false)
    by (apply Z.leb_gt; lia).
  rewrite H1 in Hbd'. rewrite H2 in Hio'. done.
Qed.

Lemma throtl_trim_slice_unlimited_witness :
  exists tg', throtl_trim_slice 1000 1150 tg_unlimited_idle WRITE = Ok tg'
    /\ get3 (bytes_disp tg') WRITE = 0 /\ get3 (io_disp tg') WRITE = 0
    /\ get3 (slice_start tg') WRITE = 1100.
Proof.
  apply (throtl_trim_slice_unlimited 1000 1150 tg_unlimited_idle true).
  - lia.
  - reflexivity.
  - reflexivity.
  - reflexivity.
  - reflexivity.
  - vm_compute. intros H. discriminate H.
  - vm_compute. split; [intros H; discriminate H | reflexivity].
  - vm_compute. split; [intros H; discriminate H | reflexivity].
Defined.

(** For RANDW the two theorems above do not apply: [throtl_slice_used] and
    [throtl_set_slice_end] take their direction as a [bool], so the call
    with [rw = 2] looks at the WRITE slice.  Here the RANDW slice is current
    and one slice width has elapsed, the WRITE slice is not current, and
    nothing is trimmed. *)
Lemma throtl_trim_slice_randw_tests_write_slice :
  time_in_range 1150 (get3 (slice_start tg_randw_current) RANDW)
                     (get3 (slice_end tg_randw_current) RANDW) = true
  /\ throtl_trim_slice 1000 1150 tg_randw_current RANDW = Ok tg_randw_current.
Proof. split; reflexivity. Qed.

(** ** tg_may_dispatch: composition of the waits *)

(** C5: the code diverges from the claim.  The BPS check fails with a wait
    of 103 jiffies; the IOPS check, had it run, fails with a wait of 2001
    jiffies; [tg_may_dispatch] returns 103, not the maximum of the two: the
    IOPS check is short-circuited away and [iops_wait] is still 0 when
    [max(bps_wait, iops_wait)] is taken. *)
Theorem tg_may_dispatch_skips_iops_wait :
  let tg := renew_slice 1000 5000 (renew_slice 1000 5000 tg_both_exhausted READ) RANDW in
  tg_with_in_bps_limit 1000 5000 tg bio_read_4k 0 = Ok (false, 103)
  /\ tg_with_in_iops_limit 1000 5000 tg bio_read_4k 0 = Ok (false, 2001)
  /\ exists tg', tg_may_dispatch 1000 5000 tg_both_exhausted bio_read_4k
                 = Ok (false, 103, tg').
Proof.
  repeat split; [vm_compute; reflexivity ..|].
  eexists. vm_compute. reflexivity.
Qed.

Lemma limit_wait_nonneg (o : option Z) (w : Z) :
  (forall jw, o = Some jw -> 0 <= jw) -> 0 <= w ->
  0 <= match o with None => 0 | Some jiffy_wait => jiffy_wait end
  /\ forall u : bool,
       0 <= match o with
            | None => if u then 0 else w
            | Some jiffy_wait => if negb u then Z.max w jiffy_wait else jiffy_wait
            end.
Proof.
  intros Ho Hw. destruct o as [jw|].
  - specialize (Ho jw eq_refl). split; [done|]. intros []; simpl; lia.
  - split; [done|]. by intros [].
Qed.

Lemma bps_limit_wait_nonneg (HZ now : Z) (tg : throtl_grp) (d : dir) (size : Z)
    (o : option Z) :
  bps_limit_wait HZ now tg d size = Ok o -> forall jw, o = Some jw -> 0 <= jw.
Proof.
  unfold bps_limit_wait. intros H jw ->.
  destruct (_ <=? _); [discriminate|]. destruct (_ =? 0); [discriminate|].
  injection H as <-. apply u64_range.
Qed.

(** The wait that the BPS check leaves in [*wait] is not negative. *)
Lemma tg_with_in_bps_limit_wait_nonneg (HZ now : Z) (tg : throtl_grp) (b : bio)
    (ok : bool) (w : Z) :
  tg_with_in_bps_limit HZ now tg b 0 = Ok (ok, w) -> 0 <= w.
Proof.
  unfold tg_with_in_bps_limit. intros H.
  set (rw := rw_dir (bio_data_dir b)) in *.
  assert (H1 : exists w1,
             (if negb (bps_unlimited tg rw)
              then o ← bps_limit_wait HZ now tg rw (bi_size b);
                   Ok (match o with None => 0 | Some jw => jw end)
              else Ok 0) = Ok w1 /\ 0 <= w1 \/
             exists f, (if negb (bps_unlimited tg rw)
              then o ← bps_limit_wait HZ now tg rw (bi_size b);
                   Ok (match o with None => 0 | Some jw => jw end)
              else Ok 0) = Fault f).
  { destruct (negb (bps_unlimited tg rw)); [|exists 0; left; done].
    destruct (bps_limit_wait HZ now tg rw (bi_size b)) as [o|f] eqn:E; simpl.
    - exists (match o with None => 0 | Some jw => jw end). left. split; [done|].
      destruct o as [jw|]; [|done]. by eapply bps_limit_wait_nonneg.
    - exists 0. right. eauto. }
  destruct H1 as (w1 & [[E1 Hw1] | [f E1]]); rewrite E1 in H; simpl in H;
    [|discriminate].
  destruct (negb (bps_unlimited tg RANDW)); simpl in H.
  - destruct (bps_limit_wait HZ now tg RANDW (bi_size b)) as [o|f] eqn:E;
      simpl in H; [|discriminate].
    injection H as _ <-.
    destruct (limit_wait_nonneg o w1 (bps_limit_wait_nonneg _ _ _ _ _ _ E) Hw1)
      as [_ Hcase].
    apply (Hcase (bps_unlimited tg rw)).
  - by injection H as _ <-.
Qed.

(** Whenever the BPS check fails, [tg_may_dispatch] returns the BPS wait
    alone: the IOPS check does not run. *)
Lemma tg_may_dispatch_bps_reject (HZ now : Z) (tg : throtl_grp) (b : bio) (w : Z) :
  let rw := rw_dir (bio_data_dir b) in
  bps_unlimited tg rw && iops_unlimited tg rw
    && bps_unlimited tg RANDW && iops_unlimited tg RANDW = false ->
  tg_with_in_bps_limit HZ now (renew_slice HZ now (renew_slice HZ now tg rw) RANDW) b 0
    = Ok (false, w) ->
  exists tg', tg_may_dispatch HZ now tg b = Ok (false, w, tg').
Proof.
  intros rw Hlim Hbps. unfold tg_may_dispatch. fold rw. rewrite Hlim, Hbps. simpl.
  rewrite Z.max_l by (by eapply tg_with_in_bps_limit_wait_nonneg).
  eauto.
Qed.

(** ** update_fd_queuenr *)

Lemma members_nr_queued_nonneg (st : state) (ms : list fake_device_member)
    (rw : bool) :
  members_counted st ms -> 0 <= members_nr_queued st ms rw.
Proof.
  induction ms as [|m ms IH]; intros H; simpl; [done|].
  destruct (H m) as (t & Ht & Hn); [by left|]. rewrite Ht.
  specialize (Hn rw).
  assert (0 <= members_nr_queued st ms rw).
  { apply IH. intros m' Hm'. apply H. by right. }
  lia.
Qed.

(** Without wrap-around, the loop over the members adds their counts to
    [total]. *)
Lemma sum_member_queued_run (st : state) (ms : list fake_device_member)
    (rw : bool) (total : Z) :
  members_counted st ms -> 0 <= total ->
  total + members_nr_queued st ms rw < 2 ^ 32 ->
  sum_member_queued st ms rw total = Ok (total + members_nr_queued st ms rw).
Proof.
  revert total. induction ms as [|m ms IH]; intros total H Ht Hlt; simpl in *.
  - by rewrite Z.add_0_r.
  - destruct (H m) as (t & Hm & Hn); [by left|].
    rewrite Hm in Hlt |- *. unfold get_tg. rewrite Hm. simpl.
    assert (Hms : members_counted st ms) by (intros m' Hm'; apply H; by right).
    pose proof (members_nr_queued_nonneg st ms rw Hms).
    specialize (Hn rw).
    rewrite u32_small by lia. rewrite IH; [f_equal; lia | done | lia | lia].
Qed.

(** The counts of one direction do not depend on a group whose count for
    that direction is the same. *)
Lemma members_nr_queued_put_tg (st : state) (ms : list fake_device_member)
    (rw : bool) (id : nat) (t t' : throtl_grp) :
  tgs st !! id = Some t ->
  get2 (nr_queued (service_queue t')) rw = get2 (nr_queued (service_queue t)) rw ->
  members_nr_queued (put_tg st id t') ms rw = members_nr_queued st ms rw.
Proof.
  intros Ht Heq. induction ms as [|m ms IH]; simpl; [done|].
  rewrite IH. destruct (decide (id = fm_tg m)) as [<-|Hne].
  - by rewrite lookup_insert_eq, Ht, Heq.
  - by rewrite lookup_insert_ne.
Qed.

Lemma members_counted_put_tg (st : state) (ms : list fake_device_member)
    (id : nat) (t t' : throtl_grp) :
  tgs st !! id = Some t ->
  (forall rw, 0 <= get2 (nr_queued (service_queue t)) rw ->
              0 <= get2 (nr_queued (service_queue t')) rw) ->
  members_counted st ms -> members_counted (put_tg st id t') ms.
Proof.
  intros Ht Hpos H m Hm. destruct (H m Hm) as (tm & Htm & Hn). simpl.
  destruct (decide (id = fm_tg m)) as [E|Hne].
  - rewrite <- E in *. rewrite lookup_insert_eq. exists t'. split; [done|].
    intros rw. apply Hpos. rewrite Ht in Htm. injection Htm as <-. apply Hn.
  - rewrite lookup_insert_ne by done. eauto.
Qed.

Lemma insert_same `{Countable K} {A} (m : gmap K A) (i : K) (x : A) :
  m !! i = Some x -> <[i := x]> m = m.
Proof.
  intros Hx. apply map_eq. intros j. destruct (decide (i = j)) as [<-|Hne].
  - by rewrite lookup_insert_eq.
  - by rewrite lookup_insert_ne.
Qed.

Lemma insert_insert_same `{Countable K} {A} (m : gmap K A) (i : K) (x y : A) :
  <[i := x]> (<[i := y]> m) = <[i := x]> m.
Proof.
  apply map_eq. intros j. destruct (decide (i = j)) as [<-|Hne].
  - by rewrite !lookup_insert_eq.
  - by rewrite !lookup_insert_ne.
Qed.

Lemma put_tg_same (st : state) (id : nat) (t : throtl_grp) :
  tgs st !! id = Some t -> put_tg st id t = st.
Proof.
  intros Ht. destruct st. unfold put_tg, set_tgs. simpl in *.
  by rewrite (insert_same _ _ _ Ht).
Qed.

Lemma put_tg_put_tg (st : state) (id : nat) (t t' : throtl_grp) :
  put_tg (put_tg st id t) id t' = put_tg st id t'.
Proof. unfold put_tg, set_tgs. simpl. by rewrite insert_insert_same. Qed.

Lemma with_counts_same (h : throtl_grp) :
  with_counts (nr_queued (service_queue h)) h = h.
Proof. by destruct h as [[] ? ? ? ? ? ? ? ? ? ? ? ? ? ? ?]. Qed.

Lemma with_counts_twice (c c' : arr2 Z) (h : throtl_grp) :
  with_counts c' (with_counts c h) = with_counts c' h.
Proof. by destruct h as [[] ? ? ? ? ? ? ? ? ? ? ? ? ? ? ?]. Qed.

(** One pass of the loop over the directions: the header is written when
    [total] is not above the stored count, and nothing else changes. *)
Lemma update_fd_queuenr_dir_run (st st' : state) (fd : fake_device) (rw : bool)
    (total total' : Z) :
  update_fd_queuenr_dir st fd rw total = Ok (total', st') ->
  sum_member_queued st (fd_head fd) rw total = Ok total'
  /\ exists h, tgs st !! fd_tg fd = Some h
       /\ st' = put_tg st (fd_tg fd)
                  (with_counts
                     (set2 (nr_queued (service_queue h)) rw
                        (if total' <=? get2 (nr_queued (service_queue h)) rw
                         then total'
                         else get2 (nr_queued (service_queue h)) rw))
                     h).
Proof.
  unfold update_fd_queuenr_dir, get_tg. intros H.
  destruct (sum_member_queued _ _ _ _) as [t|]; simpl in H; [|discriminate].
  destruct (tgs st !! fd_tg fd) as [h|] eqn:Hh; simpl in H; [|discriminate].
  destruct (t <=? _) eqn:E; injection H as <- <-.
  - split; [done|]. exists h. by rewrite E.
  - split; [done|]. exists h. split; [done|]. rewrite E.
    assert (Hc : set2 (nr_queued (service_queue h)) rw
                   (get2 (nr_queued (service_queue h)) rw)
                 = nr_queued (service_queue h))
      by (by destruct rw, (nr_queued (service_queue h))).
    by rewrite Hc, with_counts_same, put_tg_same.
Qed.

Lemma update_fd_queuenr_dir_ok (st : state) (fd : fake_device) (rw : bool)
    (total total' : Z) (h : throtl_grp) :
  sum_member_queued st (fd_head fd) rw total = Ok total' ->
  tgs st !! fd_tg fd = Some h ->
  exists st', update_fd_queuenr_dir st fd rw total = Ok (total', st').
Proof.
  intros Hsum Hh. unfold update_fd_queuenr_dir, get_tg. rewrite Hsum, Hh. simpl.
  destruct (_ <=? _); eauto.
Qed.

Section UpdateFdQueuenr.

Variables (st : state) (fd : fake_device) (h : throtl_grp).

Let sum_r := members_nr_queued st (fd_head fd) false.
Let sum_w := members_nr_queued st (fd_head fd) true.
Let stored := nr_queued (service_queue h).

Hypothesis header : tgs st !! fd_tg fd = Some h.
Hypothesis members : members_counted st (fd_head fd).
Hypothesis no_wrap : sum_r + sum_w < 2 ^ 32.

(** The run of [update_fd_queuenr] on counts that do not wrap around: the
    READ pass compares the READ sum, the WRITE pass the sum of both. *)
Lemma update_fd_queuenr_run :
  let r := if sum_r <=? get2 stored false then sum_r else get2 stored false in
  let w := if sum_r + sum_w <=? get2 stored true
           then sum_r + sum_w else get2 stored true in
  update_fd_queuenr st fd = Ok (put_tg st (fd_tg fd) (with_counts (Arr2 r w) h)).
Proof.
  intros r w.
  pose proof (members_nr_queued_nonneg st (fd_head fd) false members) as Hr.
  pose proof (members_nr_queued_nonneg st (fd_head fd) true members) as Hw.
  fold sum_r in Hr. fold sum_w in Hw.
  assert (Hs1 : sum_member_queued st (fd_head fd) false 0 = Ok sum_r).
  { rewrite sum_member_queued_run; [done | done | done |]. fold sum_r. lia. }
  destruct (update_fd_queuenr_dir_ok _ _ _ _ _ _ Hs1 header) as (st1 & E1).
  destruct (update_fd_queuenr_dir_run _ _ _ _ _ _ E1) as (_ & h0 & Hh0 & ->).
  rewrite header in Hh0. injection Hh0 as <-. fold stored in E1 |- *. fold r in E1.
  set (h1 := with_counts (set2 stored false r) h) in *.
  assert (Hh1 : tgs (put_tg st (fd_tg fd) h1) !! fd_tg fd = Some h1)
    by (simpl; by rewrite lookup_insert_eq).
  assert (Hr0 : 0 <= get2 stored false -> 0 <= r) by (unfold r; destruct (_ <=? _); lia).
  assert (Hm1 : members_counted (put_tg st (fd_tg fd) h1) (fd_head fd)).
  { apply (members_counted_put_tg _ _ _ h); [done | | done].
    intros []; unfold h1, with_counts, stored; simpl; [done | exact Hr0]. }
  assert (Hw1 : members_nr_queued (put_tg st (fd_tg fd) h1) (fd_head fd) true = sum_w).
  { apply (members_nr_queued_put_tg _ _ _ _ h); [done|].
    unfold h1, with_counts, stored. by destruct (nr_queued (service_queue h)). }
  assert (Hs2 : sum_member_queued (put_tg st (fd_tg fd) h1) (fd_head fd) true sum_r
                = Ok (sum_r + sum_w)).
  { rewrite sum_member_queued_run; [by rewrite Hw1 | done | done |]. rewrite Hw1. lia. }
  destruct (update_fd_queuenr_dir_ok _ _ _ _ _ _ Hs2 Hh1) as (st2 & E2).
  destruct (update_fd_queuenr_dir_run _ _ _ _ _ _ E2) as (_ & h1' & Hh1' & ->).
  rewrite Hh1 in Hh1'. injection Hh1' as <-.
  unfold update_fd_queuenr. rewrite E1. simpl. rewrite E2. simpl.
  rewrite put_tg_put_tg. do 2 f_equal.
Qed.

End UpdateFdQueuenr.


Lemma st_fd_member_queued_wf : fd_wf st_fd_member_queued.
Proof.
  assert (Hhd : forall id, is_header st_fd_member_queued id -> id = 10%nat).
  { intros id (blkcg & chain & fd & Hc & Hin & <-). simpl in Hc.
    apply lookup_singleton_Some in Hc as [_ <-].
    by apply list_elem_of_singleton in Hin as ->. }
  split.
  - intros id h Hh Hl. apply Hhd in Hh as ->.
    vm_compute in Hl. by injection Hl as <-.
  - intros blkcg chain fd m Hc Hin Hm Hh. simpl in Hc.
    apply lookup_singleton_Some in Hc as [_ <-].
    apply list_elem_of_singleton in Hin as ->.
    apply list_elem_of_singleton in Hm as ->.
    by apply Hhd in Hh.
  - intros blkcg chain fd Hc Hin. simpl in Hc.
    apply lookup_singleton_Some in Hc as [_ <-].
    apply list_elem_of_singleton in Hin as ->. split; [by eexists|].
    intros m Hm. apply list_elem_of_singleton in Hm as ->. by eexists.
Qed.


(** [total] is not reset between the two directions, so the WRITE pass
    starts from the READ sum.  On a header whose counts were set to 1 and 3
    by hand, with no WRITE bio queued on the member, the header's
    nr_queued[WRITE] becomes 1.  No run of the code produces such a header:
    see [queue_out_of_limit_faults]. *)
Remark update_fd_queuenr_write_includes_reads :
  sum_member_queued st_fd_queued (fd_head fd7) true 0 = Ok 0
  /\ exists st' h, update_fd_queuenr st_fd_queued fd7 = Ok st'
       /\ tgs st' !! 10%nat = Some h
       /\ get2 (nr_queued (service_queue h)) false = 1
       /\ get2 (nr_queued (service_queue h)) true = 1.
Proof.
  split; [reflexivity|].
  eexists _, _. split; [vm_compute; reflexivity|].
  split; [vm_compute; reflexivity|]. split; reflexivity.
Qed.

(** ** Reading and writing service queues in the arena *)

Lemma get_tg_Some (st : state) (id : nat) (t : throtl_grp) :
  tgs st !! id = Some t -> get_tg st id = Ok t.
Proof. unfold get_tg. by intros ->. Qed.

Lemma put_sq_ok (st : state) (r : sq_ref) (s s0 : throtl_service_queue) :
  get_sq st r = Ok s0 -> exists st', put_sq st r s = Ok st'.
Proof.
  destruct r as [id|q]; unfold get_sq, put_sq, get_tg, get_td; simpl.
  - destruct (tgs st !! id); simpl; [eauto|discriminate].
  - destruct (tds st !! q); simpl; [eauto|discriminate].
Qed.

Lemma get_sq_put_sq (st st' : state) (r : sq_ref) (s : throtl_service_queue) :
  put_sq st r s = Ok st' -> get_sq st' r = Ok s.
Proof.
  destruct r as [id|q]; unfold get_sq, put_sq, get_tg, get_td; simpl.
  - destruct (tgs st !! id); simpl; [|discriminate].
    intros [= <-]. simpl. by rewrite lookup_insert_eq.
  - destruct (tds st !! q); simpl; [|discriminate].
    intros [= <-]. simpl. by rewrite lookup_insert_eq.
Qed.

Lemma put_sq_jiffies (st st' : state) (r : sq_ref) (s : throtl_service_queue) :
  put_sq st r s = Ok st' -> jiffies st' = jiffies st.
Proof.
  destruct r as [id|q]; unfold put_sq, get_tg, get_td; simpl.
  - destruct (tgs st !! id); simpl; [|discriminate]. by intros [= <-].
  - destruct (tds st !! q); simpl; [|discriminate]. by intros [= <-].
Qed.

(** Writing a service queue changes no group outside its service queue. *)
Lemma put_sq_tg (st st' : state) (r : sq_ref) (s : throtl_service_queue)
    (id : nat) (t : throtl_grp) :
  put_sq st r s = Ok st' -> tgs st !! id = Some t ->
  exists t', tgs st' !! id = Some t'
    /\ disptime t' = disptime t /\ flags t' = flags t
    /\ fake t' = fake t /\ blkg_refcnt t' = blkg_refcnt t
    /\ qnode_on_self t' = qnode_on_self t
    /\ qnode_on_parent t' = qnode_on_parent t.
Proof.
  destruct r as [id'|q]; unfold put_sq, get_tg, get_td; simpl.
  - destruct (tgs st !! id') eqn:Hid'; simpl; [|discriminate].
    intros [= <-] Hid. simpl.
    destruct (decide (id' = id)) as [->|Hne].
    + rewrite lookup_insert_eq. eexists. split; [done|]. by simplify_eq.
    + rewrite lookup_insert_ne by done. eauto 10.
  - destruct (tds st !! q); simpl; [|discriminate].
    intros [= <-] Hid. simpl. eauto 10.
Qed.

(** ** throtl_schedule_next_dispatch *)

(** C7, as stated, fails: when the first dispatch time is not in the future
    and [force] is not set, the function returns [false] without arming the
    timer. *)
Lemma schedule_next_dispatch_open_window_no_timer :
  ~ schedule_next_dispatch_as_specified st_window_open (SqTd 1) false.
Proof.
  intros Hclaim.
  destruct (Hclaim _ eq_refl) as (done & st' & s' & Hrun & Hsq & Htimer & _).
  { vm_compute. discriminate. }
  vm_compute in Hrun. injection Hrun as <- <-.
  vm_compute in Hsq. injection Hsq as <-. discriminate.
Qed.

(** C7, amended: no pending child: [true], nothing changes.  Otherwise
    [first_pending_disptime] is refreshed from the leftmost pending group;
    if [force] is set or that time is in the future the timer is armed at
    it and [true] is returned; else the timer is left as it was and
    [false] is returned. *)
Theorem throtl_schedule_next_dispatch_spec (st : state) (r : sq_ref)
    (force : bool) (s : throtl_service_queue) :
  get_sq st r = Ok s ->
  (nr_pending s = 0 ->
   throtl_schedule_next_dispatch st (Some r) force = Ok (true, st))
  /\ (nr_pending s <> 0 ->
      forall id t, rb_first_of s = Some id -> tgs st !! id = Some t ->
      let done := force || time_after (disptime t) (jiffies st) in
      exists st' s',
        throtl_schedule_next_dispatch st (Some r) force = Ok (done, st')
        /\ get_sq st' r = Ok s'
        /\ first_pending_disptime s' = disptime t
        /\ pending_timer s'
           = (if done then Some (disptime t) else pending_timer s)).
Proof.
  intros Hsq. split.
  - intros Hnp. unfold throtl_schedule_next_dispatch. simpl. rewrite Hsq. simpl.
    by rewrite Hnp.
  - intros Hnp id t Hfirst Hid done.
    apply Z.eqb_neq in Hnp.
    unfold throtl_schedule_next_dispatch. simpl. rewrite Hsq. simpl.
    rewrite Hnp.
    unfold update_min_dispatch_time, throtl_rb_first. rewrite Hsq. simpl.
    rewrite Hnp.
    set (s1 := match first_pending s with
               | Some _ => s
               | None => set_first_pending (head (pending_tree s)) s
               end).
    assert (Hs1 : first_pending s1 = Some id /\ pending_timer s1 = pending_timer s).
    { unfold s1, rb_first_of in *.
      destruct (first_pending s) eqn:Hfp; simpl; split; congruence. }
    destruct Hs1 as [Hfp1 Htm1].
    destruct (put_sq_ok st r s1 s Hsq) as (st1 & Hput1). rewrite Hput1. simpl.
    rewrite Hfp1.
    destruct (put_sq_tg _ _ _ _ _ _ Hput1 Hid) as (t1 & Hid1 & Hdisp1 & _).
    unfold get_tg at 1. rewrite Hid1. simpl.
    rewrite (get_sq_put_sq _ _ _ _ Hput1). simpl.
    set (s2 := set_first_pending_disptime (disptime t1) s1).
    destruct (put_sq_ok st1 r s2 s1 (get_sq_put_sq _ _ _ _ Hput1)) as (st2 & Hput2).
    rewrite Hput2. simpl.
    rewrite (get_sq_put_sq _ _ _ _ Hput2). simpl.
    rewrite (put_sq_jiffies _ _ _ _ Hput2), (put_sq_jiffies _ _ _ _ Hput1).
    rewrite Hdisp1. fold done.
    destruct done eqn:Hdone.
    + unfold throtl_schedule_pending_timer.
      rewrite (get_sq_put_sq _ _ _ _ Hput2). simpl.
      destruct (put_sq_ok st2 r (set_pending_timer (Some (disptime t)) s2) s2
                  (get_sq_put_sq _ _ _ _ Hput2)) as (st3 & Hput3).
      rewrite Hput3. simpl. eexists _, _. split; [reflexivity|].
      split; [exact (get_sq_put_sq _ _ _ _ Hput3)|]. done.
    + eexists _, _. split; [reflexivity|].
      split; [exact (get_sq_put_sq _ _ _ _ Hput2)|]. simpl.
      by rewrite Hdisp1.
Qed.

Lemma throtl_schedule_next_dispatch_spec_witness :
  exists st' s',
    throtl_schedule_next_dispatch st_window_open (Some (SqTd 1)) true = Ok (true, st')
    /\ get_sq st' (SqTd 1) = Ok s'
    /\ first_pending_disptime s' = 4000
    /\ pending_timer s' = Some 4000.
Proof.
  destruct (throtl_schedule_next_dispatch_spec st_window_open (SqTd 1) true _ eq_refl)
    as [_ H].
  refine (H _ 5%nat _ eq_refl eq_refl).
  vm_compute. discriminate.
Defined.

(** ** throtl_pop_queued *)

Lemma get_qn_put_qn (t : throtl_grp) (r : qn_ref) (n : throtl_qnode) :
  get_qn (put_qn t r n) r = n.
Proof.
  unfold get_qn, put_qn. destruct (qr_on_parent r); simpl; apply get2_set2_eq.
Qed.

Lemma put_qn_frame (t : throtl_grp) (r : qn_ref) (n : throtl_qnode) :
  service_queue (put_qn t r n) = service_queue t
  /\ fake (put_qn t r n) = fake t
  /\ blkg_refcnt (put_qn t r n) = blkg_refcnt t.
Proof. unfold put_qn. by destruct (qr_on_parent r). Qed.

(** Replacing a group by one with the same service queue changes no
    service queue of the arena. *)
Lemma get_sq_put_tg (st : state) (id : nat) (t t' : throtl_grp) (r : sq_ref) :
  tgs st !! id = Some t -> service_queue t' = service_queue t ->
  get_sq (put_tg st id t') r = get_sq st r.
Proof.
  intros Hid Hsq. destruct r as [id'|q]; unfold get_sq, get_tg, get_td; simpl; [|done].
  destruct (decide (id = id')) as [<-|Hne].
  - by rewrite lookup_insert_eq, Hid; simpl; rewrite Hsq.
  - by rewrite lookup_insert_ne.
Qed.

Lemma get_queued_put_tg (st : state) (id : nat) (t t' : throtl_grp)
    (r : sq_ref) (rw : bool) :
  tgs st !! id = Some t -> service_queue t' = service_queue t ->
  get_queued (put_tg st id t') r rw = get_queued st r rw.
Proof.
  intros Hid Hsq. unfold get_queued. by rewrite (get_sq_put_tg _ _ t).
Qed.

Lemma put_queued_spec (st : state) (r : sq_ref) (rw : bool) (l l0 : list qn_ref) :
  get_queued st r rw = Ok l0 ->
  exists st', put_queued st r rw l = Ok st'
    /\ get_queued st' r rw = Ok l
    /\ (forall id t, tgs st !! id = Some t ->
          exists t', tgs st' !! id = Some t'
            /\ fake t' = fake t /\ blkg_refcnt t' = blkg_refcnt t
            /\ qnode_on_self t' = qnode_on_self t
            /\ qnode_on_parent t' = qnode_on_parent t).
Proof.
  unfold get_queued, put_queued. intros Hget.
  destruct (get_sq st r) as [s|] eqn:Hsq; [|discriminate]. simpl.
  destruct (put_sq_ok st r (set_queued (set2 (queued s) rw l) s) s Hsq) as (st' & Hput).
  exists st'. split; [done|]. split.
  - rewrite (get_sq_put_sq _ _ _ _ Hput). simpl. by rewrite get2_set2_eq.
  - intros id t Hid.
    destruct (put_sq_tg _ _ _ _ _ _ Hput Hid) as (t' & ? & ? & ? & ? & ? & ? & ?).
    eauto 10.
Qed.

(** C8, as stated, fails: popping the last bio of a qnode of a fake-device
    group without [tg_to_put] releases nothing and hands nothing to the
    caller. *)
Lemma pop_queued_fake_releases_nothing :
  ~ pop_queued_as_specified st_fake_ready (SqTd 1) false false.
Proof.
  intros Hclaim.
  destruct (Hclaim (QnRef 11 true false) [] _ 0%nat [] eq_refl eq_refl eq_refl)
    as (out & st' & t' & Hrun & Ht' & _ & Hrel).
  vm_compute in Hrun. injection Hrun as <- <-.
  destruct Hrel as [?|(n & Hn & _)]; discriminate.
Qed.

(** C8, amended: the head bio of the head qnode is returned (nothing on an
    empty list); a qnode that became empty is unlinked, and its group is
    handed to the caller through [tg_to_put] when that is given; when it is
    not, the function drops the reference itself only for a group that is
    not a fake-device group.  A qnode that still holds bios moves to the
    tail. *)
Theorem throtl_pop_queued_spec (st : state) (sq : sq_ref) (rw : bool)
    (tg_to_put : bool) :
  (get_queued st sq rw = Ok [] ->
   throtl_pop_queued st sq rw tg_to_put = Ok (None, None, st))
  /\ (forall qn rest t b bl,
        get_queued st sq rw = Ok (qn :: rest) ->
        tgs st !! qr_tg qn = Some t ->
        qn_bios (get_qn t qn) = b :: bl ->
        (bl = [] -> tg_to_put = false -> fake t = false -> is_Some (blkg_refcnt t)) ->
        exists out st' t',
          throtl_pop_queued st sq rw tg_to_put = Ok (Some b, out, st')
          /\ tgs st' !! qr_tg qn = Some t'
          /\ qn_bios (get_qn t' qn) = bl
          /\ match bl with
             | [] =>
                 get_queued st' sq rw = Ok rest
                 /\ qn_node (get_qn t' qn) = false
                 /\ out = (if tg_to_put then Some (qr_tg qn) else None)
                 /\ blkg_refcnt t'
                    = (if tg_to_put || fake t then blkg_refcnt t
                       else (fun n => n - 1) <$> blkg_refcnt t)
             | _ :: _ =>
                 get_queued st' sq rw = Ok (rest ++ [qn])
                 /\ qn_node (get_qn t' qn) = qn_node (get_qn t qn)
                 /\ out = None
                 /\ blkg_refcnt t' = blkg_refcnt t
             end).
Proof.
  split.
  - intros Hq. unfold throtl_pop_queued. by rewrite Hq.
  - intros qn rest t b bl Hq Ht Hbios Href.
    unfold throtl_pop_queued. rewrite Hq. simpl.
    rewrite (get_tg_Some _ _ _ Ht). simpl. rewrite Hbios. simpl.
    destruct bl as [|b' bl].
    + set (t1 := put_qn t qn (Qnode false [])).
      destruct (put_qn_frame t qn (Qnode false [])) as (Hsq1 & Hfk1 & Hrc1).
      fold t1 in Hsq1, Hfk1, Hrc1.
      assert (Hq1 : get_queued (put_tg st (qr_tg qn) t1) sq rw = Ok (qn :: rest))
        by (by rewrite (get_queued_put_tg _ _ t)).
      destruct (put_queued_spec _ _ _ rest _ Hq1) as (st2 & Hput & Hq2 & Hframe).
      rewrite Hput. simpl.
      destruct (Hframe (qr_tg qn) t1) as (t2 & Ht2 & Hfk2 & Hrc2 & Hself2 & Hpar2).
      { simpl. by rewrite lookup_insert_eq. }
      assert (Hqn2 : get_qn t2 qn = Qnode false []).
      { rewrite <- (get_qn_put_qn t qn (Qnode false [])). fold t1.
        unfold get_qn. by rewrite Hself2, Hpar2. }
      destruct tg_to_put; simpl.
      * exists (Some (qr_tg qn)), st2, t2. rewrite Hqn2. simpl.
        repeat split; try done. congruence.
      * rewrite (get_tg_Some _ _ _ Ht2). simpl. rewrite Hfk2, Hfk1.
        destruct (fake t) eqn:Hfake; simpl.
        -- exists None, st2, t2. rewrite Hqn2. simpl.
           repeat split; try done. congruence.
        -- destruct (Href eq_refl eq_refl eq_refl) as (n & Hn).
           unfold blkg_put. rewrite Hrc2, Hrc1, Hn. simpl.
           eexists None, _, _. split; [reflexivity|]. simpl.
           rewrite lookup_insert_eq. split; [reflexivity|].
           assert (Hqn3 : get_qn (set_blkg_refcnt (Some (n - 1)) t2) qn
                          = Qnode false []).
           { rewrite <- Hqn2. unfold get_qn. by destruct (qr_on_parent qn). }
           rewrite Hqn3. simpl. repeat split; try done.
           by rewrite (get_queued_put_tg _ _ t2).
    + set (t1 := put_qn t qn (Qnode (qn_node (get_qn t qn)) (b' :: bl))).
      destruct (put_qn_frame t qn (Qnode (qn_node (get_qn t qn)) (b' :: bl)))
        as (Hsq1 & Hfk1 & Hrc1).
      fold t1 in Hsq1, Hfk1, Hrc1.
      assert (Hq1 : get_queued (put_tg st (qr_tg qn) t1) sq rw = Ok (qn :: rest))
        by (by rewrite (get_queued_put_tg _ _ t)).
      destruct (put_queued_spec _ _ _ (rest ++ [qn]) _ Hq1)
        as (st2 & Hput & Hq2 & Hframe).
      rewrite Hput. simpl.
      destruct (Hframe (qr_tg qn) t1) as (t2 & Ht2 & Hfk2 & Hrc2 & Hself2 & Hpar2).
      { simpl. by rewrite lookup_insert_eq. }
      assert (Hqn2 : get_qn t2 qn = Qnode (qn_node (get_qn t qn)) (b' :: bl)).
      { rewrite <- (get_qn_put_qn t qn (Qnode (qn_node (get_qn t qn)) (b' :: bl))).
        fold t1. unfold get_qn. by rewrite Hself2, Hpar2. }
      exists None, st2, t2. rewrite Hqn2. simpl.
      repeat split; try done. congruence.
Qed.

Lemma throtl_pop_queued_spec_witness :
  exists out st' t',
    throtl_pop_queued st_child_ready (SqTd 1) false false = Ok (Some 0%nat, out, st')
    /\ tgs st' !! 5%nat = Some t'
    /\ get_queued st' (SqTd 1) false = Ok []
    /\ out = None
    /\ blkg_refcnt t' = Some 1.
Proof.
  destruct (proj2 (throtl_pop_queued_spec st_child_ready (SqTd 1) false false)
              (QnRef 5 true false) [] _ 0%nat [] eq_refl eq_refl eq_refl)
    as (out & st' & t' & Hrun & Ht' & _ & Hq & _ & Hout & Hrc).
  - intros _ _ _. vm_compute. eauto.
  - exists out, st', t'. repeat split; assumption.
Defined.

(** ** blk_throtl_bio *)

Lemma bio_throttled_clear (b : bio) : bio_throttled (bio_clear_throttled b) = false.
Proof.
  unfold bio_throttled, bio_clear_throttled. simpl.
  by rewrite <- Z.land_assoc, (Z.land_comm (Z.lnot _)), Z.land_lnot_diag, Z.land_0_r.
Qed.

Lemma blk_throtl_bio_out_false (st st' : state) (bio_id : nat) (throttled : bool) :
  blk_throtl_bio_out st bio_id throttled = Ok (false, st') ->
  exists b', bios st' !! bio_id = Some b' /\ bio_throttled b' = false.
Proof.
  unfold blk_throtl_bio_out. destruct throttled; [discriminate|].
  unfold get_bio. destruct (bios st !! bio_id) as [b|]; simpl; [|discriminate].
  intros [= <-]. exists (bio_clear_throttled b). simpl.
  split; [by rewrite lookup_insert_eq | apply bio_throttled_clear].
Qed.

#[local] Arguments blk_throtl_bio_out : simpl never.
#[local] Arguments fake_device_check : simpl never.
#[local] Arguments climb : simpl never.
#[local] Arguments fd_rounds : simpl never.
#[local] Arguments charge_fds : simpl never.
#[local] Arguments queue_out_of_limit : simpl never.
#[local] Arguments throtl_lookup_tg : simpl never.
#[local] Arguments throtl_lookup_create_tg : simpl never.
#[local] Arguments fds_without_limit : simpl never.
#[local] Arguments throtl_add_bio_tg : simpl never.
#[local] Arguments tg_update_disptime_recursively : simpl never.
#[local] Arguments throtl_schedule_next_dispatch : simpl never.
#[local] Arguments inc_td_nr_queued : simpl never.

(** Case analysis on a run that is known to have returned. *)
Ltac run_cases H :=
  repeat (simpl in H;
          match type of H with
          | (match ?r with Ok _ => _ | Fault _ => _ end) = _ =>
              let E := fresh "E" in
              destruct r eqn:E; simpl in H; [|discriminate H]
          | (?r ≫= _) = _ =>
              let E := fresh "E" in
              destruct r eqn:E; simpl in H; [|discriminate H]
          | (let '(_, _) := ?p in _) = _ => destruct p
          | (match ?x with _ => _ end) = _ =>
              let E := fresh "E" in destruct x eqn:E; try discriminate H
          | (if ?x then _ else _) = _ =>
              let E := fresh "E" in destruct x eqn:E; try discriminate H
          end).

Section BlkThrotlBio.

Variable HZ : Z.
Variable blkg_lookup_create : state -> nat -> nat -> ptr_or_err * state.

Lemma fake_device_check_false (st st' : state) (q bio_id : nat) (rw : bool)
    (blkcg : nat) (qn : option qn_ref) (throttled : bool) :
  fake_device_check HZ st q bio_id rw blkcg qn throttled = Ok (false, st') ->
  exists b', bios st' !! bio_id = Some b' /\ bio_throttled b' = false.
Proof.
  unfold fake_device_check. intros H.
  destruct throttled; run_cases H; eauto using blk_throtl_bio_out_false.
Qed.

(** C9: a bio that enters with the throttled marker set is let through:
    [false] is returned, its marker is cleared and nothing else in the arena
    changes; and whenever [false] is returned the marker of the bio is
    clear. *)
Theorem blk_throtl_bio_throttled_marker (st : state) (q bio_id : nat) :
  (forall b, bios st !! bio_id = Some b -> bio_throttled b = true ->
     exists st', blk_throtl_bio HZ blkg_lookup_create st q bio_id = Ok (false, st')
       /\ jiffies st' = jiffies st /\ tgs st' = tgs st /\ tds st' = tds st
       /\ fd_heads st' = fd_heads st /\ blkg_tree st' = blkg_tree st
       /\ bios st' = <[bio_id := bio_clear_throttled b]> (bios st))
  /\ (forall st', blk_throtl_bio HZ blkg_lookup_create st q bio_id = Ok (false, st') ->
        exists b', bios st' !! bio_id = Some b' /\ bio_throttled b' = false).
Proof.
  split.
  - intros b Hb Hthr. unfold blk_throtl_bio, get_bio. rewrite Hb. simpl.
    rewrite Hthr. unfold blk_throtl_bio_out, get_bio. rewrite Hb. simpl.
    eexists. split; [reflexivity|]. done.
  - intros st' H. unfold blk_throtl_bio in H.
    run_cases H;
      eauto using blk_throtl_bio_out_false, fake_device_check_false.
Qed.

End BlkThrotlBio.

Lemma blk_throtl_bio_throttled_marker_witness :
  exists st',
    blk_throtl_bio 1000 blkg_lookup_existing
      (st_over_limit (bio_set_rw bio_read_4k REQ_THROTTLED)) 1 0 = Ok (false, st')
    /\ tgs st' = tgs (st_over_limit bio_read_4k)
    /\ tds st' = tds (st_over_limit bio_read_4k)
    /\ bios st' !! 0%nat = Some bio_read_4k.
Proof.
  destruct (proj1 (blk_throtl_bio_throttled_marker 1000 blkg_lookup_existing
                     (st_over_limit (bio_set_rw bio_read_4k REQ_THROTTLED)) 1 0)
              _ eq_refl eq_refl)
    as (st' & Hrun & _ & Htgs & Htds & _ & _ & Hbios).
  exists st'. split; [exact Hrun|]. rewrite Htgs, Htds, Hbios. done.
Defined.

(** C1: the code diverges from the claim.  A read of 4 KiB fails the token
    bucket of its group (1024 bytes per second); the statements under
    [out-of-limit, queue to @tg] then call [throtl_add_bio_fd_tg] with the
    local [fake_d], which this path never assigned: the bio is not queued
    on the group and no result is returned. *)
Theorem blk_throtl_bio_over_limit_uses_unset_fake_d :
  (exists wait tg',
     tg_may_dispatch 1000 5000
       (set_has_rules (Arr3 true false false)
          (set_bps (Arr3 1024 U64_MINUS1 U64_MINUS1) (throtl_pd_init (SqTd 1) 1)))
       bio_read_4k = Ok (false, wait, tg'))
  /\ blk_throtl_bio 1000 blkg_lookup_existing (st_over_limit bio_read_4k) 1 0
     = Fault UNINIT_PTR.
Proof.
  split; [eexists _, _|]; vm_compute; reflexivity.
Qed.

(** On every path to [out-of-limit, queue to @tg] the local [fake_d] is
    either unassigned or was run down to NULL by the loop of the fast path;
    with either value the statements fault. *)
Lemma throtl_add_bio_fd_tg_faults (st st' : state) (bio_id : nat)
    (fake_d : fd_ptr) (q : nat) :
  fake_d = FdUninit \/ fake_d = FdAt [] ->
  throtl_add_bio_fd_tg st bio_id fake_d q <> Ok st'.
Proof.
  intros Hfd H. unfold throtl_add_bio_fd_tg in H.
  destruct Hfd as [-> | ->]; run_cases H; discriminate H.
Qed.

#[local] Arguments throtl_add_bio_fd_tg : simpl never.

Lemma queue_out_of_limit_faults (HZ : Z) (st st' : state) (q bio_id : nat)
    (rw : bool) (tg : nat) (fake_d : fd_ptr) :
  fake_d = FdUninit \/ fake_d = FdAt [] ->
  queue_out_of_limit HZ st q bio_id rw tg fake_d <> Ok st'.
Proof.
  intros Hfd H. unfold queue_out_of_limit in H.
  run_cases H; eapply throtl_add_bio_fd_tg_faults; eauto.
Qed.

(** Had [fake_d] pointed to a fake device of the queue, the bio would have
    been queued on the member group of that fake device, through its own
    qnode, not on the group that failed the check. *)
Lemma throtl_add_bio_fd_tg_queues_on_member :
  exists st' m g,
    throtl_add_bio_fd_tg
      (set_bios {[ 0%nat := bio_read_4k ]} st_fd_queued) 0 (FdAt [fd7]) 1 = Ok st'
    /\ tgs st' !! 11%nat = Some m
    /\ qn_bios (get2 (qnode_on_self m) false) = [0%nat]
    /\ get2 (queued (service_queue m)) false = [QnRef 11 false false]
    /\ tgs st' !! 10%nat = Some g
    /\ get2 (nr_queued (service_queue g)) false = 2.
Proof.
  eexists _, _, _. split; [vm_compute; reflexivity|].
  split; [vm_compute; reflexivity|]. split; [reflexivity|].
  split; [reflexivity|]. split; [vm_compute; reflexivity|]. reflexivity.
Qed.

(** ** Configuration writes: rejected lines *)

(** C3, as stated, fails: a line of a hybrid file that names a partition is
    accepted; the write creates the fake device and returns the number of
    bytes written. *)
Lemma hybrid_write_accepts_partition :
  ~ conf_write_as_specified 1000 blkg_lookup_existing sscanf_example
      get_gendisk_example (fun _ _ => true) (fun _ id => [id])
      st_one_queue 1 throttle_hybrid_read_bps_device "8:1 7 1048576" 14.
Proof.
  intros [_ Hpart].
  destruct (Hpart 1%nat 1 eq_refl) as (st' & Hrun); [discriminate|].
  vm_compute in Hrun. discriminate Hrun.
Qed.

Section ConfWrite.

Variable HZ : Z.
Variable blkg_lookup_create : state -> nat -> nat -> ptr_or_err * state.
Variable sscanf : string -> string -> list Z.
Variable get_gendisk : Z -> option (nat * Z).
Variable blkcg_policy_enabled : state -> nat -> bool.
Variable blkg_descendants_pre : state -> nat -> list nat.

Let write :=
  cft_write HZ blkg_lookup_create sscanf get_gendisk blkcg_policy_enabled
    blkg_descendants_pre.

(** C3, amended: on each of the eight files a line that fails to parse is
    answered with -EINVAL and changes nothing; on the six per-device files
    so is a line that names a partition. *)
Theorem cft_write_rejects (st : state) (blkcg : nat) (f : cfile) (buf : string)
    (nbytes : Z) :
  (length (sscanf buf (cft_format f)) <> cft_conversions f ->
   write st blkcg f buf nbytes = Ok (- EINVAL, st))
  /\ (cft_hybrid f = false ->
      forall major minor v disk part,
        sscanf buf (cft_format f) = [major; minor; v] ->
        get_gendisk (MKDEV major minor) = Some (disk, part) ->
        part <> 0 ->
        write st blkcg f buf nbytes = Ok (- EINVAL, st)).
Proof.
  split.
  - intros Hlen.
    destruct f; unfold write, cft_write, tg_set_conf, tg_fd_set_conf,
      blkg_conf_prep, blkg_fd_conf_prep;
      unfold cft_format, cft_conversions in Hlen; simpl in *;
      destruct (sscanf buf _) as [|? [|? [|? [|? [|? ?]]]]]; simpl in *;
      try reflexivity; lia.
  - intros Hf major minor v disk part Hscan Hdisk Hpart.
    apply Z.eqb_neq in Hpart.
    destruct f; try discriminate Hf;
      unfold write, cft_write, tg_set_conf, blkg_conf_prep;
      unfold cft_format in Hscan; simpl in Hscan;
      rewrite Hscan, Hdisk, Hpart; reflexivity.
Qed.

End ConfWrite.

Lemma cft_write_rejects_witness :
  cft_write 1000 blkg_lookup_existing sscanf_example get_gendisk_example
    (fun _ _ => true) (fun _ id => [id])
    st_one_queue 1 throttle_hybrid_read_bps_device "8:1 x" 5
  = Ok (- EINVAL, st_one_queue)
  /\ cft_write 1000 blkg_lookup_existing sscanf_example get_gendisk_example
       (fun _ _ => true) (fun _ id => [id])
       st_one_queue 1 throttle_read_bps_device "8:1 1048576" 12
     = Ok (- EINVAL, st_one_queue).
Proof.
  destruct (cft_write_rejects 1000 blkg_lookup_existing sscanf_example
              get_gendisk_example (fun _ _ => true) (fun _ id => [id])
              st_one_queue 1 throttle_hybrid_read_bps_device "8:1 x" 5)
    as [Hparse _].
  destruct (cft_write_rejects 1000 blkg_lookup_existing sscanf_example
              get_gendisk_example (fun _ _ => true) (fun _ id => [id])
              st_one_queue 1 throttle_read_bps_device "8:1 1048576" 12)
    as [_ Hpart].
  split.
  - apply Hparse. vm_compute. discriminate.
  - apply (Hpart eq_refl 8 1 1048576 1%nat 1); [reflexivity | reflexivity |].
    discriminate.
Defined.

(** ** has_rules *)

Lemma same_hierarchy_refl (st : state) : same_hierarchy st st.
Proof. intros id. by destruct (tgs st !! id). Qed.

Lemma same_hierarchy_trans (st1 st2 st3 : state) :
  same_hierarchy st1 st2 -> same_hierarchy st2 st3 -> same_hierarchy st1 st3.
Proof.
  intros H12 H23 id. specialize (H12 id). specialize (H23 id).
  destruct (tgs st1 !! id), (tgs st2 !! id), (tgs st3 !! id); try done.
  congruence.
Qed.

Lemma same_hierarchy_put_tg (st : state) (id : nat) (t t' : throtl_grp) :
  tgs st !! id = Some t -> service_queue t' = service_queue t ->
  same_hierarchy st (put_tg st id t').
Proof.
  intros Hid Hsq id'. simpl. destruct (decide (id = id')) as [<-|Hne].
  - by rewrite lookup_insert_eq, Hid.
  - rewrite lookup_insert_ne by done. by destruct (tgs st !! id').
Qed.

Lemma same_hierarchy_sq_to_tg (st st' : state) (sq : option sq_ref) :
  same_hierarchy st st' -> sq_to_tg st' sq = sq_to_tg st sq.
Proof.
  intros H. destruct sq as [[id|q]|]; simpl; try done.
  specialize (H id). destruct (tgs st !! id), (tgs st' !! id); try done.
  by rewrite H.
Qed.

Lemma same_hierarchy_parent_tg (st st' : state) (id : nat) (t t' : throtl_grp) :
  same_hierarchy st st' -> tgs st !! id = Some t -> tgs st' !! id = Some t' ->
  parent_tg st' t' = parent_tg st t.
Proof.
  intros H Ht Ht'. unfold parent_tg.
  rewrite (same_hierarchy_sq_to_tg st st') by done.
  specialize (H id). rewrite Ht, Ht' in H. by rewrite H.
Qed.

Lemma parent_tg_exists (st : state) (t : throtl_grp) (p : nat) :
  parent_tg st t = Some p -> exists tp, tgs st !! p = Some tp.
Proof.
  unfold parent_tg, sq_to_tg.
  destruct (parent_sq (service_queue t)) as [[id|q]|]; try discriminate.
  destruct (tgs st !! id) as [tp|] eqn:Hid; try discriminate.
  destruct (parent_sq (service_queue tp)); try discriminate.
  intros [= <-]. eauto.
Qed.

Lemma limit_on_path_inv (st : state) (rw : dir) (id : nat) (t : throtl_grp) :
  tgs st !! id = Some t ->
  limit_on_path st rw id <->
  tg_limited t rw = true
  \/ exists p, parent_tg st t = Some p /\ limit_on_path st rw p.
Proof.
  intros Ht. split.
  - intros H. inversion H; simplify_eq; eauto.
  - intros [H|(p & Hp & H)]; [by eapply limit_here | by eapply limit_above].
Qed.

(** One step of the has_rules[] walk. *)
Lemma tg_update_has_rules_run (st : state) (id : nat) (t : throtl_grp) :
  tgs st !! id = Some t ->
  exists hr,
    tg_update_has_rules st id = Ok (put_tg st id (set_has_rules hr t))
    /\ forall rw,
         get3 hr rw
         = match parent_tg st t with
           | Some p =>
               match tgs st !! p with
               | Some tp => get3 (has_rules tp) rw
               | None => false
               end
           | None => false
           end || tg_limited t rw.
Proof.
  intros Ht. unfold tg_update_has_rules. rewrite (get_tg_Some _ _ _ Ht). simpl.
  fold (parent_tg st t).
  destruct (parent_tg st t) as [p|] eqn:Hp.
  - destruct (parent_tg_exists _ _ _ Hp) as (tp & Htp).
    rewrite (get_tg_Some _ _ _ Htp). simpl. rewrite Htp.
    eexists. split; [reflexivity|]. by intros [].
  - simpl. eexists. split; [reflexivity|]. by intros [].
Qed.

Lemma same_hierarchy_sym (st st' : state) :
  same_hierarchy st st' -> same_hierarchy st' st.
Proof.
  intros H id. specialize (H id).
  by destruct (tgs st !! id), (tgs st' !! id).
Qed.

Lemma same_hierarchy_lookup (st st' : state) (id : nat) (t : throtl_grp) :
  same_hierarchy st st' -> tgs st !! id = Some t ->
  exists t', tgs st' !! id = Some t' /\ service_queue t' = service_queue t.
Proof.
  intros H Ht. specialize (H id). rewrite Ht in H.
  destruct (tgs st' !! id); [eauto | done].
Qed.

(** Limits on a path carry over between two arenas with the same hierarchy
    that agree on the limits of a set of groups closed under parents. *)
Lemma limit_on_path_transfer (st st' : state) (inside : nat -> Prop) (rw : dir) :
  same_hierarchy st st' ->
  (forall id t t', inside id -> tgs st !! id = Some t -> tgs st' !! id = Some t' ->
     tg_limited t' rw = tg_limited t rw) ->
  (forall id t p, inside id -> tgs st !! id = Some t -> parent_tg st t = Some p ->
     inside p) ->
  forall id, inside id -> limit_on_path st rw id -> limit_on_path st' rw id.
Proof.
  intros Hh Hlim Hclosed id Hin Hpath.
  induction Hpath as [id t Ht Hl | id t p Ht Hp Hpath IH].
  - destruct (same_hierarchy_lookup _ _ _ _ Hh Ht) as (t' & Ht' & _).
    eapply limit_here; [done|]. by rewrite (Hlim id t t').
  - destruct (same_hierarchy_lookup _ _ _ _ Hh Ht) as (t' & Ht' & _).
    eapply limit_above; [done | | apply IH; eauto].
    by rewrite (same_hierarchy_parent_tg st st' id t t').
Qed.

Section HasRulesWalk.

(** The arena after the limit of the group [x] was written, before the
    walk. *)
Variables (st0 : state) (x : nat).

(** The groups that are not below [x] have correct has_rules[]: the write
    did not touch what they depend on. *)
Hypothesis outside_ok : forall id, ~ below st0 x id -> has_rules_ok st0 id.

Lemma walked_lookup (st : state) (id : nat) (t0 : throtl_grp) :
  walked st0 st -> tgs st0 !! id = Some t0 ->
  exists t, tgs st !! id = Some t /\ set_has_rules (has_rules t0) t = t0.
Proof.
  intros H Ht. specialize (H id). rewrite Ht in H.
  destruct (tgs st !! id); [eauto | done].
Qed.

Lemma walked_same_hierarchy (st : state) : walked st0 st -> same_hierarchy st0 st.
Proof.
  intros H id. specialize (H id).
  destruct (tgs st0 !! id), (tgs st !! id); try done.
  by rewrite <- H.
Qed.

Lemma walked_limited (st : state) (id : nat) (t0 t : throtl_grp) (rw : dir) :
  walked st0 st -> tgs st0 !! id = Some t0 -> tgs st !! id = Some t ->
  tg_limited t rw = tg_limited t0 rw.
Proof.
  intros H Ht0 Ht. specialize (H id). rewrite Ht0, Ht in H. by rewrite <- H.
Qed.

Lemma walk_inv_start : walk_inv st0 x st0 [].
Proof.
  split.
  - intros id. by destruct (tgs st0 !! id) as [[]|].
  - intros id t Ht [Hin|Hout] rw; [by apply elem_of_nil in Hin|].
    by apply outside_ok.
Qed.

Lemma walk_inv_step (st : state) (visited : list nat) (id : nat) :
  walk_inv st0 x st visited ->
  is_Some (tgs st0 !! id) ->
  (forall t0 p, tgs st0 !! id = Some t0 -> parent_tg st0 t0 = Some p ->
     below st0 x p -> p ∈ visited) ->
  exists st', tg_update_has_rules st id = Ok st' /\ walk_inv st0 x st' (visited ++ [id]).
Proof.
  intros [Hw Hok] [t0 Ht0] Hpre.
  destruct (walked_lookup _ _ _ Hw Ht0) as (t & Ht & Heq).
  destruct (tg_update_has_rules_run st id t Ht) as (hr & Hrun & Hhr).
  eexists. split; [exact Hrun|]. split.
  - intros id'. simpl. destruct (decide (id = id')) as [<-|Hne].
    + rewrite lookup_insert_eq, Ht0. by rewrite <- Heq.
    + rewrite lookup_insert_ne by done. apply Hw.
  - intros id' t' Ht' Hin rw. simpl in Ht'.
    destruct (decide (id = id')) as [<-|Hne].
    + rewrite lookup_insert_eq in Ht'. injection Ht' as <-. simpl.
      rewrite Hhr, (limit_on_path_inv st0 rw id t0 Ht0).
      rewrite (same_hierarchy_parent_tg st0 st id t0 t (walked_same_hierarchy _ Hw) Ht0 Ht).
      rewrite (walked_limited st id t0 t rw Hw Ht0 Ht).
      rewrite orb_true_iff.
      destruct (parent_tg st0 t0) as [p|] eqn:Hp.
      * destruct (parent_tg_exists _ _ _ Hp) as (tp0 & Htp0).
        destruct (walked_lookup _ _ _ Hw Htp0) as (tp & Htp & _).
        rewrite Htp.
        assert (Hpok : get3 (has_rules tp) rw = true <-> limit_on_path st0 rw p).
        { apply Hok; [done|].
          destruct (decide (p ∈ visited)) as [|Hnv]; [by left|right].
          intros Hb. apply Hnv. by eapply Hpre. }
        rewrite Hpok. split.
        -- intros [H|H]; [right; eauto | by left].
        -- intros [H|(p' & [= <-] & H)]; [by right | by left].
      * split.
        -- intros [H|H]; [done | by left].
        -- intros [H|(p' & [=] & _)]. by right.
    + rewrite lookup_insert_ne in Ht' by done.
      apply (Hok id' t' Ht').
      destruct Hin as [Hin|Hout]; [|by right].
      apply elem_of_app in Hin as [Hin|Hin]; [by left|].
      apply list_elem_of_singleton in Hin. congruence.
Qed.

Lemma walk_inv_run (order visited : list nat) (st : state) :
  walk_inv st0 x st visited ->
  (forall id, id ∈ order -> is_Some (tgs st0 !! id)) ->
  (forall l1 id l2 t0 p, order = l1 ++ id :: l2 ->
     tgs st0 !! id = Some t0 -> parent_tg st0 t0 = Some p -> below st0 x p ->
     p ∈ visited ++ l1) ->
  exists st', update_has_rules_walk st order = Ok st'
    /\ walk_inv st0 x st' (visited ++ order).
Proof.
  revert visited st.
  induction order as [|id order IH]; intros visited st Hinv Hex Hpre.
  - exists st. by rewrite app_nil_r.
  - destruct (walk_inv_step st visited id Hinv) as (st1 & Hrun & Hinv1).
    + apply Hex. by left.
    + intros t0 p Ht0 Hp Hb.
      specialize (Hpre [] id order t0 p eq_refl Ht0 Hp Hb).
      by rewrite app_nil_r in Hpre.
    + destruct (IH (visited ++ [id]) st1 Hinv1) as (st' & Hrun' & Hinv').
      * intros id' Hin. apply Hex. by right.
      * intros l1 id' l2 t0 p Horder Ht0 Hp Hb.
        rewrite <- app_assoc. simpl.
        apply (Hpre (id :: l1) id' l2 t0 p); [by rewrite Horder | done..].
      * exists st'. simpl. rewrite Hrun. simpl.
        split; [done|]. by rewrite <- app_assoc in Hinv'.
Qed.

(** The walk in pre-order from [x] leaves correct has_rules[] everywhere. *)
Lemma update_has_rules_walk_ok (order : list nat) :
  (forall id, id ∈ order -> is_Some (tgs st0 !! id)) ->
  (forall id, below st0 x id -> id ∈ order) ->
  (forall l1 id l2 t0 p, order = l1 ++ id :: l2 ->
     tgs st0 !! id = Some t0 -> parent_tg st0 t0 = Some p -> below st0 x p ->
     p ∈ l1) ->
  exists st', update_has_rules_walk st0 order = Ok st'
    /\ forall id, has_rules_ok st' id.
Proof.
  intros Hex Hcover Hpre.
  destruct (walk_inv_run order [] st0 walk_inv_start Hex) as (st' & Hrun & Hw & Hok).
  { intros. simpl. eauto. }
  exists st'. split; [done|].
  intros id t rw Ht. simpl in Hok.
  assert (Hpath : limit_on_path st' rw id <-> limit_on_path st0 rw id).
  { pose proof (walked_same_hierarchy _ Hw) as Hh.
    split; apply (limit_on_path_transfer _ _ (fun _ => True)); auto.
    - by apply same_hierarchy_sym.
    - intros id' t1 t2 _ H1 H2. symmetry. by eapply walked_limited.
    - intros id' t1 t2 _ H1 H2. by eapply walked_limited. }
  rewrite Hpath. apply (Hok id t Ht).
  destruct (decide (id ∈ order)) as [|Hno]; [by left|right].
  intros Hb. by apply Hno, Hcover.
Qed.

End HasRulesWalk.

Section HasRulesFakeDevice.

Variables (st : state) (fd : fake_device).

Hypothesis fd_tgs_exist : forall id, id ∈ fd_tgs fd -> is_Some (tgs st !! id).

(** The groups of a fake device are outside the hierarchy of the blkgs:
    they have no parent group ([fd_throtl_init] links the members below the
    root service queue of their device) and are the parent of no group. *)
Hypothesis fd_tgs_top : forall id t,
  id ∈ fd_tgs fd -> tgs st !! id = Some t -> parent_tg st t = None.
Hypothesis fd_tgs_childless : forall id t p,
  tgs st !! id = Some t -> parent_tg st t = Some p -> p ∉ fd_tgs fd.

Hypothesis others_ok : forall id, id ∉ fd_tgs fd -> has_rules_ok st id.

Lemma fd_inv_put (st' : state) (visited : list nat) (id : nat)
    (t : throtl_grp) (b i : arr3 Z) :
  fd_inv st fd st' visited -> id ∈ fd_tgs fd -> tgs st' !! id = Some t ->
  let t2 := set_iops i (set_bps b t) in
  fd_inv st fd
    (put_tg st' id
       (set_has_rules
          (Arr3 (tg_limited t2 READ) (tg_limited t2 WRITE) (tg_limited t2 RANDW)) t2))
    (visited ++ [id]).
Proof.
  intros (Hh & Hout & Hvis) Hin Ht t2. split; [|split].
  - eapply same_hierarchy_trans; [exact Hh|].
    by apply (same_hierarchy_put_tg _ _ t).
  - intros id' Hid'. simpl. rewrite lookup_insert_ne; [by apply Hout|].
    intros <-. done.
  - intros id' t' Hin' Ht' rw. simpl in Ht'.
    destruct (decide (id = id')) as [<-|Hne].
    + rewrite lookup_insert_eq in Ht'. injection Ht' as <-. by destruct rw.
    + rewrite lookup_insert_ne in Ht' by done.
      apply (Hvis id' t'); [|done].
      apply elem_of_app in Hin' as [?|Hin']; [done|].
      apply list_elem_of_singleton in Hin'. congruence.
Qed.

Lemma fd_inv_lookup (st' : state) (visited : list nat) (id : nat) :
  fd_inv st fd st' visited -> id ∈ fd_tgs fd -> exists t, tgs st' !! id = Some t.
Proof.
  intros (Hh & _) Hin. destruct (fd_tgs_exist id Hin) as (t & Ht).
  destruct (same_hierarchy_lookup _ _ _ _ Hh Ht) as (t' & Ht' & _). eauto.
Qed.

Lemma fd_members_run (ms : list fake_device_member) (st' : state)
    (visited : list nat) :
  fd_inv st fd st' visited ->
  (forall m, m ∈ ms -> fm_tg m ∈ fd_tgs fd) ->
  exists st'', fd_members_update_has_rules st' (fd_tg fd) ms = Ok st''
    /\ fd_inv st fd st'' (visited ++ map fm_tg ms).
Proof.
  revert st' visited.
  induction ms as [|m ms IH]; intros st' visited Hinv Hms.
  - exists st'. simpl. by rewrite app_nil_r.
  - destruct (fd_inv_lookup st' visited (fd_tg fd) Hinv) as (h & Hh); [by left|].
    destruct (fd_inv_lookup st' visited (fm_tg m) Hinv) as (t & Ht).
    { apply Hms. by left. }
    pose proof (fd_inv_put st' visited (fm_tg m) t (bps h) (iops h) Hinv
                  (Hms m ltac:(by left)) Ht) as Hinv1.
    destruct (IH _ _ Hinv1) as (st'' & Hrun & Hinv'').
    { intros m' Hm'. apply Hms. by right. }
    exists st''. simpl. unfold fd_member_update_has_rules.
    rewrite (get_tg_Some _ _ _ Hh). simpl. rewrite (get_tg_Some _ _ _ Ht). simpl.
    split; [exact Hrun|]. by rewrite <- app_assoc in Hinv''.
Qed.

(** The recomputation for a fake device leaves correct has_rules[]
    everywhere. *)
Lemma tg_fd_update_has_rules_ok :
  exists st', tg_fd_update_has_rules_recursively st fd = Ok st'
    /\ forall id, has_rules_ok st' id.
Proof.
  destruct (fd_tgs_exist (fd_tg fd)) as (h & Hh); [by left|].
  assert (Hinv0 : fd_inv st fd st []).
  { split; [apply same_hierarchy_refl|]. split; [done|].
    intros id t Hin. by apply elem_of_nil in Hin. }
  pose proof (fd_inv_put st [] (fd_tg fd) h (bps h) (iops h) Hinv0
                ltac:(by left) Hh) as Hinv1.
  destruct (fd_members_run (fd_head fd) _ _ Hinv1) as (st' & Hrun & Hh' & Hout & Hvis).
  { intros m Hm. right. apply list_elem_of_fmap. eauto. }
  exists st'. split.
  - unfold tg_fd_update_has_rules_recursively. rewrite (get_tg_Some _ _ _ Hh).
    simpl. destruct h. exact Hrun.
  - intros id t rw Ht.
    destruct (decide (id ∈ fd_tgs fd)) as [Hin|Hnin].
    + rewrite (Hvis id t Hin Ht rw), (limit_on_path_inv st' rw id t Ht).
      destruct (fd_tgs_exist id Hin) as (t0 & Ht0).
      rewrite (same_hierarchy_parent_tg st st' id t0 t Hh' Ht0 Ht).
      rewrite (fd_tgs_top id t0 Hin Ht0).
      split; [by left | by intros [?|(p & [=] & _)]].
    + rewrite Hout in Ht by done.
      rewrite (others_ok id Hnin t rw Ht).
      split.
      * apply (limit_on_path_transfer st st' (fun i => i ∉ fd_tgs fd));
          [exact Hh' | | | exact Hnin].
        -- intros id' t1 t2 Hid' H1 H2. rewrite Hout in H2 by done. congruence.
        -- intros id' t1 p Hid' H1 Hp. by eapply fd_tgs_childless.
      * apply (limit_on_path_transfer st' st (fun i => i ∉ fd_tgs fd));
          [by apply same_hierarchy_sym | | | exact Hnin].
        -- intros id' t1 t2 Hid' H1 H2. rewrite Hout in H1 by done. congruence.
        -- intros id' t1 p Hid' H1 Hp. pose proof H1 as H1'.
           rewrite Hout in H1' by done.
           rewrite (same_hierarchy_parent_tg st st' id' t1 t1 Hh' H1' H1) in Hp.
           by eapply fd_tgs_childless.
Qed.

End HasRulesFakeDevice.

(** C4: after either recomputation path has run, has_rules[rw] of every
    group is true if and only if the group or an ancestor on its path to the
    device root has a finite bps or iops limit for [rw].

    The first path is the walk of [tg_set_conf] from the group [x] whose
    limit was written: the iterator yields every group below [x], each after
    its parent, and the groups that are not below [x] were correct before.
    The second is [tg_fd_update_has_rules_recursively] on a fake device,
    whose groups have no parent group and no child group. *)
Theorem has_rules_recomputed :
  (forall (st0 : state) (x : nat) (order : list nat),
     (forall id, ~ below st0 x id -> has_rules_ok st0 id) ->
     (forall id, id ∈ order -> is_Some (tgs st0 !! id)) ->
     (forall id, below st0 x id -> id ∈ order) ->
     (forall l1 id l2 t0 p, order = l1 ++ id :: l2 ->
        tgs st0 !! id = Some t0 -> parent_tg st0 t0 = Some p ->
        below st0 x p -> p ∈ l1) ->
     exists st', update_has_rules_walk st0 order = Ok st'
       /\ forall id, has_rules_ok st' id)
  /\ (forall (st : state) (fd : fake_device),
        (forall id, id ∈ fd_tgs fd -> is_Some (tgs st !! id)) ->
        (forall id t, id ∈ fd_tgs fd -> tgs st !! id = Some t ->
           parent_tg st t = None) ->
        (forall id t p, tgs st !! id = Some t -> parent_tg st t = Some p ->
           p ∉ fd_tgs fd) ->
        (forall id, id ∉ fd_tgs fd -> has_rules_ok st id) ->
        exists st', tg_fd_update_has_rules_recursively st fd = Ok st'
          /\ forall id, has_rules_ok st' id).
Proof.
  split.
  - intros st0 x order Hout Hex Hcover Hpre.
    by apply (update_has_rules_walk_ok st0 x).
  - intros st fd Hex Htop Hchildless Hothers.
    by apply tg_fd_update_has_rules_ok.
Qed.

Lemma st_limit_written_lookup (id : nat) (t : throtl_grp) :
  tgs st_limit_written !! id = Some t ->
  (id = 0%nat /\ parent_tg st_limit_written t = None)
  \/ (id = 5%nat /\ parent_tg st_limit_written t = Some 0%nat).
Proof.
  intros Ht.
  destruct (decide (id = 0%nat)) as [->|H0].
  { left. vm_compute in Ht. injection Ht as <-. done. }
  destruct (decide (id = 5%nat)) as [->|H5].
  { right. vm_compute in Ht. injection Ht as <-. done. }
  cbv [st_limit_written tgs] in Ht.
  rewrite lookup_insert_ne, lookup_singleton_ne in Ht by done.
  discriminate.
Qed.

Lemma st_limit_written_below (id : nat) (t : throtl_grp) :
  tgs st_limit_written !! id = Some t -> below st_limit_written 0 id.
Proof.
  intros Ht. destruct (st_limit_written_lookup id t Ht) as [[-> _]|[-> Hp]].
  - apply below_refl.
  - eapply below_step; [exact Ht | exact Hp | apply below_refl].
Qed.

Lemma st_fd_limit_written_lookup (id : nat) (t : throtl_grp) :
  tgs st_fd_limit_written !! id = Some t ->
  (id = 10%nat \/ id = 11%nat) /\ parent_tg st_fd_limit_written t = None.
Proof.
  intros Ht.
  destruct (decide (id = 10%nat)) as [->|H0].
  { vm_compute in Ht. injection Ht as <-. auto. }
  destruct (decide (id = 11%nat)) as [->|H5].
  { vm_compute in Ht. injection Ht as <-. auto. }
  cbv [st_fd_limit_written tgs] in Ht.
  rewrite lookup_insert_ne, lookup_singleton_ne in Ht by done.
  discriminate.
Qed.

Lemma has_rules_recomputed_witness :
  (exists st' t, update_has_rules_walk st_limit_written [0%nat; 5%nat] = Ok st'
     /\ tgs st' !! 5%nat = Some t
     /\ get3 (has_rules t) READ = true /\ limit_on_path st' READ 5)
  /\ (exists st' t, tg_fd_update_has_rules_recursively st_fd_limit_written fd7 = Ok st'
        /\ tgs st' !! 11%nat = Some t
        /\ get3 (has_rules t) READ = true /\ limit_on_path st' READ 11).
Proof.
  destruct has_rules_recomputed as [Hwalk Hfd]. split.
  - destruct (Hwalk st_limit_written 0%nat [0%nat; 5%nat])
      as (st' & Hrun & Hok).
    + intros id Hnb t rw Ht. destruct Hnb. by eapply st_limit_written_below.
    + intros id Hin. apply list_elem_of_In in Hin.
      destruct Hin as [<-|[<-|[]]]; vm_compute; eauto.
    + intros id Hb. destruct Hb as [|id t p Ht _ _]; [by left|].
      destruct (st_limit_written_lookup id t Ht) as [[-> _]|[-> _]];
        [by left | by right; left].
    + intros l1 id l2 t0 p Horder Ht0 Hp _.
      destruct (st_limit_written_lookup id t0 Ht0) as [[-> Hp']|[-> Hp']];
        rewrite Hp' in Hp; [discriminate|]. injection Hp as <-.
      destruct l1 as [|a [|b l1]]; simpl in Horder; simplify_eq; [by left|].
      destruct l1; discriminate.
    + assert (exists t, tgs st' !! 5%nat = Some t /\ get3 (has_rules t) READ = true)
        as (t & Ht & Hr).
      { clear Hok. vm_compute in Hrun. injection Hrun as <-.
        eexists. split; [vm_compute; reflexivity | reflexivity]. }
      exists st', t. repeat split; try done. by apply (Hok 5%nat t READ Ht).
  - destruct (Hfd st_fd_limit_written fd7) as (st' & Hrun & Hok).
    + intros id Hin. apply list_elem_of_In in Hin.
      destruct Hin as [<-|[<-|[]]]; vm_compute; eauto.
    + intros id t _ Ht. by destruct (st_fd_limit_written_lookup id t Ht).
    + intros id t p Ht Hp.
      destruct (st_fd_limit_written_lookup id t Ht) as [_ Hp'].
      rewrite Hp' in Hp. discriminate.
    + intros id Hnin t rw Ht.
      destruct (st_fd_limit_written_lookup id t Ht) as [[->| ->] _];
        destruct Hnin; [by left | by right; left].
    + assert (exists t, tgs st' !! 11%nat = Some t /\ get3 (has_rules t) READ = true)
        as (t & Ht & Hr).
      { clear Hok. vm_compute in Hrun. injection Hrun as <-.
        eexists. split; [vm_compute; reflexivity | reflexivity]. }
      exists st', t. repeat split; try done. by apply (Hok 11%nat t READ Ht).
Defined.

(** * Further properties of the code *)

(** ** The verdict of tg_may_dispatch *)

#[local] Arguments bps_limit_wait : simpl never.
#[local] Arguments iops_limit_wait : simpl never.

Lemma iops_limit_wait_nonneg (HZ now : Z) (tg : throtl_grp) (d : dir)
    (o : option Z) :
  iops_limit_wait HZ now tg d = Ok o -> forall jw, o = Some jw -> 0 <= jw.
Proof.
  unfold iops_limit_wait. intros H jw ->.
  destruct (_ <=? _); [discriminate|]. destruct (_ =? 0); [discriminate|].
  injection H as <-. destruct (_ <? _); [apply u64_range | lia].
Qed.

Lemma tg_with_in_bps_limit_verdict (HZ now : Z) (tg : throtl_grp) (b : bio)
    (w0 : Z) (ok : bool) (w : Z) :
  tg_with_in_bps_limit HZ now tg b w0 = Ok (ok, w) -> ok = (w =? 0).
Proof.
  unfold tg_with_in_bps_limit. intros H. run_cases H; by injection H as <- <-.
Qed.

Lemma tg_with_in_iops_limit_verdict (HZ now : Z) (tg : throtl_grp) (b : bio)
    (w0 : Z) (ok : bool) (w : Z) :
  tg_with_in_iops_limit HZ now tg b w0 = Ok (ok, w) -> ok = (w =? 0).
Proof.
  unfold tg_with_in_iops_limit. intros H. run_cases H; by injection H as <- <-.
Qed.

Lemma tg_with_in_iops_limit_wait_nonneg (HZ now : Z) (tg : throtl_grp) (b : bio)
    (ok : bool) (w : Z) :
  tg_with_in_iops_limit HZ now tg b 0 = Ok (ok, w) -> 0 <= w.
Proof.
  unfold tg_with_in_iops_limit. intros H.
  run_cases H. injection H as _ <-.
  assert (Ha : 0 <= a).
  { run_cases E; injection E as <-; try lia.
    match goal with
    | |- 0 <= match ?o with _ => _ end =>
        destruct o eqn:Eo; [by eapply iops_limit_wait_nonneg | done]
    end. }
  run_cases E0; injection E0 as <-; [|done].
  match goal with
  | E : iops_limit_wait _ _ _ RANDW = Ok ?o |- _ =>
      destruct (limit_wait_nonneg o a (iops_limit_wait_nonneg _ _ _ _ _ E) Ha)
        as [_ Hcase]
  end.
  apply (Hcase (iops_unlimited tg (rw_dir (bio_data_dir b)))).
Qed.

(** X1: the verdict and the wait of [tg_may_dispatch] agree: a bio that may
    be dispatched waits 0 jiffies, a bio that may not waits at least one. *)
Theorem tg_may_dispatch_wait (HZ now : Z) (tg tg' : throtl_grp) (b : bio)
    (ok : bool) (w : Z) :
  tg_may_dispatch HZ now tg b = Ok (ok, w, tg') ->
  if ok then w = 0 else 1 <= w.
Proof.
  unfold tg_may_dispatch. intros H.
  destruct (_ && _); [by injection H as <- <- _|].
  destruct (tg_with_in_bps_limit _ _ _ _ _) as [[bps_ok bps_wait]|] eqn:Eb;
    simpl in H; [|discriminate].
  pose proof (tg_with_in_bps_limit_verdict _ _ _ _ _ _ _ Eb) as Hvb.
  pose proof (tg_with_in_bps_limit_wait_nonneg _ _ _ _ _ _ Eb) as Hnb.
  destruct bps_ok; simpl in H.
  - destruct (tg_with_in_iops_limit _ _ _ _ _) as [[iops_ok iops_wait]|] eqn:Ei;
      simpl in H; [|discriminate].
    pose proof (tg_with_in_iops_limit_verdict _ _ _ _ _ _ _ Ei) as Hvi.
    pose proof (tg_with_in_iops_limit_wait_nonneg _ _ _ _ _ _ Ei) as Hni.
    destruct iops_ok; simpl in H; injection H as <- <- _; [done|].
    symmetry in Hvi. apply Z.eqb_neq in Hvi. lia.
  - injection H as <- <- _. symmetry in Hvb. apply Z.eqb_neq in Hvb. lia.
Qed.

Lemma randw_untouched_refl (tg : throtl_grp) : randw_untouched tg tg.
Proof. by repeat split. Qed.

Lemma randw_untouched_trans (tg1 tg2 tg3 : throtl_grp) :
  randw_untouched tg1 tg2 -> randw_untouched tg2 tg3 -> randw_untouched tg1 tg3.
Proof.
  unfold randw_untouched. intros H12 H23.
  repeat match goal with H : _ /\ _ |- _ => destruct H end.
  repeat split; congruence.
Qed.

Lemma throtl_start_new_slice_randw (HZ now : Z) (tg : throtl_grp) (rw : bool) :
  randw_untouched tg (throtl_start_new_slice HZ now tg rw).
Proof. by destruct rw; repeat split. Qed.

Lemma throtl_extend_slice_randw (HZ : Z) (tg : throtl_grp) (rw : bool) (e : Z) :
  randw_untouched tg (throtl_extend_slice HZ tg rw e).
Proof. by destruct rw; repeat split. Qed.

Lemma renew_slice_randw (HZ now : Z) (tg : throtl_grp) (d : dir) :
  randw_untouched tg (renew_slice HZ now tg d).
Proof.
  unfold renew_slice.
  destruct (throtl_slice_used _ _ _); [apply throtl_start_new_slice_randw|].
  destruct (time_before _ _);
    [apply throtl_extend_slice_randw | apply randw_untouched_refl].
Qed.

Lemma cover_wait_randw (HZ now : Z) (tg : throtl_grp) (d : dir) (w : Z) :
  randw_untouched tg (cover_wait HZ now tg d w).
Proof.
  unfold cover_wait.
  destruct (time_before _ _);
    [apply throtl_extend_slice_randw | apply randw_untouched_refl].
Qed.

(** X2: [tg_may_dispatch] never renews the RANDW window.  The slice helpers
    take the direction as a [bool], so the calls made for RANDW act on the
    WRITE slice: the RANDW slice bounds and RANDW counters of the group are
    as before the call, and so are its limits, flags and queues. *)
Theorem tg_may_dispatch_keeps_randw_window (HZ now : Z) (tg tg' : throtl_grp)
    (b : bio) (ok : bool) (w : Z) :
  tg_may_dispatch HZ now tg b = Ok (ok, w, tg') -> randw_untouched tg tg'.
Proof.
  unfold tg_may_dispatch. intros H.
  destruct (_ && _); [injection H as _ _ <-; apply randw_untouched_refl|].
  set (tg1 := renew_slice HZ now tg (rw_dir (bio_data_dir b))) in *.
  set (tg2 := renew_slice HZ now tg1 RANDW) in *.
  assert (H2 : randw_untouched tg tg2).
  { eapply randw_untouched_trans; apply renew_slice_randw. }
  destruct (tg_with_in_bps_limit _ _ _ _ _) as [[bps_ok bps_wait]|];
    simpl in H; [|discriminate].
  destruct (if bps_ok then _ else _) as [[iops_ok iops_wait]|];
    simpl in H; [|discriminate].
  destruct (bps_ok && iops_ok); injection H as _ _ <-; [done|].
  eapply randw_untouched_trans; [exact H2|].
  eapply randw_untouched_trans; apply cover_wait_randw.
Qed.

Lemma tg_may_dispatch_keeps_randw_window_witness :
  exists tg', tg_may_dispatch 1000 5000 tg_randw_limited bio_read_4k = Ok (true, 0, tg')
    /\ get3 (slice_start tg') READ = 5000
    /\ get3 (slice_start tg') WRITE = 5000
    /\ randw_untouched tg_randw_limited tg'.
Proof.
  eexists. split; [vm_compute; reflexivity|].
  split; [reflexivity|]. split; [reflexivity|].
  eapply tg_may_dispatch_keeps_randw_window with (HZ := 1000) (now := 5000)
    (b := bio_read_4k).
  vm_compute. reflexivity.
Defined.

Lemma tg_may_dispatch_wait_witness :
  exists w tg', tg_may_dispatch 1000 5000 tg_both_exhausted bio_read_4k
                = Ok (false, w, tg') /\ 1 <= w.
Proof.
  assert (H : exists tg', tg_may_dispatch 1000 5000 tg_both_exhausted bio_read_4k
                          = Ok (false, 103, tg'))
    by (eexists; vm_compute; reflexivity).
  destruct H as (tg' & H). exists 103, tg'. split; [exact H|].
  exact (tg_may_dispatch_wait _ _ _ _ _ _ _ H).
Defined.

(** ** A limit of zero requests per second *)

Lemma renew_slice_io_disp (HZ now : Z) (tg : throtl_grp) (d d' : dir) :
  get3 (io_disp (renew_slice HZ now tg d)) d' = get3 (io_disp tg) d'
  \/ get3 (io_disp (renew_slice HZ now tg d)) d' = 0.
Proof.
  unfold renew_slice.
  destruct (throtl_slice_used _ _ _).
  - destruct d, d'; simpl; auto.
  - destruct (time_before _ _); auto.
Qed.

(** X3: an IOPS limit of 0 is not "nothing may pass": the first bio that is
    checked against it makes [tg_may_dispatch] divide by the limit.  The
    limit 0 is what an iops file stores for a value that is a nonzero
    multiple of 2^32: only the value 0 is turned into "unlimited", and the
    store goes through an [unsigned int]. *)
Theorem tg_may_dispatch_iops_zero (HZ now : Z) (tg : throtl_grp) (b : bio) :
  let rw := rw_dir (bio_data_dir b) in
  get3 (iops tg) rw = 0 ->
  bps_unlimited tg rw = true -> bps_unlimited tg RANDW = true ->
  0 <= get3 (io_disp tg) rw < UINT_MAX ->
  tg_may_dispatch HZ now tg b = Fault DIV_ZERO.
Proof.
  intros rw Hiops Hb1 Hb2 Hio. unfold tg_may_dispatch. fold rw.
  assert (Hu : iops_unlimited tg rw = false).
  { unfold iops_unlimited. rewrite Hiops. reflexivity. }
  rewrite Hb1, Hu. simpl.
  set (tg2 := renew_slice HZ now (renew_slice HZ now tg rw) RANDW).
  assert (Hfr : randw_untouched tg tg2).
  { eapply randw_untouched_trans; apply renew_slice_randw. }
  destruct Hfr as (_ & _ & _ & _ & _ & _ & Hbps & Hiops2 & _).
  assert (Hio2 : 0 <= get3 (io_disp tg2) rw < UINT_MAX).
  { destruct (renew_slice_io_disp HZ now (renew_slice HZ now tg rw) RANDW rw) as [E|E];
      fold tg2 in E; rewrite E; [|unfold UINT_MAX; lia].
    destruct (renew_slice_io_disp HZ now tg rw rw) as [E'|E']; rewrite E';
      [done | unfold UINT_MAX; lia]. }
  unfold tg_with_in_bps_limit, bps_unlimited in *. fold rw.
  rewrite Hbps, Hb1, Hb2. simpl.
  unfold tg_with_in_iops_limit, iops_unlimited. fold rw.
  rewrite Hiops2, Hiops. simpl.
  unfold iops_limit_wait. rewrite Hiops2, Hiops.
  rewrite Z.mul_0_l. change (u64 0) with 0. rewrite Zdiv_0_l.
  change (UINT_MAX <? 0) with false. cbv iota.
  assert (Hle : (u32 (get3 (io_disp tg2) rw + 1) <=? 0) = false).
  { apply Z.leb_gt. unfold UINT_MAX in Hio2. rewrite u32_small; lia. }
  rewrite Hle. reflexivity.
Qed.

Lemma tg_may_dispatch_iops_zero_witness :
  get3 (iops (write_conf_field (throtl_pd_init (SqTd 1) 1) (FieldIops READ)
                false (2 ^ 32))) READ = 0
  /\ tg_may_dispatch 1000 5000
       (write_conf_field (throtl_pd_init (SqTd 1) 1) (FieldIops READ) false (2 ^ 32))
       bio_read_4k = Fault DIV_ZERO.
Proof.
  split; [reflexivity|].
  apply tg_may_dispatch_iops_zero; [reflexivity..|].
  vm_compute. split; [intros H; discriminate H | reflexivity].
Defined.

(** ** The RANDW window under throtl_trim_slice *)

Lemma time_before_lt (a b : Z) :
  0 <= a -> a < b -> b < 2 ^ 63 -> time_before a b = true.
Proof.
  intros Ha Hab Hb. unfold time_before, time_after, s64, u64.
  replace ((a - b) mod 2 ^ 64) with (a - b + 2 ^ 64).
  - assert (H : (a - b + 2 ^ 64 <? 2 ^ 63) = false) by (apply Z.ltb_ge; lia).
    rewrite H. apply Z.ltb_lt. lia.
  - apply (Z.mod_unique_pos _ _ (-1)); lia.
Qed.

(** X4: [throtl_trim_slice] never writes [slice_end[RANDW]]: its call of
    [throtl_set_slice_end] for RANDW lands on the WRITE slice.  A RANDW trim
    that advances [slice_start[RANDW]] therefore leaves it after
    [slice_end[RANDW]], and every later RANDW trim of the group stops at the
    [BUG_ON] on the slice bounds. *)
Theorem throtl_trim_slice_randw_second_trim (HZ now now' : Z)
    (tg tg1 : throtl_grp) :
  0 < throtl_slice HZ ->
  0 <= get3 (slice_end tg) RANDW <= get3 (slice_start tg) RANDW ->
  get3 (slice_start tg) RANDW <= now < 2 ^ 63 ->
  throtl_trim_slice HZ now tg RANDW = Ok tg1 ->
  get3 (slice_end tg1) RANDW = get3 (slice_end tg) RANDW
  /\ (get3 (slice_start tg1) RANDW <> get3 (slice_start tg) RANDW ->
      throtl_trim_slice HZ now' tg1 RANDW = Fault BUG_ON).
Proof.
  intros HS Hend Hnow H. unfold throtl_trim_slice in H.
  destruct (time_before _ _); [discriminate|].
  destruct (throtl_slice_used _ _ _); [by injection H as <-|].
  simpl in H.
  set (n := u64 (now - at2 (slice_start tg)) / throtl_slice HZ) in *.
  destruct (n =? 0) eqn:Hn; [by injection H as <-|].
  destruct (_ && _); [by injection H as <-|].
  injection H as <-. simpl in *. split; [done|]. intros _.
  assert (Hel : u64 (now - at2 (slice_start tg)) = now - at2 (slice_start tg))
    by (apply u64_small; lia).
  assert (Hn1 : 1 <= n).
  { apply Z.eqb_neq in Hn.
    assert (0 <= n) by (apply Z.div_pos; [apply u64_range | done]). lia. }
  assert (Hmul : throtl_slice HZ * n <= now - at2 (slice_start tg)).
  { unfold n. rewrite Hel. apply Z.mul_div_le. done. }
  unfold throtl_trim_slice. simpl.
  rewrite time_before_lt; [done | lia | |];
    rewrite u64_small by nia; nia.
Qed.

Lemma throtl_trim_slice_randw_second_trim_witness :
  exists tg1, throtl_trim_slice 1000 5050 tg_randw_fresh RANDW = Ok tg1
    /\ get3 (slice_start tg1) RANDW = 5000
    /\ get3 (slice_end tg1) RANDW = 0
    /\ throtl_trim_slice 1000 5060 tg1 RANDW = Fault BUG_ON.
Proof.
  assert (H : exists tg1, throtl_trim_slice 1000 5050 tg_randw_fresh RANDW = Ok tg1
                /\ get3 (slice_start tg1) RANDW = 5000).
  { eexists. split; [vm_compute; reflexivity | reflexivity]. }
  destruct H as (tg1 & Hrun & Hstart). exists tg1.
  destruct (throtl_trim_slice_randw_second_trim 1000 5050 5060 tg_randw_fresh tg1)
    as [Hend Hbug]; [done | done | done | exact Hrun |].
  repeat split; [exact Hrun | exact Hstart | by rewrite Hend |].
  apply Hbug. rewrite Hstart. discriminate.
Defined.

(** ** Charging a bio *)

Lemma land_lnot_disjoint (x m : Z) : Z.land x m = 0 -> Z.land x (Z.lnot m) = x.
Proof.
  intros H. apply Z.bits_inj'. intros n Hn.
  pose proof (f_equal (fun z => Z.testbit z n) H) as Hb. simpl in Hb.
  rewrite Z.land_spec, Z.bits_0 in Hb.
  rewrite Z.land_spec, Z.lnot_spec by done.
  destruct (Z.testbit x n), (Z.testbit m n); simpl in *; congruence.
Qed.

Lemma lor_land_lnot (x m : Z) :
  Z.land x m = 0 -> Z.land (Z.lor x m) (Z.lnot m) = x.
Proof.
  intros H. rewrite Z.land_lor_distr_l, Z.land_lnot_diag, Z.lor_0_r.
  by apply land_lnot_disjoint.
Qed.

(** The bio that [throtl_charge_bio] leaves: marked, with its direction and
    size as before; clearing the mark gives back a bio that entered
    unmarked. *)
Lemma throtl_charge_bio_bio (tg : throtl_grp) (b : bio) :
  let b' := snd (throtl_charge_bio tg b) in
  bio_throttled b' = true
  /\ bio_data_dir b' = bio_data_dir b
  /\ bi_size b' = bi_size b
  /\ (bio_throttled b = false -> bio_clear_throttled b' = b).
Proof.
  unfold throtl_charge_bio, bio_throttled, bio_data_dir, bio_clear_throttled.
  simpl. destruct (Z.land (bi_rw b) REQ_THROTTLED =? 0) eqn:E; simpl.
  - apply Z.eqb_eq in E. repeat split.
    + rewrite Z.land_lor_distr_l, E, Z.land_diag. reflexivity.
    + rewrite Z.land_lor_distr_l.
      change (Z.land REQ_THROTTLED REQ_WRITE) with 0. by rewrite Z.lor_0_r.
    + intros _. rewrite lor_land_lnot by done. by destruct b.
  - rewrite E. repeat split. discriminate.
Qed.

Lemma charge_bio_run (st : state) (id bio_id : nat) (t : throtl_grp) (b : bio) :
  tgs st !! id = Some t -> bios st !! bio_id = Some b ->
  charge_bio st id bio_id
  = Ok (put_bio (put_tg st id (fst (throtl_charge_bio t b))) bio_id
          (snd (throtl_charge_bio t b))).
Proof.
  intros Ht Hb. unfold charge_bio, get_tg, get_bio. rewrite Ht, Hb. reflexivity.
Qed.

#[local] Arguments throtl_charge_bio : simpl never.

Section ChargedBio.

Variable HZ : Z.
Variable blkg_lookup_create : state -> nat -> nat -> ptr_or_err * state.

(** X5: a bio is throttled at most once.  Charging it to a group marks it;
    when it is submitted again, [blk_throtl_bio] lets it through without
    looking at any group, and the bio leaves as it first came: unmarked,
    with the charge to the group standing. *)
Theorem blk_throtl_bio_passes_charged_bio (st st1 : state) (q id bio_id : nat)
    (b : bio) :
  bios st !! bio_id = Some b ->
  bio_throttled b = false ->
  charge_bio st id bio_id = Ok st1 ->
  exists t b1,
    tgs st !! id = Some t
    /\ bios st1 !! bio_id = Some b1 /\ bio_throttled b1 = true
    /\ tgs st1 = <[id := fst (throtl_charge_bio t b)]> (tgs st)
    /\ blk_throtl_bio HZ blkg_lookup_create st1 q bio_id
       = Ok (false, set_bios (bios st) st1).
Proof.
  intros Hb Hthr Hcharge.
  destruct (tgs st !! id) as [t|] eqn:Ht;
    [|by unfold charge_bio, get_tg in Hcharge; rewrite Ht in Hcharge].
  rewrite (charge_bio_run _ _ _ _ _ Ht Hb) in Hcharge.
  assert (E1 : st1 = put_bio (put_tg st id (fst (throtl_charge_bio t b))) bio_id
                       (snd (throtl_charge_bio t b))) by congruence.
  clear Hcharge. subst st1.
  destruct (throtl_charge_bio_bio t b) as (Hm & _ & _ & Hclear).
  destruct (throtl_charge_bio t b) as [t' b'] eqn:Ec. simpl in Hm, Hclear.
  exists t, b'. split; [done|].
  split; [by simpl; rewrite lookup_insert_eq|]. split; [done|].
  split; [by rewrite Ec|].
  unfold blk_throtl_bio, get_bio. simpl. rewrite lookup_insert_eq. simpl.
  rewrite Hm. unfold blk_throtl_bio_out, get_bio. simpl.
  rewrite lookup_insert_eq. simpl. fold (bio_clear_throttled b').
  rewrite (Hclear Hthr). unfold put_bio, set_bios. simpl.
  by rewrite insert_insert_same, (insert_same _ _ _ Hb).
Qed.

End ChargedBio.

Lemma blk_throtl_bio_passes_charged_bio_witness :
  exists st1,
    charge_bio (st_over_limit bio_read_4k) 5 0 = Ok st1
    /\ blk_throtl_bio 1000 blkg_lookup_existing st1 1 0
       = Ok (false, set_bios (bios (st_over_limit bio_read_4k)) st1).
Proof.
  assert (H : exists st1, charge_bio (st_over_limit bio_read_4k) 5 0 = Ok st1)
    by (eexists; reflexivity).
  destruct H as (st1 & H). exists st1. split; [exact H|].
  destruct (blk_throtl_bio_passes_charged_bio 1000 blkg_lookup_existing
              (st_over_limit bio_read_4k) st1 1 5 0 bio_read_4k eq_refl eq_refl H)
    as (t & b1 & _ & _ & _ & _ & Hrun).
  exact Hrun.
Defined.

(** ** Membership of a queue in a fake device *)

(** X6: the two walks over the members of a fake device agree:
    [queue_in_fake_d] answers true exactly when [queue_to_fd_member] finds a
    member, the member found is the first one for that queue, and a fake
    device reported by [fake_d_has_limit] to limit a queue has a member for
    it (the lookups that follow the test in [blk_throtl_bio] do not return
    NULL). *)
Theorem queue_in_fake_d_member (fd : fake_device) (q : nat) :
  (queue_in_fake_d fd q = true <-> is_Some (queue_to_fd_member fd q))
  /\ (forall m, queue_to_fd_member fd q = Some m ->
        exists l1 l2, fd_head fd = l1 ++ m :: l2 /\ fm_queue m = q
          /\ forall m', m' ∈ l1 -> fm_queue m' <> q)
  /\ (forall st rw, fake_d_has_limit st fd rw q = Ok true ->
        is_Some (queue_to_fd_member fd q)).
Proof.
  unfold queue_in_fake_d, queue_to_fd_member, fake_d_has_limit.
  assert (Hiff : forall l : list fake_device_member,
            existsb (λ m, bool_decide (fm_queue m = q)) l = true
            <-> is_Some (find (λ m, bool_decide (fm_queue m = q)) l)).
  { induction l as [|m l IH]; simpl.
    - split; [discriminate | by intros [? ?]].
    - destruct (bool_decide (fm_queue m = q)); simpl; [|exact IH].
      split; eauto. }
  split; [apply Hiff|]. split.
  - generalize (fd_head fd). induction l as [|m0 l IH]; simpl; [discriminate|].
    intros m. destruct (bool_decide (fm_queue m0 = q)) eqn:E.
    + intros [= <-]. exists [], l. apply bool_decide_eq_true in E.
      repeat split; [done|]. intros m' Hm'. by apply elem_of_nil in Hm'.
    + intros Hf. destruct (IH m Hf) as (l1 & l2 & -> & Hq & Hl1).
      exists (m0 :: l1), l2. repeat split; [done|].
      intros m' Hm'. apply elem_of_cons in Hm' as [->|Hm']; [|by apply Hl1].
      by apply bool_decide_eq_false in E.
  - intros st rw H. apply Hiff.
    unfold queue_in_fake_d in H. by destruct (existsb _ _).
Qed.

(** ** Header groups of fake devices stay idle *)

Lemma is_header_fd_heads (st st' : state) (id : nat) :
  fd_heads st' = fd_heads st -> is_header st id -> is_header st' id.
Proof. unfold is_header. by intros ->. Qed.

Lemma keeps_same (st st' : state) :
  fd_heads st' = fd_heads st -> tgs st' = tgs st -> keeps st st'.
Proof.
  intros Hf Ht. split; [done|]. rewrite Ht. split; [done|].
  intros id h h' _ Hh Hh' Hi. rewrite Hh in Hh'. by injection Hh' as <-.
Qed.

Lemma keeps_refl (st : state) : keeps st st.
Proof. by apply keeps_same. Qed.

Lemma keeps_trans (st1 st2 st3 : state) :
  keeps st1 st2 -> keeps st2 st3 -> keeps st1 st3.
Proof.
  intros (Hf1 & Hd1 & Hi1) (Hf2 & Hd2 & Hi2).
  split; [congruence|]. split; [auto|].
  intros id h h3 Hhd Hh Hh3 Hidle.
  destruct (Hd1 id) as [h2 Hh2]; [eauto|].
  apply (Hi2 id h2 h3); [by apply (is_header_fd_heads st1) | done | done |].
  by apply (Hi1 id h h2).
Qed.

Lemma keeps_step (st0 st st' : state) :
  keeps st st' -> keeps st0 st -> keeps st0 st'.
Proof. intros H1 H2. by eapply keeps_trans. Qed.

Lemma keeps_fd_wf (st st' : state) : keeps st st' -> fd_wf st -> fd_wf st'.
Proof.
  intros (Hf & Hd & Hi) [Hidle Hapart Halloc]. split.
  - intros id h' Hhd Hh'.
    assert (Hhd0 : is_header st id) by (by apply (is_header_fd_heads st'); [|]).
    destruct Hhd0 as (blkcg & chain & fd & Hc & Hin & <-).
    destruct (Halloc _ _ _ Hc Hin) as [[h Hh] _].
    assert (Hhd0 : is_header st (fd_tg fd)) by (by exists blkcg, chain, fd).
    eapply Hi; eauto.
  - intros blkcg chain fd m Hc Hin Hm Hhd. rewrite Hf in Hc.
    apply (Hapart _ _ _ _ Hc Hin Hm).
    by apply (is_header_fd_heads st').
  - intros blkcg chain fd Hc Hin. rewrite Hf in Hc.
    destruct (Halloc _ _ _ Hc Hin) as [Hh Hm]. split; [by apply Hd|].
    intros m Hmin. apply Hd. by apply Hm.
Qed.

Lemma deref_Ok {A} (o : option A) (a : A) : deref o = Ok a -> o = Some a.
Proof. destruct o; [by intros [= ->] | discriminate]. Qed.

Lemma get_tg_Ok (st : state) (id : nat) (t : throtl_grp) :
  get_tg st id = Ok t -> tgs st !! id = Some t.
Proof.
  unfold get_tg. destruct (tgs st !! id); [by intros [= ->] | discriminate].
Qed.

(** Writing a group back: the step is kept when an idle header stays
    idle. *)
Lemma keeps_put_tg (st : state) (id : nat) (t t' : throtl_grp) :
  get_tg st id = Ok t ->
  (is_header st id -> idle t -> idle t') ->
  keeps st (put_tg st id t').
Proof.
  intros Ht Hidle. apply get_tg_Ok in Ht. split; [done|]. split.
  - intros j Hj. simpl. destruct (decide (id = j)) as [<-|Hne].
    + rewrite lookup_insert_eq. eauto.
    + by rewrite lookup_insert_ne.
  - intros j h h' Hhd Hh Hh' Hi. simpl in Hh'.
    destruct (decide (id = j)) as [E|Hne].
    + rewrite <- E in *. rewrite lookup_insert_eq in Hh'. injection Hh' as <-.
      rewrite Ht in Hh. injection Hh as <-. auto.
    + rewrite lookup_insert_ne in Hh' by done. rewrite Hh in Hh'.
      by injection Hh' as <-.
Qed.

Lemma keeps_put_tg_sq (st : state) (id : nat) (t t' : throtl_grp) :
  get_tg st id = Ok t ->
  nr_queued (service_queue t') = nr_queued (service_queue t) ->
  keeps st (put_tg st id t').
Proof.
  intros Ht He. eapply keeps_put_tg; [done|]. unfold idle. congruence.
Qed.

Lemma keeps_put_bio (st : state) (id : nat) (b : bio) : keeps st (put_bio st id b).
Proof. by apply keeps_same. Qed.

Lemma keeps_put_td (st : state) (q : nat) (d : throtl_data) : keeps st (put_td st q d).
Proof. by apply keeps_same. Qed.

Lemma keeps_put_sq (st st' : state) (r : sq_ref) (s s' : throtl_service_queue) :
  get_sq st r = Ok s -> nr_queued s' = nr_queued s ->
  put_sq st r s' = Ok st' -> keeps st st'.
Proof.
  destruct r as [id|q]; unfold get_sq, put_sq; intros Hg He Hp.
  - destruct (get_tg st id) as [t|] eqn:Ht; simpl in *; [|discriminate].
    injection Hg as <-. injection Hp as <-. by eapply keeps_put_tg_sq.
  - destruct (get_td st q) as [d|]; simpl in *; [|discriminate].
    injection Hp as <-. apply keeps_put_td.
Qed.

(** ** The token bucket *)

Lemma throtl_trim_slice_service_queue (HZ now : Z) (tg tg' : throtl_grp) (rw : dir) :
  throtl_trim_slice HZ now tg rw = Ok tg' -> service_queue tg' = service_queue tg.
Proof.
  unfold throtl_trim_slice. intros H.
  destruct (time_before _ _); [discriminate|].
  destruct (throtl_slice_used _ _ _); [by injection H as <-|].
  destruct (_ =? 0); [by injection H as <-|].
  destruct (_ && _); by injection H as <-.
Qed.

Lemma renew_slice_service_queue (HZ now : Z) (tg : throtl_grp) (d : dir) :
  service_queue (renew_slice HZ now tg d) = service_queue tg.
Proof. by destruct (renew_slice_randw HZ now tg d). Qed.

Lemma cover_wait_service_queue (HZ now : Z) (tg : throtl_grp) (d : dir) (w : Z) :
  service_queue (cover_wait HZ now tg d w) = service_queue tg.
Proof. by destruct (cover_wait_randw HZ now tg d w). Qed.

Lemma tg_may_dispatch_service_queue (HZ now : Z) (tg tg' : throtl_grp) (b : bio)
    (ok : bool) (w : Z) :
  tg_may_dispatch HZ now tg b = Ok (ok, w, tg') ->
  service_queue tg' = service_queue tg.
Proof.
  unfold tg_may_dispatch. intros H.
  destruct (_ && _); [by injection H as _ _ <-|].
  destruct (tg_with_in_bps_limit _ _ _ _ _) as [[bps_ok bps_wait]|];
    simpl in H; [|discriminate].
  destruct (if bps_ok then _ else _) as [[iops_ok iops_wait]|];
    simpl in H; [|discriminate].
  destruct (bps_ok && iops_ok); injection H as _ _ <-;
    by rewrite ?cover_wait_service_queue, ?renew_slice_service_queue.
Qed.

Lemma put_qn_service_queue (t : throtl_grp) (r : qn_ref) (n : throtl_qnode) :
  service_queue (put_qn t r n) = service_queue t.
Proof. unfold put_qn. by destruct (qr_on_parent r). Qed.

Lemma blkg_get_service_queue (t t' : throtl_grp) :
  blkg_get t = Ok t' -> service_queue t' = service_queue t.
Proof.
  unfold blkg_get. destruct (blkg_refcnt t); simpl; [|discriminate].
  by intros [= <-].
Qed.

Lemma throtl_rb_erase_nr_queued (n : nat) (sq : throtl_service_queue) :
  nr_queued (throtl_rb_erase n sq) = nr_queued sq.
Proof. unfold throtl_rb_erase. by destruct (decide _). Qed.

Create HintDb keeps.

(** The counts of a service queue after updates of its other fields. *)
Ltac nr_same :=
  rewrite ?put_qn_service_queue, ?throtl_rb_erase_nr_queued; simpl;
  repeat match goal with
         | |- context [if ?b then _ else _] => destruct b
         | |- context [match ?o with Some _ => _ | None => _ end] => destruct o
         end;
  first [reflexivity | by erewrite blkg_get_service_queue].

#[local] Hint Resolve keeps_put_bio keeps_put_td : keeps.
#[local] Hint Extern 1 (keeps _ (put_tg _ _ _)) =>
  eapply keeps_put_tg_sq; [eassumption | try nr_same] : keeps.
#[local] Hint Extern 1 (keeps _ ?st') =>
  match goal with
  | H : put_sq _ _ _ = Ok st' |- _ =>
      eapply keeps_put_sq; [| | exact H]; [eassumption | try nr_same]
  end : keeps.

Ltac run_all H :=
  run_cases H;
  repeat match goal with
         | E : (if _ then _ else _) = Ok _ |- _ => progress run_cases E
         | E : (match _ with _ => _ end) = Ok _ |- _ => progress run_cases E
         | E : (_ ≫= _) = Ok _ |- _ => progress run_cases E
         end.

(** The frames of the steps are chained backwards from the final state. *)
Ltac keeps_solve :=
  simplify_eq;
  repeat first
    [ apply keeps_refl
    | match goal with
      | |- keeps _ (put_bio ?s _ _) => apply (keeps_step _ s); [apply keeps_put_bio|]
      | |- keeps _ (put_td ?s _ _) => apply (keeps_step _ s); [apply keeps_put_td|]
      end
    | eapply keeps_step; [solve [eauto 3 with keeps] |] ].

Lemma may_dispatch_keeps (HZ : Z) (st st' : state) (id bio_id : nat)
    (ok : bool) (w : Z) :
  may_dispatch HZ st id bio_id = Ok (ok, w, st') -> keeps st st'.
Proof.
  unfold may_dispatch. intros H.
  destruct (get_tg st id) as [t|] eqn:Ht; simpl in H; [|discriminate].
  destruct (get_bio st bio_id) as [b|]; simpl in H; [|discriminate].
  destruct (tg_may_dispatch HZ (jiffies st) t b) as [[[ok' w'] t']|] eqn:E;
    simpl in H; [|discriminate].
  injection H as _ _ <-. eapply keeps_put_tg_sq; [done|].
  by rewrite (tg_may_dispatch_service_queue _ _ _ _ _ _ _ E).
Qed.

Lemma charge_bio_keeps (st st' : state) (id bio_id : nat) :
  charge_bio st id bio_id = Ok st' -> keeps st st'.
Proof.
  intros H.
  destruct (get_tg st id) as [t|] eqn:Ht;
    [|by unfold charge_bio in H; rewrite Ht in H].
  destruct (get_bio st bio_id) as [b|] eqn:Hb;
    [|by unfold charge_bio in H; rewrite Ht, Hb in H].
  rewrite (charge_bio_run _ _ _ _ _ (get_tg_Ok _ _ _ Ht) (deref_Ok _ _ Hb)) in H.
  injection H as <-.
  eapply keeps_trans; [|apply keeps_put_bio].
  eapply keeps_put_tg_sq; [done|]. reflexivity.
Qed.

Lemma trim_slice_keeps (HZ : Z) (st st' : state) (id : nat) (rw : dir) :
  trim_slice HZ st id rw = Ok st' -> keeps st st'.
Proof.
  unfold trim_slice. intros H.
  destruct (get_tg st id) as [t|] eqn:Ht; simpl in H; [|discriminate].
  destruct (throtl_trim_slice HZ (jiffies st) t rw) as [t'|] eqn:E;
    simpl in H; [|discriminate].
  injection H as <-. eapply keeps_put_tg_sq; [done|].
  by rewrite (throtl_trim_slice_service_queue _ _ _ _ _ E).
Qed.

#[local] Hint Resolve may_dispatch_keeps charge_bio_keeps trim_slice_keeps : keeps.

Lemma trim_after_charge_keeps (HZ : Z) (st st' : state) (id : nat) (rw : bool) :
  trim_after_charge HZ st id rw = Ok st' -> keeps st st'.
Proof. unfold trim_after_charge. intros H. run_all H; keeps_solve. Qed.

Lemma mark_was_empty_keeps (st st' : state) (id : nat) (rw : bool) :
  mark_was_empty st id rw = Ok st' -> keeps st st'.
Proof. unfold mark_was_empty. intros H. run_all H; keeps_solve. Qed.

Lemma put_queued_keeps (st st' : state) (sq : sq_ref) (rw : bool) (l : list qn_ref) :
  put_queued st sq rw l = Ok st' -> keeps st st'.
Proof. unfold put_queued. intros H. run_all H; keeps_solve. Qed.

#[local] Hint Resolve trim_after_charge_keeps mark_was_empty_keeps
  put_queued_keeps : keeps.

Lemma qnode_add_bio_keeps (with_blkg : bool) (st st' : state) (bio_id : nat)
    (qn : qn_ref) (sq : sq_ref) (rw : bool) :
  qnode_add_bio with_blkg st bio_id qn sq rw = Ok st' -> keeps st st'.
Proof.
  unfold qnode_add_bio, get_queued. intros H. run_all H; keeps_solve.
Qed.

Lemma inc_nr_queued_keeps (st st' : state) (id : nat) (rw : bool) :
  ~ is_header st id -> inc_nr_queued st id rw = Ok st' -> keeps st st'.
Proof.
  unfold inc_nr_queued. intros Hn H. run_all H. simplify_eq.
  eapply keeps_put_tg; [done|]. by intros ?.
Qed.

Lemma tg_service_queue_add_keeps (st st' : state) (id : nat) :
  tg_service_queue_add st id = Ok st' -> keeps st st'.
Proof. unfold tg_service_queue_add. intros H. run_all H; keeps_solve. Qed.

#[local] Hint Resolve qnode_add_bio_keeps tg_service_queue_add_keeps : keeps.

Lemma __throtl_enqueue_tg_keeps (st st' : state) (id : nat) :
  __throtl_enqueue_tg st id = Ok st' -> keeps st st'.
Proof. unfold __throtl_enqueue_tg. intros H. run_all H; keeps_solve. Qed.

#[local] Hint Resolve __throtl_enqueue_tg_keeps : keeps.

Lemma throtl_enqueue_tg_keeps (st st' : state) (id : nat) :
  throtl_enqueue_tg st id = Ok st' -> keeps st st'.
Proof. unfold throtl_enqueue_tg. intros H. run_all H; keeps_solve. Qed.

Lemma __throtl_dequeue_tg_keeps (st st' : state) (id : nat) :
  __throtl_dequeue_tg st id = Ok st' -> keeps st st'.
Proof. unfold __throtl_dequeue_tg. intros H. run_all H; keeps_solve. Qed.

#[local] Hint Resolve throtl_enqueue_tg_keeps __throtl_dequeue_tg_keeps : keeps.

Lemma throtl_dequeue_tg_keeps (st st' : state) (id : nat) :
  throtl_dequeue_tg st id = Ok st' -> keeps st st'.
Proof. unfold throtl_dequeue_tg. intros H. run_all H; keeps_solve. Qed.

#[local] Hint Resolve throtl_dequeue_tg_keeps : keeps.

Lemma keeps_not_header (st st' : state) (id : nat) :
  keeps st st' -> ~ is_header st id -> ~ is_header st' id.
Proof.
  intros (Hf & _) Hn Hh. apply Hn. by apply (is_header_fd_heads st').
Qed.

(** Queueing a bio on a group that is not the header of a fake device. *)
Lemma throtl_add_bio_tg_keeps (st st' : state) (bio_id : nat)
    (qn : option qn_ref) (id : nat) :
  ~ is_header st id ->
  throtl_add_bio_tg st bio_id qn id = Ok st' -> keeps st st'.
Proof.
  unfold throtl_add_bio_tg, throtl_qnode_add_bio. intros Hn H. run_all H.
  assert (K1 : keeps st a1) by keeps_solve.
  pose proof (inc_nr_queued_keeps _ _ _ _ (keeps_not_header _ _ _ K1 Hn) E2) as K2.
  eapply keeps_trans; [exact K1|]. eapply keeps_trans; [exact K2|].
  keeps_solve.
Qed.

Lemma throtl_rb_first_keeps (st st' : state) (parent : sq_ref) (o : option nat) :
  throtl_rb_first st parent = Ok (o, st') -> keeps st st'.
Proof. unfold throtl_rb_first. intros H. run_all H; keeps_solve. Qed.

#[local] Hint Resolve throtl_rb_first_keeps : keeps.

Lemma update_min_dispatch_time_keeps (st st' : state) (parent : sq_ref) :
  update_min_dispatch_time st parent = Ok st' -> keeps st st'.
Proof. unfold update_min_dispatch_time. intros H. run_all H; keeps_solve. Qed.

Lemma throtl_schedule_pending_timer_keeps (st st' : state) (sq : sq_ref) (e : Z) :
  throtl_schedule_pending_timer st sq e = Ok st' -> keeps st st'.
Proof. unfold throtl_schedule_pending_timer. intros H. run_all H; keeps_solve. Qed.

#[local] Hint Resolve update_min_dispatch_time_keeps
  throtl_schedule_pending_timer_keeps : keeps.

Lemma throtl_schedule_next_dispatch_keeps (st st' : state) (sq : option sq_ref)
    (force r : bool) :
  throtl_schedule_next_dispatch st sq force = Ok (r, st') -> keeps st st'.
Proof. unfold throtl_schedule_next_dispatch. intros H. run_all H; keeps_solve. Qed.

#[local] Hint Resolve throtl_schedule_next_dispatch_keeps : keeps.

Lemma peek_wait_keeps (HZ : Z) (st st' : state) (id : nat) (rw : bool) (w w' : Z) :
  peek_wait HZ st id rw w = Ok (w', st') -> keeps st st'.
Proof. unfold peek_wait. intros H. run_all H; keeps_solve. Qed.

Lemma set_disptime_requeue_keeps (st st' : state) (id : nat) (d : Z) :
  set_disptime_requeue st id d = Ok st' -> keeps st st'.
Proof. unfold set_disptime_requeue. intros H. run_all H; keeps_solve. Qed.

#[local] Hint Resolve peek_wait_keeps set_disptime_requeue_keeps : keeps.

Lemma tg_update_disptime_keeps (HZ : Z) (st st' : state) (id : nat) :
  tg_update_disptime HZ st id = Ok st' -> keeps st st'.
Proof. unfold tg_update_disptime. intros H. run_all H; keeps_solve. Qed.

Lemma members_min_wait_keeps (HZ : Z) (ms : list fake_device_member) :
  forall (st st' : state) (r w m m' : Z),
    members_min_wait HZ st ms r w m = Ok (m', st') -> keeps st st'.
Proof.
  induction ms as [|x ms IH]; intros st st' r w m m' H; simpl in H.
  - keeps_solve.
  - run_all H. apply IH in H. eapply keeps_step; [exact H|]. keeps_solve.
Qed.

Lemma members_set_disptime_keeps (ms : list fake_device_member) :
  forall (st st' : state) (d : Z),
    members_set_disptime st ms d = Ok st' -> keeps st st'.
Proof.
  induction ms as [|x ms IH]; intros st st' d H; simpl in H.
  - keeps_solve.
  - run_all H. apply IH in H. eapply keeps_step; [exact H|]. keeps_solve.
Qed.

#[local] Hint Resolve tg_update_disptime_keeps members_min_wait_keeps
  members_set_disptime_keeps : keeps.

Lemma tg_update_disptime_recursively_keeps (HZ : Z) (st st' : state)
    (fd : fake_device) :
  tg_update_disptime_recursively HZ st fd = Ok st' -> keeps st st'.
Proof. unfold tg_update_disptime_recursively. intros H. run_all H; keeps_solve. Qed.

Lemma charge_members_keeps (ms : list fake_device_member) :
  forall (st st' : state) (bio_id : nat),
    charge_members st ms bio_id = Ok st' -> keeps st st'.
Proof.
  induction ms as [|x ms IH]; intros st st' bio_id H; simpl in H.
  - keeps_solve.
  - run_all H. apply IH in H. eapply keeps_step; [exact H|]. keeps_solve.
Qed.

Lemma trim_members_keeps (HZ : Z) (ms : list fake_device_member) :
  forall (st st' : state) (rw : dir),
    trim_members HZ st ms rw = Ok st' -> keeps st st'.
Proof.
  induction ms as [|x ms IH]; intros st st' rw H; simpl in H.
  - keeps_solve.
  - run_all H. apply IH in H. eapply keeps_step; [exact H|]. keeps_solve.
Qed.

#[local] Hint Resolve tg_update_disptime_recursively_keeps charge_members_keeps
  trim_members_keeps : keeps.

Lemma throtl_charge_bio_recursively_keeps (st st' : state) (fd : fake_device)
    (bio_id : nat) :
  throtl_charge_bio_recursively st fd bio_id = Ok st' -> keeps st st'.
Proof. unfold throtl_charge_bio_recursively. intros H. run_all H; keeps_solve. Qed.

Lemma throtl_trim_slice_recursively_keeps (HZ : Z) (st st' : state)
    (fd : fake_device) (rw : dir) :
  throtl_trim_slice_recursively HZ st fd rw = Ok st' -> keeps st st'.
Proof. unfold throtl_trim_slice_recursively. intros H. run_all H; keeps_solve. Qed.

#[local] Hint Resolve throtl_charge_bio_recursively_keeps
  throtl_trim_slice_recursively_keeps : keeps.

(** The total of the members is an [unsigned int]. *)
Lemma sum_member_queued_nonneg (st : state) (ms : list fake_device_member)
    (rw : bool) :
  forall total total', 0 <= total ->
    sum_member_queued st ms rw total = Ok total' -> 0 <= total'.
Proof.
  induction ms as [|m ms IH]; intros total total' Ht H; simpl in H.
  - by injection H as <-.
  - run_all H. eapply IH; [|exact H]. apply u32_range.
Qed.

(** One pass of [update_fd_queuenr] writes a count that is not above the
    stored one: an idle header stays idle. *)
Lemma update_fd_queuenr_dir_keeps (st st' : state) (fd : fake_device) (rw : bool)
    (total total' : Z) :
  0 <= total ->
  update_fd_queuenr_dir st fd rw total = Ok (total', st') ->
  keeps st st' /\ 0 <= total'.
Proof.
  unfold update_fd_queuenr_dir. intros Ht H. run_all H; simplify_eq.
  - pose proof (sum_member_queued_nonneg _ _ _ _ _ Ht E) as Hpos.
    split; [|done]. eapply keeps_put_tg; [done|].
    unfold idle. intros _ Hi. simpl. rewrite Hi in *.
    apply Z.leb_le in E1.
    assert (total' = 0) by (destruct rw; simpl in E1; lia). subst.
    by destruct rw.
  - split; [apply keeps_refl|]. by eapply sum_member_queued_nonneg.
Qed.

Lemma update_fd_queuenr_keeps (st st' : state) (fd : fake_device) :
  update_fd_queuenr st fd = Ok st' -> keeps st st'.
Proof.
  unfold update_fd_queuenr. intros H. run_all H. simplify_eq.
  destruct (update_fd_queuenr_dir_keeps _ _ _ _ _ _ (Z.le_refl 0) E) as [K1 Hz].
  destruct (update_fd_queuenr_dir_keeps _ _ _ _ _ _ Hz E0) as [K2 _].
  by eapply keeps_trans.
Qed.

#[local] Hint Resolve update_fd_queuenr_keeps : keeps.

Lemma fd_round_keeps (HZ : Z) (st st' : state) (fd : fake_device)
    (bio_id : nat) (rw : bool) (q : nat) (brk : bool) :
  fd_round HZ st fd bio_id rw q = Ok (brk, st') -> keeps st st'.
Proof. unfold fd_round. intros H. run_all H; keeps_solve. Qed.

#[local] Hint Resolve fd_round_keeps : keeps.

#[local] Arguments fd_rounds : simpl nomatch.

(** The loop over the fake devices: the frame, and where it is left. *)
Lemma fd_rounds_keeps (HZ : Z) (rest : list fake_device) :
  forall (st st' : state) (fd : fake_device) (bio_id : nat) (rw : bool)
         (q : nat) (at_break : option fake_device),
    fd_rounds HZ st fd rest bio_id rw q = Ok (at_break, st') ->
    keeps st st'
    /\ forall fd', at_break = Some fd' -> fd' ∈ fd :: rest.
Proof.
  induction rest as [|fd1 rest IH]; intros st st' fd bio_id rw q at_break H;
    simpl in H; run_all H; simplify_eq.
  - split; [keeps_solve|]. intros fd' [= <-]. by left.
  - split; [keeps_solve|]. by intros fd'.
  - split; [keeps_solve|]. intros fd' [= <-]. by left.
  - apply IH in H as [K Hin]. split.
    + eapply keeps_step; [exact K|]. keeps_solve.
    + intros fd' Hfd'. right. by apply Hin.
Qed.

#[local] Arguments fd_rounds : simpl never.

Lemma blk_throtl_bio_out_keeps (st st' : state) (bio_id : nat) (thr r : bool) :
  blk_throtl_bio_out st bio_id thr = Ok (r, st') -> keeps st st'.
Proof. unfold blk_throtl_bio_out. intros H. run_all H; keeps_solve. Qed.

Lemma inc_td_nr_queued_keeps (st st' : state) (q : nat) (rw : bool) :
  inc_td_nr_queued st q rw = Ok st' -> keeps st st'.
Proof. unfold inc_td_nr_queued. intros H. run_all H; keeps_solve. Qed.

#[local] Hint Resolve blk_throtl_bio_out_keeps inc_td_nr_queued_keeps : keeps.

#[local] Arguments climb : simpl nomatch.

Lemma climb_keeps (HZ : Z) (fuel : nat) :
  forall (st st' : state) (bio_id : nat) (rw : bool) (blkcg tg : nat)
         (exit : climb_exit),
    climb HZ fuel st bio_id rw blkcg tg = Ok (exit, st') -> keeps st st'.
Proof.
  induction fuel as [|fuel IH]; intros st st' bio_id rw blkcg tg exit H;
    simpl in H; [discriminate|].
  run_all H; simplify_eq; try (apply IH in H; eapply keeps_step; [exact H|]);
    keeps_solve.
Qed.

#[local] Arguments climb : simpl never.

#[local] Hint Resolve climb_keeps : keeps.

Lemma lookup_create_frame_keeps
    (blkg_lookup_create : state -> nat -> nat -> ptr_or_err * state) :
  lookup_create_frame blkg_lookup_create ->
  forall st blkcg q, keeps st (snd (blkg_lookup_create st blkcg q)).
Proof.
  intros Hfr st blkcg q. destruct (Hfr st blkcg q) as [Hf Ht].
  split; [done|]. split.
  - intros id [t Ht0]. destruct (Ht _ _ Ht0) as (t' & Ht' & _). eauto.
  - intros id h h' _ Hh Hh' Hi. destruct (Ht _ _ Hh) as (t' & Ht' & Heq).
    rewrite Ht' in Hh'. injection Hh' as <-. unfold idle in *. congruence.
Qed.

Lemma queue_to_fd_member_in (fd : fake_device) (q : nat) (m : fake_device_member) :
  queue_to_fd_member fd q = Some m -> m ∈ fd_head fd.
Proof.
  unfold queue_to_fd_member. intros H. apply find_some in H as [H _].
  by apply list_elem_of_In.
Qed.

Section KeepsEntry.

Variable HZ : Z.
Variable blkg_lookup_create : state -> nat -> nat -> ptr_or_err * state.
Hypothesis frame : lookup_create_frame blkg_lookup_create.

Lemma throtl_lookup_create_tg_keeps (st st' : state) (q blkcg : nat)
    (o : option nat) :
  throtl_lookup_create_tg blkg_lookup_create st q blkcg = Ok (o, st') ->
  keeps st st'.
Proof.
  unfold throtl_lookup_create_tg. intros H.
  pose proof (lookup_create_frame_keeps _ frame st blkcg q) as K.
  run_all H; simplify_eq; try apply keeps_refl; exact K.
Qed.

(** The label [fake_device_check] for a bio that passed the walk: when it
    is queued, it is queued on a member group. *)
Lemma fake_device_check_keeps (st st' : state) (q bio_id : nat) (rw : bool)
    (blkcg : nat) (qn : option qn_ref) (r : bool) :
  fd_wf st ->
  fake_device_check HZ st q bio_id rw blkcg qn false = Ok (r, st') ->
  keeps st st'.
Proof.
  unfold fake_device_check. intros Hwf H. simpl in H.
  destruct (fd_heads st !! blkcg) as [chain|] eqn:Hc; simpl in H; [|discriminate].
  destruct chain as [|fd rest]; simpl in H; [discriminate|].
  destruct (fd_rounds HZ st fd rest bio_id rw q) as [[at_break st1]|] eqn:Er;
    simpl in H; [|discriminate].
  apply fd_rounds_keeps in Er as [K1 Hin].
  destruct at_break as [fake_d|];
    [|run_all H; eapply keeps_step; [|exact K1]; keeps_solve].
  specialize (Hin fake_d eq_refl).
  run_all H.
  match goal with E : deref (queue_to_fd_member _ _) = _ |- _ =>
    apply deref_Ok, queue_to_fd_member_in in E; rename E into Hm end.
  pose proof (wf_apart st Hwf _ _ _ _ Hc Hin Hm) as Hn.
  match goal with E : inc_td_nr_queued _ _ _ = Ok ?s |- _ =>
    assert (K2 : keeps st s) by (eapply keeps_step; [|exact K1]; keeps_solve) end.
  match goal with E : throtl_add_bio_tg _ _ _ _ = Ok ?s |- _ =>
    apply throtl_add_bio_tg_keeps in E; [|by eapply keeps_not_header];
    assert (K3 : keeps st s) by (by eapply keeps_trans) end.
  eapply keeps_step; [|exact K3]. keeps_solve.
Qed.

Lemma blk_throtl_bio_keeps (st st' : state) (q bio_id : nat) (r : bool) :
  fd_wf st ->
  blk_throtl_bio HZ blkg_lookup_create st q bio_id = Ok (r, st') ->
  keeps st st'.
Proof.
  unfold blk_throtl_bio. intros Hwf H.
  run_all H; simplify_eq;
    try match goal with
        | E : queue_out_of_limit _ _ _ _ _ _ _ = Ok _ |- _ =>
            exfalso; eapply queue_out_of_limit_faults; [|exact E]; auto
        end;
    try match goal with
        | E : throtl_lookup_create_tg _ _ _ _ = Ok _ |- _ =>
            apply throtl_lookup_create_tg_keeps in E
        end;
    try match goal with
        | E : climb _ _ _ _ _ _ _ = Ok _ |- _ => apply climb_keeps in E
        end;
    try match goal with
        | E : fake_device_check _ _ _ _ _ _ _ false = Ok _ |- _ =>
            apply fake_device_check_keeps in E;
              [|repeat (eapply keeps_fd_wf; [eassumption|]); exact Hwf]
        end;
    eauto 6 using keeps_trans, keeps_refl with keeps.
Qed.

End KeepsEntry.


Lemma blkg_lookup_existing_frame : lookup_create_frame blkg_lookup_existing.
Proof.
  intros st blkcg q. unfold blkg_lookup_existing.
  destruct (blkg_tree st !! (blkcg, q)); simpl; eauto.
Qed.

Lemma st_fd_over_limit_header (id : nat) :
  is_header st_fd_over_limit id <-> id = 10%nat.
Proof.
  split.
  - intros (blkcg & chain & fd & Hc & Hin & <-). simpl in Hc.
    apply lookup_singleton_Some in Hc as [_ <-].
    by apply list_elem_of_singleton in Hin as ->.
  - intros ->. exists 1%nat, [fd7], fd7. split; [done|]. split; [by left | done].
Qed.

Lemma st_fd_over_limit_wf : fd_wf st_fd_over_limit.
Proof.
  split.
  - intros id h Hh Hl. apply st_fd_over_limit_header in Hh as ->.
    vm_compute in Hl. by injection Hl as <-.
  - intros blkcg chain fd m Hc Hin Hm Hh. simpl in Hc.
    apply lookup_singleton_Some in Hc as [_ <-].
    apply list_elem_of_singleton in Hin as ->.
    apply list_elem_of_singleton in Hm as ->.
    by apply st_fd_over_limit_header in Hh.
  - intros blkcg chain fd Hc Hin. simpl in Hc.
    apply lookup_singleton_Some in Hc as [_ <-].
    apply list_elem_of_singleton in Hin as ->. split; [by eexists|].
    intros m Hm. apply list_elem_of_singleton in Hm as ->. by eexists.
Qed.


(** ** Configuration writes *)

Lemma write_conf_field_service_queue (t : throtl_grp) (off : conf_field)
    (is_u64 : bool) (v : Z) :
  service_queue (write_conf_field t off is_u64 v) = service_queue t.
Proof. by destruct off. Qed.

Lemma tg_update_has_rules_keeps (st st' : state) (id : nat) :
  tg_update_has_rules st id = Ok st' -> keeps st st'.
Proof. unfold tg_update_has_rules. intros H. run_all H; keeps_solve. Qed.

#[local] Hint Resolve tg_update_has_rules_keeps : keeps.

Lemma update_has_rules_walk_keeps (order : list nat) :
  forall st st', update_has_rules_walk st order = Ok st' -> keeps st st'.
Proof.
  induction order as [|id order IH]; intros st st' H; simpl in H.
  - keeps_solve.
  - run_all H. apply IH in H. eapply keeps_step; [exact H|]. keeps_solve.
Qed.

Lemma fd_member_update_has_rules_keeps (st st' : state) (header : nat)
    (m : fake_device_member) :
  fd_member_update_has_rules st header m = Ok st' -> keeps st st'.
Proof. unfold fd_member_update_has_rules. intros H. run_all H; keeps_solve. Qed.

#[local] Hint Resolve update_has_rules_walk_keeps
  fd_member_update_has_rules_keeps : keeps.

Lemma fd_members_update_has_rules_keeps (ms : list fake_device_member) :
  forall st st' header,
    fd_members_update_has_rules st header ms = Ok st' -> keeps st st'.
Proof.
  induction ms as [|m ms IH]; intros st st' header H; simpl in H.
  - keeps_solve.
  - run_all H. apply IH in H. eapply keeps_step; [exact H|]. keeps_solve.
Qed.

#[local] Hint Resolve fd_members_update_has_rules_keeps : keeps.

Lemma tg_fd_update_has_rules_recursively_keeps (st st' : state) (fd : fake_device) :
  tg_fd_update_has_rules_recursively st fd = Ok st' -> keeps st st'.
Proof.
  unfold tg_fd_update_has_rules_recursively. intros H. run_all H; keeps_solve.
Qed.

Lemma start_new_slice_keeps (HZ : Z) (st st' : state) (id : nat) (rw : bool) :
  start_new_slice HZ st id rw = Ok st' -> keeps st st'.
Proof. unfold start_new_slice. intros H. run_all H; keeps_solve. Qed.

#[local] Hint Resolve tg_fd_update_has_rules_recursively_keeps
  start_new_slice_keeps : keeps.

Lemma start_new_slice_members_keeps (HZ : Z) (ms : list fake_device_member) :
  forall st st' rw, start_new_slice_members HZ st ms rw = Ok st' -> keeps st st'.
Proof.
  induction ms as [|m ms IH]; intros st st' rw H; simpl in H.
  - keeps_solve.
  - run_all H. apply IH in H. eapply keeps_step; [exact H|]. keeps_solve.
Qed.

#[local] Hint Resolve start_new_slice_members_keeps : keeps.

Lemma throtl_start_new_slice_recursively_keeps (HZ : Z) (st st' : state)
    (fd : fake_device) (rw : bool) :
  throtl_start_new_slice_recursively HZ st fd rw = Ok st' -> keeps st st'.
Proof.
  unfold throtl_start_new_slice_recursively. intros H. run_all H; keeps_solve.
Qed.

Lemma fd_throtl_init_members_keeps (ms : list fake_device_member) :
  forall st st', fd_throtl_init_members st ms = Ok st' -> keeps st st'.
Proof.
  induction ms as [|m ms IH]; intros st st' H; simpl in H.
  - keeps_solve.
  - run_all H. apply IH in H. eapply keeps_step; [exact H|]. keeps_solve.
Qed.

#[local] Hint Resolve throtl_start_new_slice_recursively_keeps
  fd_throtl_init_members_keeps : keeps.

Lemma fd_throtl_init_chain_keeps (chain : list fake_device) :
  forall st st', fd_throtl_init_chain st chain = Ok st' -> keeps st st'.
Proof.
  induction chain as [|fd chain IH]; intros st st' H; simpl in H.
  - keeps_solve.
  - run_all H. apply IH in H. eapply keeps_step; [exact H|]. keeps_solve.
Qed.

Lemma fd_throtl_init_keeps (st st' : state) (blkcg : nat) :
  fd_throtl_init st blkcg = Ok st' -> keeps st st'.
Proof. apply fd_throtl_init_chain_keeps. Qed.

#[local] Hint Resolve fd_throtl_init_keeps : keeps.

Lemma fresh_tg (st : state) : tgs st !! fresh (dom (tgs st)) = None.
Proof. apply not_elem_of_dom, is_fresh. Qed.

Lemma fd_lookup_in (chain : list fake_device) (f_id : Z) (fd : fake_device) :
  fd_lookup chain f_id = Some fd -> fd ∈ chain.
Proof.
  unfold fd_lookup. intros H. apply find_some in H as [H _].
  by apply list_elem_of_In.
Qed.

Lemma fd_replace_in (chain : list fake_device) (f_id : Z) (fd' x : fake_device) :
  x ∈ fd_replace chain f_id fd' -> x = fd' \/ x ∈ chain.
Proof.
  induction chain as [|fd chain IH]; simpl; [by intros H%elem_of_nil|].
  destruct (bool_decide (fd_id fd = f_id)).
  - intros [->|H]%elem_of_cons; [by left | right; by right].
  - intros [->|H]%elem_of_cons; [right; by left|].
    destruct (IH H) as [->|Hin]; [by left | right; by right].
Qed.

Lemma default_chain_in (st : state) (blkcg : nat) (fd : fake_device) :
  fd ∈ default [] (fd_heads st !! blkcg) ->
  exists chain, fd_heads st !! blkcg = Some chain /\ fd ∈ chain.
Proof.
  destruct (fd_heads st !! blkcg) as [chain|]; simpl; [eauto|].
  by intros H%elem_of_nil.
Qed.

Lemma is_header_alloc (st : state) (id : nat) :
  fd_wf st -> is_header st id -> is_Some (tgs st !! id).
Proof.
  intros Hwf (b & c & fd & Hc & Hin & <-). by destruct (wf_alloc st Hwf _ _ _ Hc Hin).
Qed.

(** [fd_lookup_create] allocates the header group of a new fake device
    zeroed. *)
Lemma fd_lookup_create_wf (st : state) (blkcg : nat) (f_id : Z) :
  fd_wf st -> fd_wf (fd_lookup_create st blkcg f_id).
Proof.
  intros Hwf. unfold fd_lookup_create.
  destruct (fd_lookup _ _); [done|]. unfold alloc_tg.
  set (id := fresh (dom (tgs st))).
  set (chain0 := default [] (fd_heads st !! blkcg)).
  assert (Hfresh : tgs st !! id = None) by apply fresh_tg.
  set (st' := set_fd_heads _ _).
  assert (Hel : forall b c fd, fd_heads st' !! b = Some c -> fd ∈ c ->
            fd = FakeDevice f_id id []
            \/ exists c0, fd_heads st !! b = Some c0 /\ fd ∈ c0).
  { intros b c fd Hc Hin. simpl in Hc. destruct (decide (blkcg = b)) as [<-|Hne].
    - rewrite lookup_insert_eq in Hc. injection Hc as <-.
      apply elem_of_cons in Hin as [->|Hin]; [by left|].
      right. by apply default_chain_in.
    - rewrite lookup_insert_ne in Hc by done. right. eauto. }
  assert (Hold : forall j, j <> id -> tgs st' !! j = tgs st !! j).
  { intros j Hj. simpl. by rewrite lookup_insert_ne. }
  assert (Hhd : forall j, is_header st' j -> j = id \/ is_header st j).
  { intros j (b & c & fd & Hc & Hin & <-).
    destruct (Hel _ _ _ Hc Hin) as [->|(c0 & Hc0 & Hin0)]; [by left|].
    right. by exists b, c0, fd. }
  split.
  - intros j h Hj Hh. destruct (decide (j = id)) as [->|Hne].
    + simpl in Hh. rewrite lookup_insert_eq in Hh. by injection Hh as <-.
    + destruct (Hhd j Hj) as [->|Hj0]; [done|]. rewrite Hold in Hh by done.
      by eapply wf_idle.
  - intros b c fd m Hc Hin Hm Hj.
    destruct (Hel _ _ _ Hc Hin) as [->|(c0 & Hc0 & Hin0)];
      [by apply elem_of_nil in Hm|].
    destruct (Hhd _ Hj) as [E|Hj0].
    + destruct (wf_alloc st Hwf _ _ _ Hc0 Hin0) as [_ Hal].
      destruct (Hal m Hm) as [t Ht]. rewrite E in Ht. congruence.
    + by eapply (wf_apart st Hwf).
  - intros b c fd Hc Hin.
    destruct (Hel _ _ _ Hc Hin) as [->|(c0 & Hc0 & Hin0)].
    + split; [simpl; rewrite lookup_insert_eq; eauto|].
      intros m Hm. by apply elem_of_nil in Hm.
    + destruct (wf_alloc st Hwf _ _ _ Hc0 Hin0) as [Hh Hal].
      assert (Hmono : forall j, is_Some (tgs st !! j) -> is_Some (tgs st' !! j)).
      { intros j [t Ht]. rewrite Hold; [eauto|]. intros ->. congruence. }
      split; [by apply Hmono|]. intros m Hm. by apply Hmono, Hal.
Qed.

(** [fd_member_lookup_create] allocates the group of a new member; the
    header groups are those of before. *)
Lemma fd_member_lookup_create_wf (st st' : state) (blkcg : nat) (f_id : Z)
    (q : nat) :
  fd_wf st -> fd_member_lookup_create st blkcg f_id q = Ok st' -> fd_wf st'.
Proof.
  intros Hwf. unfold fd_member_lookup_create.
  destruct (fd_lookup _ _) as [fd0|] eqn:Hl; simpl; [|discriminate].
  destruct (queue_in_fake_d fd0 q); [by intros [= <-]|]. unfold alloc_tg.
  set (id := fresh (dom (tgs st))).
  assert (Hfresh : tgs st !! id = None) by apply fresh_tg.
  intros [= <-]. set (st' := set_fd_heads _ _).
  apply fd_lookup_in, default_chain_in in Hl as (chain & Hchain & Hin0).
  assert (Hel : forall b c fd, fd_heads st' !! b = Some c -> fd ∈ c ->
            (fd_tg fd = fd_tg fd0 /\ fd_head fd = FdMember q id :: fd_head fd0)
            \/ exists c0, fd_heads st !! b = Some c0 /\ fd ∈ c0).
  { intros b c fd Hc Hin. simpl in Hc. destruct (decide (blkcg = b)) as [<-|Hne].
    - rewrite lookup_insert_eq in Hc. injection Hc as <-. rewrite Hchain in Hin.
      apply fd_replace_in in Hin as [->|Hin]; [by left | right; eauto].
    - rewrite lookup_insert_ne in Hc by done. right. eauto. }
  assert (Hold : forall j, j <> id -> tgs st' !! j = tgs st !! j).
  { intros j Hj. simpl. by rewrite lookup_insert_ne. }
  assert (Hmono : forall j, is_Some (tgs st !! j) -> is_Some (tgs st' !! j)).
  { intros j [t Ht]. rewrite Hold; [eauto|]. intros ->. congruence. }
  assert (Hhd : forall j, is_header st' j -> is_header st j).
  { intros j (b & c & fd & Hc & Hin & <-).
    destruct (Hel _ _ _ Hc Hin) as [[-> _]|(c0 & Hc0 & Hin')].
    - by exists blkcg, chain, fd0.
    - by exists b, c0, fd. }
  assert (Hnew : ~ is_header st id).
  { intros Hj. destruct (is_header_alloc _ _ Hwf Hj) as [t Ht]. congruence. }
  split.
  - intros j h Hj Hh. apply Hhd in Hj.
    rewrite Hold in Hh; [by eapply wf_idle|]. intros ->. by apply Hnew.
  - intros b c fd m Hc Hin Hm Hj. apply Hhd in Hj.
    destruct (Hel _ _ _ Hc Hin) as [[_ Hms]|(c0 & Hc0 & Hin')].
    + rewrite Hms in Hm. apply elem_of_cons in Hm as [->|Hm]; [by apply Hnew|].
      by eapply (wf_apart st Hwf _ _ fd0).
    + by eapply (wf_apart st Hwf _ _ fd).
  - intros b c fd Hc Hin.
    destruct (Hel _ _ _ Hc Hin) as [[Ht Hms]|(c0 & Hc0 & Hin')].
    + destruct (wf_alloc st Hwf _ _ _ Hchain Hin0) as [Hh Hal].
      rewrite Ht, Hms. split; [by apply Hmono|].
      intros m [->|Hm]%elem_of_cons; [|by apply Hmono, Hal].
      simpl. rewrite lookup_insert_eq. eauto.
    + destruct (wf_alloc st Hwf _ _ _ Hc0 Hin') as [Hh Hal].
      split; [by apply Hmono|]. intros m Hm. by apply Hmono, Hal.
Qed.

Section KeepsConfig.

Variable HZ : Z.
Variable blkg_lookup_create : state -> nat -> nat -> ptr_or_err * state.
Variable sscanf : string -> string -> list Z.
Variable get_gendisk : Z -> option (nat * Z).
Variable blkcg_policy_enabled : state -> nat -> bool.
Variable blkg_descendants_pre : state -> nat -> list nat.
Hypothesis frame : lookup_create_frame blkg_lookup_create.

Lemma blkg_conf_prep_keeps (st st' : state) (blkcg : nat) (input : string)
    (ret : Z) (ctx : option blkg_conf_ctx) :
  blkg_conf_prep blkg_lookup_create sscanf get_gendisk blkcg_policy_enabled
    st blkcg input = (ret, ctx, st') ->
  keeps st st'.
Proof.
  unfold blkg_conf_prep. intros H.
  repeat match type of H with
         | (match ?x with _ => _ end) = _ => destruct x eqn:?
         | (let '(_, _) := ?x in _) = _ => destruct x eqn:?
         end; simplify_eq; try apply keeps_refl.
  all: match goal with
       | E : (if ?c then _ else _) = _ |- _ => destruct c; simplify_eq
       end; try apply keeps_refl.
  all: match goal with
       | E : blkg_lookup_create ?s ?b ?q = (_, ?s') |- keeps ?s ?s' =>
           pose proof (lookup_create_frame_keeps _ frame s b q) as K;
           by rewrite E in K
       end.
Qed.

Lemma tg_set_conf_keeps (st st' : state) (blkcg : nat) (off : conf_field)
    (buf : string) (nbytes ret : Z) (is_u64 : bool) :
  tg_set_conf HZ blkg_lookup_create sscanf get_gendisk blkcg_policy_enabled
    blkg_descendants_pre st blkcg off buf nbytes is_u64 = Ok (ret, st') ->
  keeps st st'.
Proof.
  unfold tg_set_conf. intros H.
  destruct (blkg_conf_prep _ _ _ _ _ _ _) as [[ret0 ctx] st0] eqn:Ep.
  apply blkg_conf_prep_keeps in Ep.
  destruct ctx as [ctx|]; [|injection H as _ <-; exact Ep].
  run_all H; eapply keeps_step; [|exact Ep| |exact Ep]; simplify_eq.
  all: repeat first
         [ apply keeps_refl
         | eapply keeps_step; [solve [eauto 3 with keeps] |]
         | match goal with
           | E : get_tg ?s ?id = Ok ?t
             |- keeps _ (put_tg ?s ?id (write_conf_field ?t _ _ _)) =>
               apply (keeps_step _ s);
                 [eapply keeps_put_tg_sq; [exact E|];
                  by rewrite write_conf_field_service_queue|]
           end ].
Qed.

Lemma blkg_fd_conf_prep_wf (st st' : state) (blkcg : nat) (input : string)
    (ret : Z) (ctx : option blkg_fd_conf_ctx) :
  fd_wf st ->
  blkg_fd_conf_prep sscanf get_gendisk st blkcg input = Ok (ret, ctx, st') ->
  fd_wf st'.
Proof.
  unfold blkg_fd_conf_prep. intros Hwf H.
  repeat match type of H with
         | (match ?x with _ => _ end) = _ => destruct x eqn:?
         end; simplify_eq; try done.
  run_all H. simplify_eq.
  eapply fd_member_lookup_create_wf; [|eassumption]. by apply fd_lookup_create_wf.
Qed.

Lemma tg_fd_set_conf_wf (st st' : state) (blkcg : nat) (off : conf_field)
    (buf : string) (nbytes ret : Z) (is_u64 : bool) :
  fd_wf st ->
  tg_fd_set_conf HZ sscanf get_gendisk st blkcg off buf nbytes is_u64
    = Ok (ret, st') ->
  fd_wf st'.
Proof.
  unfold tg_fd_set_conf. intros Hwf H.
  destruct (blkg_fd_conf_prep _ _ _ _ _) as [[[ret0 ctx] st0]|] eqn:Ep;
    simpl in H; [|discriminate].
  apply blkg_fd_conf_prep_wf in Ep; [|done].
  destruct ctx as [ctx|]; [|by injection H as _ <-].
  assert (K : keeps st0 st'); [|by eapply keeps_fd_wf].
  run_all H; simplify_eq.
  all: repeat first
         [ apply keeps_refl
         | eapply keeps_step; [solve [eauto 3 with keeps] |]
         | match goal with
           | E : get_tg ?s ?id = Ok ?t
             |- keeps _ (put_tg ?s ?id (write_conf_field ?t _ _ _)) =>
               apply (keeps_step _ s);
                 [eapply keeps_put_tg_sq; [exact E|];
                  by rewrite write_conf_field_service_queue|]
           end ].
Qed.

End KeepsConfig.


Lemma st_one_queue_wf : fd_wf st_one_queue.
Proof.
  split.
  - by intros id h (b & c & fd & Hc & _).
  - by intros b c fd m Hc.
  - by intros b c fd Hc.
Qed.

